(** * MidiParser (src/script.js): a shallow embedding and its verified properties

    The class [MidiParser] of [src/script.js] decodes a Standard MIDI File held
    in a [Uint8Array].  Its methods are embedded here as functions over the
    byte buffer [data] and the cursor [pos], which every method threads
    explicitly.

    Conventions of the embedding.
    - [this.data] is a [list byte]; [this.data[i]] is [get data i : jsval],
      where [None] stands for JavaScript's [undefined] (any index outside
      [0 .. length-1], negative ones included).
    - [this.pos], [currentTime] and every other JavaScript number that occurs
      is an integer; it is modelled by [Z].  The bitwise operators work on
      32-bit two's complement integers: [ToInt32] is written out, and
      [<<], [|] and [&] are [js_shl], [js_or] and [js_and].  Additions are
      exact on [Z].  Those of JavaScript are exact while magnitudes stay
      below 2^53: the cursor always does, and [currentTime] does unless a
      buffer holds millions of delta times near 2^31, where JavaScript
      rounds and the embedding does not.
    - The two loops ([do .. while] of [readVarLength], [while] of
      [parseTrack]) take a fuel argument that counts iterations; [None]
      means that the fuel ran out before the loop left.
    - The source has no [throw], and its reads have no failure value.  The
      one exception that a call of [parse] can raise is the [RangeError] of
      the engine when a spread of line 41 passes more arguments than it
      accepts: [parse] is the Sequence that is returned when it does not,
      and [parse_outcome] adds the exception. *)

From Stdlib Require Import ZArith List Bool Lia Sorted Permutation.
From Stdlib Require Import Init.Byte Strings.Byte.
From Stdlib Require Strings.String Strings.Ascii.
From Stdlib Require Numbers.DecimalString Numbers.DecimalZ Numbers.DecimalPos.
Import String.StringSyntax.
Import ListNotations.
Delimit Scope string_scope with string.
Open Scope Z_scope.

(** ** JavaScript values and 32-bit operators *)

Module JS.

(** A value read from a typed array: a number, or [undefined] ([None]). *)
Definition jsval := option Z.

(** [ToInt32] on an integral number. *)
Definition ToInt32 (x : Z) : Z := (x + 2 ^ 31) mod 2 ^ 32 - 2 ^ 31.

(** [ToInt32] on a value: [undefined] becomes [NaN] and then [0]. *)
Definition num (v : jsval) : Z :=
  match v with
  | Some z => ToInt32 z
  | None => 0
  end.

(** [a << n] *)
Definition js_shl (a n : Z) : Z := ToInt32 (Z.shiftl (ToInt32 a) (Z.land n 31)).

(** [a | b] *)
Definition js_or (a b : Z) : Z := ToInt32 (Z.lor (ToInt32 a) (ToInt32 b)).

(** [a & b] *)
Definition js_and (a b : Z) : Z := ToInt32 (Z.land (ToInt32 a) (ToInt32 b)).

(** Truthiness of a number that is never [NaN]. *)
Definition truthy (x : Z) : bool := negb (x =? 0).

(** [v === k] for a number literal [k]. *)
Definition strict_eq (v : jsval) (k : Z) : bool :=
  match v with
  | Some z => z =? k
  | None => false
  end.

(** [v > k] for a number literal [k]: [undefined > k] is [false]. *)
Definition gt (v : jsval) (k : Z) : bool :=
  match v with
  | Some z => k <? z
  | None => false
  end.

(** A JavaScript number that is an integer or [-Infinity] (what [Math.max]
    returns on no argument). *)
Inductive jsnum : Type :=
| NegInfinity
| Num (z : Z).

(** The larger of two such numbers. *)
Definition jmax (a b : jsnum) : jsnum :=
  match a, b with
  | NegInfinity, _ => b
  | _, NegInfinity => a
  | Num x, Num y => Num (Z.max x y)
  end.

(** [Math.max(...xs)]: the largest argument, [-Infinity] when there is none.
    The call itself is taken to go through; [parse_outcome] has the case of
    an engine that refuses the number of arguments. *)
Definition Math_max (xs : list jsnum) : jsnum := fold_left jmax xs NegInfinity.

End JS.
Import JS.

(** ** The byte buffer and the cursor primitives *)

Definition bytes := list byte.

Definition byteZ (b : byte) : Z := Z.of_N (Byte.to_N b).

(** [this.data[i]] *)
Definition get (data : bytes) (i : Z) : jsval :=
  if i <? 0 then None else option_map byteZ (nth_error data (Z.to_nat i)).

(** The relative index of [TypedArray.prototype.slice]. *)
Definition rel_index (len k : Z) : Z :=
  if k <? 0 then Z.max (len + k) 0 else Z.min k len.

(** [data.slice(s, e)] *)
Definition slice (data : bytes) (s e : Z) : bytes :=
  let len := Z.of_nat (length data) in
  let from := rel_index len s in
  let to := rel_index len e in
  firstn (Z.to_nat (to - from)) (skipn (Z.to_nat from) data).

(** [readBytes(n)]: the slice and the new cursor. *)
Definition readBytes (data : bytes) (pos n : Z) : bytes * Z :=
  (slice data pos (pos + n), pos + n).

(** One pass of the body of the [do .. while] of [readVarLength], from the
    accumulator [result] and the byte just read. *)
Definition varlen_step (result : Z) (byte : jsval) : Z :=
  js_or (js_shl result 7) (js_and (num byte) 0x7f).

Fixpoint readVarLength_loop (fuel : nat) (data : bytes) (result pos : Z)
  : option (Z * Z) :=
  match fuel with
  | O => None
  | S fuel' =>
      let byte := get data pos in
      let pos := pos + 1 in
      let result := varlen_step result byte in
      if truthy (js_and (num byte) 0x80)
      then readVarLength_loop fuel' data result pos
      else Some (result, pos)
  end.

(** [readVarLength()]: the decoded quantity and the new cursor.  The loop
    goes on only after a byte of the buffer, so [length data + 1] passes
    always suffice ([readVarLength_total]). *)
Definition readVarLength (data : bytes) (pos : Z) : option (Z * Z) :=
  readVarLength_loop (S (length data)) data 0 pos.

(** [readInt16()] *)
Definition readInt16 (data : bytes) (pos : Z) : Z * Z :=
  let value := js_or (js_shl (num (get data pos)) 8) (num (get data (pos + 1))) in
  (value, pos + 2).

(** [readInt32()] *)
Definition readInt32 (data : bytes) (pos : Z) : Z * Z :=
  let value :=
    js_or (js_or (js_or (js_shl (num (get data pos)) 24)
                        (js_shl (num (get data (pos + 1))) 16))
                 (js_shl (num (get data (pos + 2))) 8))
          (num (get data (pos + 3))) in
  (value, pos + 4).

(** ** parseTrack *)

(** An element of [events]: [{time, type: 'noteOn', note, velocity}] or
    [{time, type: 'noteOff', note}]. *)
Inductive event : Type :=
| noteOn (time : Z) (note velocity : jsval)
| noteOff (time : Z) (note : jsval).

Definition time (e : event) : Z :=
  match e with
  | noteOn t _ _ => t
  | noteOff t _ => t
  end.

(** The variables of the [while] loop of [parseTrack]. *)
Record state : Type := mkState {
  pos : Z;
  currentTime : Z;
  runningStatus : jsval;
  events : list event
}.

(** What the channel-voice branch pushes on [events]. *)
Definition classify (runningStatus : jsval) (currentTime : Z)
    (data1 data2 : jsval) : list event :=
  let status := js_and (num runningStatus) 0xf0 in
  if (status =? 0x90) && gt data2 0
  then [noteOn currentTime data1 data2]
  else if (status =? 0x80) || ((status =? 0x90) && strict_eq data2 0)
       then [noteOff currentTime data1]
       else [].

(** The body of the [while] loop: one delta time and one event. *)
Definition parseEvent (data : bytes) (st : state) : option state :=
  match readVarLength data (pos st) with
  | None => None
  | Some (deltaTime, p) =>
      let currentTime := currentTime st + deltaTime in
      let byte := get data p in
      if strict_eq byte 0xff then
        let p := p + 1 in
        let p := p + 1 in (* metaType = data[pos++] *)
        match readVarLength data p with
        | None => None
        | Some (length, p) =>
            let '(_, p) := readBytes data p length in
            Some (mkState p currentTime (runningStatus st) (events st))
        end
      else if strict_eq byte 0xf0 || strict_eq byte 0xf7 then
        let p := p + 1 in
        match readVarLength data p with
        | None => None
        | Some (length, p) =>
            let '(_, p) := readBytes data p length in
            Some (mkState p currentTime (runningStatus st) (events st))
        end
      else if truthy (js_and (num byte) 0x80) then
        let runningStatus := byte in
        let p := p + 1 in
        let data1 := get data p in
        let p := p + 1 in
        let data2 := get data p in
        let p := p + 1 in
        Some (mkState p currentTime runningStatus
                (events st ++ classify runningStatus currentTime data1 data2))
      else
        let p := p + 1 in (* data1 = data[pos++] *)
        let p := p + 1 in (* data2 = data[pos++] *)
        Some (mkState p currentTime (runningStatus st) (events st))
  end.

(** [while (this.pos < trackEnd) { .. }] *)
Fixpoint parseTrack_loop (fuel : nat) (data : bytes) (trackEnd : Z) (st : state)
  : option state :=
  if pos st <? trackEnd then
    match fuel with
    | O => None
    | S fuel' =>
        match parseEvent data st with
        | None => None
        | Some st' => parseTrack_loop fuel' data trackEnd st'
        end
    end
  else Some st.

(** The object [{ events }] that [parseTrack] returns. *)
Record track : Type := mkTrack { track_events : list event }.

(** [parseTrack(division)]: the track and the new cursor. *)
Definition parseTrack (fuel : nat) (data : bytes) (division : Z) (p : Z)
  : option (track * Z) :=
  let '(trackHeader, p) := readBytes data p 4 in
  let '(trackLength, p) := readInt32 data p in
  let trackEnd := p + trackLength in
  match parseTrack_loop fuel data trackEnd (mkState p 0 (Some 0) []) with
  | None => None
  | Some st => Some (mkTrack (events st), pos st)
  end.

(** ** parse *)

(** The object that [parse] returns. *)
Record Sequence : Type := mkSequence {
  format : Z;
  trackCount : Z;
  division : Z;
  tracks : list track;
  maxTime : jsnum
}.

(** [for (let i = 0; i < trackCount; i++) tracks.push(this.parseTrack(division))],
    with [n] the number of passes left. *)
Fixpoint parseTracks (fuel : nat) (data : bytes) (division : Z) (n : nat)
    (tracks : list track) (p : Z) : option (list track * Z) :=
  match n with
  | O => Some (tracks, p)
  | S n' =>
      match parseTrack fuel data division p with
      | None => None
      | Some (t, p) => parseTracks fuel data division n' (tracks ++ [t]) p
      end
  end.

(** [Math.max(...t.events.map(e => e.time), 0)] *)
Definition track_maxTime (t : track) : jsnum :=
  Math_max (map (fun e => Num (time e)) (track_events t) ++ [Num 0]).

(** [Math.max(...tracks.map(t => Math.max(...t.events.map(e => e.time), 0)))] *)
Definition compute_maxTime (tracks : list track) : jsnum :=
  Math_max (map track_maxTime tracks).

(** [parse()], the fuel being granted to each track's loop: the Sequence
    that the [return] statement builds.  [parse_outcome] adds the
    [RangeError] that the spreads of its last field can raise. *)
Definition parse (fuel : nat) (data : bytes) : option Sequence :=
  let p := 0 in
  let '(header, p) := readBytes data p 4 in
  let '(headerLength, p) := readInt32 data p in
  let '(format, p) := readInt16 data p in
  let '(trackCount, p) := readInt16 data p in
  let '(division, p) := readInt16 data p in
  match parseTracks fuel data division (Z.to_nat trackCount) [] p with
  | None => None
  | Some (tracks, _) =>
      Some (mkSequence format trackCount division tracks (compute_maxTime tracks))
  end.

(** ** Sample buffers *)

(** "MThd", length 6, format 0, one track, division 96. *)
Definition header_one_track : bytes :=
  [x4d; x54; x68; x64; x00; x00; x00; x06; x00; x00; x00; x01; x00; x60].

(** "MTrk" and a 4-byte big-endian length below 256. *)
Definition track_header (len : byte) : bytes :=
  [x4d; x54; x72; x6b; x00; x00; x00; len].

(** The reference scenario: note on 60 at 0, note off 60 at 96, end of
    track. *)
Definition scenario_file : bytes :=
  header_one_track ++ track_header x0c ++
  [x00; x90; x3c; x40;  x60; x80; x3c; x00;  x00; xff; x2f; x00].

(** A running-status chain: note on 60, then the bare bytes 62 64. *)
Definition running_status_file : bytes :=
  header_one_track ++ track_header x07 ++
  [x00; x90; x3c; x40;  x00; x3e; x40].

(** "MThd", length 6, format 0, no track, division 96. *)
Definition header_no_tracks : bytes :=
  [x4d; x54; x68; x64; x00; x00; x00; x06; x00; x00; x00; x00; x00; x60].

(** One track of 8 bytes: delta 0, meta event of type 1 whose payload length
    is the five bytes 8f ff ff ff 78. *)
Definition looping_file : bytes :=
  header_one_track ++ track_header x08 ++
  [x00; xff; x01; x8f; xff; xff; xff; x78].

(** One track that declares 2 bytes and holds a note on of 4 bytes. *)
Definition overrun_file : bytes :=
  header_one_track ++ track_header x02 ++ [x00; x90; x3c; x40].

(** A header chunk that declares 18 bytes: the 6 of the three fields and 12
    more, which here hold a chunk with a note on 60; the track chunk after
    them holds a note on 64. *)
Definition long_header_file : bytes :=
  [x4d; x54; x68; x64; x00; x00; x00; x12; x00; x00; x00; x01; x00; x60] ++
  track_header x04 ++ [x00; x90; x3c; x40] ++
  track_header x04 ++ [x00; x90; x40; x40].

(** The scenario with "RIFF" and "data" for "MThd" and "MTrk". *)
Definition wrong_tags_file : bytes :=
  [x52; x49; x46; x46; x00; x00; x00; x06; x00; x00; x00; x01; x00; x60] ++
  [x64; x61; x74; x61; x00; x00; x00; x0c] ++
  [x00; x90; x3c; x40;  x60; x80; x3c; x00;  x00; xff; x2f; x00].

(** The five-byte quantity 88 80 80 80 00, which stands for 2^31. *)
Definition varlen_2_31 : bytes := [x88; x80; x80; x80; x00].

(** A buffer on which the format's delta times all take one byte, and the
    decoder's do not.  The track holds a note on 60, a program change (a
    status byte and one data byte), a sequencer-specific meta event with a
    payload of 9 bytes, and the end of track; each delta time is the byte
    00. *)
Definition program_change_file : bytes :=
  header_one_track ++ track_header x18 ++
  [x00; x90; x3c; x40] ++
  [x00; xc0; x05] ++
  [x00; xff; x7f; x09;  x00; x88; x80; x80; x80; x00; x80; x3c; x00] ++
  [x00; xff; x2f; x00].

(** One track of 18 bytes: a text event after a delta time of five bytes
    that is decoded to -2^31, its payload the six bytes of two notes in
    UTF-8, which all have the high bit set; then the end of track. *)
Definition wrapped_delta_file : bytes :=
  header_one_track ++ track_header x12 ++
  [x88; x80; x80; x80; x00;  xff; x01; x06;  xe2; x99; xaa; xe2; x99; xab] ++
  [x00; xff; x2f; x00].

(** ** Vocabulary of the properties *)

(** The format's variable-length quantity, in the words of its description:
    a byte sequence whose bytes all have the high bit set except the last,
    read as base-128 digits, most significant first. *)
Fixpoint valid_varlen (enc : bytes) : bool :=
  match enc with
  | [] => false
  | b :: rest =>
      match rest with
      | [] => byteZ b <? 128
      | _ :: _ => (128 <=? byteZ b) && valid_varlen rest
      end
  end.

(** One more base-128 digit: the seven low bits of [b]. *)
Definition varlen_digit (v : Z) (b : byte) : Z := v * 128 + byteZ b mod 128.

(** The integer that an encoding stands for. *)
Definition varlen_value (enc : bytes) : Z := fold_left varlen_digit enc 0.

(** The quantity that [readVarLength] decodes at offset [p] is not negative
    (the 32-bit shift of [readVarLength] can wrap from the fifth byte on). *)
Definition varlen_nonneg_at (data : bytes) (p : Z) : bool :=
  match readVarLength data p with
  | Some (v, _) => 0 <=? v
  | None => false
  end.

(** [varlens_nonneg from data]: no variable-length quantity that starts at
    offset [from] or later is decoded to a negative number. *)
Definition varlens_nonneg (from : Z) (data : bytes) : bool :=
  forallb (fun i => (Z.of_nat i <? from) || varlen_nonneg_at data (Z.of_nat i))
          (seq 0 (length data)).

(** Two buffers of one length that hold the same bytes from offset [k] on. *)
Definition agree_from (k : Z) (d d' : bytes) : Prop :=
  length d = length d' /\ forall i, k <= i -> get d i = get d' i.

(** The events of a track carry non-decreasing times, in the order of
    [events]. *)
Definition track_sorted (t : track) : Prop :=
  Sorted Z.le (map time (track_events t)).

(** All the times of a list of tracks, track after track. *)
Definition all_times (tracks : list track) : list Z :=
  flat_map (fun t => map time (track_events t)) tracks.


(** ** The key mapping and the note extraction *)

(** A JavaScript number that is an integer, or [NaN] ([None]): what the
    arithmetic of [midiNoteToKey] and [getMidiNoteName] yields on a note
    that may be [undefined] and on an offset that [parseInt] may not have
    been able to read. *)
Definition jsnumber := option Z.

(** [xs[i]] on an array literal: [undefined] unless [i] is an index. *)
Definition array_at {A : Type} (xs : list A) (i : jsnumber) : option A :=
  match i with
  | Some k => if k <? 0 then None else nth_error xs (Z.to_nat k)
  | None => None
  end.

(** [NOTE_NAMES] *)
Definition NOTE_NAMES : list String.string :=
  ["C"; "C#"; "D"; "D#"; "E"; "F"; "F#"; "G"; "G#"; "A"; "A#"; "B"]%string.

(** [ROBLOX_KEYS], the object literal as its list of properties. *)
Definition ROBLOX_KEYS : list (String.string * String.string) :=
  [("C", "1"); ("C#", "Q"); ("D", "2"); ("D#", "W"); ("E", "3"); ("F", "4");
   ("F#", "R"); ("G", "5"); ("G#", "T"); ("A", "6"); ("A#", "Y"); ("B", "7")]%string.

(** What [midiNoteToKey] returns: [null], [undefined] or a string. *)
Inductive keyval : Type :=
| key_null
| key_undefined
| key_string (s : String.string).

(** [obj[name]] on an object literal; the name [undefined] is the property
    "undefined", which neither object of the source has. *)
Fixpoint property (name : String.string) (obj : list (String.string * String.string))
  : keyval :=
  match obj with
  | [] => key_undefined
  | (k, v) :: rest => if String.eqb k name then key_string v else property name rest
  end.

Definition object_at (obj : list (String.string * String.string))
    (name : option String.string) : keyval :=
  match name with
  | Some s => property s obj
  | None => key_undefined
  end.

(** [Math.floor(note / 12)] and [note % 12] on a value that may be
    [undefined]. *)
Definition floor_div12 (note : jsval) : jsnumber := option_map (fun n => n / 12) note.
Definition rem12 (note : jsval) : jsnumber := option_map (fun n => Z.rem n 12) note.

(** [a + b] on numbers one of which may be [NaN]. *)
Definition js_add (a b : jsnumber) : jsnumber :=
  match a, b with
  | Some x, Some y => Some (x + y)
  | _, _ => None
  end.

(** [a < k] and [a > k]: both [false] on [NaN]. *)
Definition js_lt (a : jsnumber) (k : Z) : bool :=
  match a with Some x => x <? k | None => false end.
Definition js_gt (a : jsnumber) (k : Z) : bool :=
  match a with Some x => k <? x | None => false end.

(** [midiNoteToKey(note, octaveOffset)], the offset being a number. *)
Definition midiNoteToKey (note : jsval) (octaveOffset : jsnumber) : keyval :=
  let octave := js_add (js_add (floor_div12 note) (Some (-1))) octaveOffset in
  let noteName := array_at NOTE_NAMES (rem12 note) in
  if js_lt octave 4 || js_gt octave 8 then key_null
  else object_at ROBLOX_KEYS noteName.

(** The string of an integer or [NaN], as [+] on a string converts it. *)
Definition number_string (a : jsnumber) : String.string :=
  match a with
  | Some x => DecimalString.NilZero.string_of_int (Z.to_int x)
  | None => "NaN"%string
  end.

(** What [noteName + octave] is: a string when [noteName] is one, and the
    number [NaN] when it is [undefined], since [undefined] plus a number is
    an addition of numbers. *)
Inductive note_name : Type :=
| Name (s : String.string)
| NotANumber.

(** [getMidiNoteName(note)] *)
Definition getMidiNoteName (note : jsval) : note_name :=
  let octave := js_add (floor_div12 note) (Some (-1)) in
  let noteName := array_at NOTE_NAMES (rem12 note) in
  match noteName with
  | Some s => Name (String.append s (number_string octave))
  | None => NotANumber
  end.

(** An element of [notes]: [{key, time, duration, note, midi}]. *)
Record note_entry : Type := mkNote {
  n_key : String.string;
  n_time : Z;
  n_duration : Z;
  n_note : note_name;
  n_midi : jsval
}.

(** [noteOnTimes], an object used as a map from notes to times: the
    property of a note, or [None] when it has none. *)
Definition note_map := jsval -> option Z.

Definition jsval_eqb (a b : jsval) : bool :=
  match a, b with
  | Some x, Some y => x =? y
  | None, None => true
  | _, _ => false
  end.

(** [noteOnTimes[note] = t] and [delete noteOnTimes[note]] *)
Definition map_set (m : note_map) (note : jsval) (t : Z) : note_map :=
  fun k => if jsval_eqb k note then Some t else m k.
Definition map_delete (m : note_map) (note : jsval) : note_map :=
  fun k => if jsval_eqb k note then None else m k.
Definition map_empty : note_map := fun _ => None.

(** [if (key)]: a string other than the empty one. *)
Definition truthy_key (key : keyval) : option String.string :=
  match key with
  | key_string s => if String.eqb s "" then None else Some s
  | _ => None
  end.

(** The body of the inner [forEach] of [extractNotes].  [scale] stands for
    [t => Math.round(t * tempoMultiplier)], which maps integers to integers
    for every [tempoMultiplier] whose products with the times are finite. *)
Definition extract_event (octaveOffset : jsnumber) (scale : Z -> Z)
    (acc : list note_entry * note_map) (e : event) : list note_entry * note_map :=
  let '(notes, noteOnTimes) := acc in
  match e with
  | noteOn t note _ =>
      match truthy_key (midiNoteToKey note octaveOffset) with
      | Some _ => (notes, map_set noteOnTimes note t)
      | None => acc
      end
  | noteOff t note =>
      match truthy_key (midiNoteToKey note octaveOffset), noteOnTimes note with
      | Some key, Some startTime =>
          let duration := t - startTime in
          (notes ++ [mkNote key (scale startTime) (scale duration)
                       (getMidiNoteName note) note],
           map_delete noteOnTimes note)
      | _, _ => acc
      end
  end.

(** One step of [notes.sort((a, b) => a.time - b.time)]: [x] goes behind
    the entries that are not later than it, so that entries of equal time
    keep their order, as the sort of an array has to. *)
Fixpoint insert_by_time (x : note_entry) (l : list note_entry) : list note_entry :=
  match l with
  | [] => [x]
  | y :: rest =>
      if n_time x <? n_time y then x :: l else y :: insert_by_time x rest
  end.

(** [notes.sort((a, b) => a.time - b.time)] *)
Definition sort_by_time (notes : list note_entry) : list note_entry :=
  fold_left (fun sorted x => insert_by_time x sorted) notes [].

(** The two nested [forEach] of [extractNotes]: the notes pushed and the
    note-ons still pending. *)
Definition extract_all (octaveOffset : jsnumber) (scale : Z -> Z)
    (tracks : list track) : list note_entry * note_map :=
  fold_left
    (fun acc t => fold_left (extract_event octaveOffset scale) (track_events t) acc)
    tracks ([], map_empty).

(** [extractNotes(midiData, octaveOffset, tempoMultiplier)] *)
Definition extractNotes (midiData : Sequence) (octaveOffset : jsnumber)
    (scale : Z -> Z) : list note_entry :=
  sort_by_time (fst (extract_all octaveOffset scale (tracks midiData))).

(** ** Vocabulary of the further properties *)

(** The byte at offset [i], 0 when there is none. *)
Definition byte_or_zero (data : bytes) (i : Z) : Z :=
  match get data i with
  | Some b => b
  | None => 0
  end.

(** The byte at offset [i] exists and has its high bit set: it announces
    one more byte of a variable-length quantity. *)
Definition continues (data : bytes) (i : Z) : bool :=
  match get data i with
  | Some b => 128 <=? b
  | None => false
  end.

(** A value that is a byte of the buffer. *)
Definition is_byte (v : jsval) : Prop := exists b, v = Some b /\ 0 <= b < 256.

(** What can be said of an event that [parseTrack] pushes: a note on holds
    a note and a velocity that are bytes, the velocity not 0; a note off
    holds a note that is a byte or, at the end of the buffer, [undefined]. *)
Definition event_wf (e : event) : Prop :=
  match e with
  | noteOn _ note velocity =>
      is_byte note /\ exists v, velocity = Some v /\ 0 < v < 256
  | noteOff _ note => note = None \/ is_byte note
  end.

(** The key of each of the twelve pitch classes, from C to B: what
    [ROBLOX_KEYS] holds for the names of [NOTE_NAMES], in their order. *)
Definition CLASS_KEYS : list String.string :=
  ["1"; "Q"; "2"; "W"; "3"; "4"; "R"; "5"; "T"; "6"; "Y"; "7"]%string.

(** The key and the name of the pitch class [c]. *)
Definition class_key (c : Z) : String.string := nth (Z.to_nat c) CLASS_KEYS ""%string.
Definition class_name (c : Z) : String.string := nth (Z.to_nat c) NOTE_NAMES ""%string.

(** A string whose first character is not the sharp sign. *)
Definition plain_head (s : String.string) : Prop :=
  exists c r, s = String.String c r /\ c <> Ascii.ascii_of_nat 35.

(** All the events of a list of tracks, track after track. *)
Definition all_events (tracks : list track) : list event :=
  flat_map track_events tracks.

(** The same Sequence with all its events in one track. *)
Definition merge_tracks (s : Sequence) : Sequence :=
  mkSequence (format s) (trackCount s) (division s)
    [mkTrack (all_events (tracks s))] (maxTime s).

Definition is_noteOn (e : event) : bool :=
  match e with noteOn _ _ _ => true | noteOff _ _ => false end.
Definition is_noteOff (e : event) : bool :=
  match e with noteOn _ _ _ => false | noteOff _ _ => true end.

(** Entries in the order of their times. *)
Definition time_le (a b : note_entry) : Prop := n_time a <= n_time b.

(** The entries of a list whose time is [t], in the order of the list. *)
Definition at_time (t : Z) (l : list note_entry) : list note_entry :=
  filter (fun r => n_time r =? t) l.

(** A note played alone: its note on at [t_on], then its note off at
    [t_off]. *)
Record stroke : Type := mkStroke {
  s_note : Z;
  s_on : Z;
  s_velocity : jsval;
  s_off : Z
}.

Definition stroke_events (s : stroke) : list event :=
  [noteOn (s_on s) (Some (s_note s)) (s_velocity s);
   noteOff (s_off s) (Some (s_note s))].

(** The entry that a stroke is to give, none when its note has no key. *)
Definition stroke_entry (octaveOffset : jsnumber) (scale : Z -> Z) (s : stroke)
  : list note_entry :=
  match truthy_key (midiNoteToKey (Some (s_note s)) octaveOffset) with
  | Some key =>
      [mkNote key (scale (s_on s)) (scale (s_off s - s_on s))
         (getMidiNoteName (Some (s_note s))) (Some (s_note s))]
  | None => []
  end.

(** The note of an event. *)
Definition event_note (e : event) : jsval :=
  match e with
  | noteOn _ note _ => note
  | noteOff _ note => note
  end.

(** An event of another note than [k]. *)
Definition other_note (k : jsval) (e : event) : Prop := event_note e <> k.

(** [paired evs r]: the entry [r] is made of a note on and of a note off of
    its note in the stream [evs], the note on before the note off and no
    event of that note between them; its time and duration are those of
    the two events, scaled, and its key and name are those of its note. *)
Definition paired (octaveOffset : jsnumber) (scale : Z -> Z) (evs : list event)
    (r : note_entry) : Prop :=
  exists l1 t v l2 t' l3,
    evs = l1 ++ noteOn t (n_midi r) v :: l2 ++ noteOff t' (n_midi r) :: l3 /\
    Forall (other_note (n_midi r)) l2 /\
    n_time r = scale t /\
    n_duration r = scale (t' - t) /\
    midiNoteToKey (n_midi r) octaveOffset = key_string (n_key r) /\
    n_key r <> ""%string /\
    n_note r = getMidiNoteName (n_midi r).

(** [pending evs k t]: in the stream [evs] the last event of the note [k],
    which has a key, is a note on at [t]. *)
Definition pending (octaveOffset : jsnumber) (evs : list event) (k : jsval) (t : Z)
  : Prop :=
  truthy_key (midiNoteToKey k octaveOffset) <> None /\
  exists l1 v l2,
    evs = l1 ++ noteOn t k v :: l2 /\ Forall (other_note k) l2.

(** The invariant of the two loops of [extractNotes], [evs] being the
    events read so far. *)
Definition extract_inv (octaveOffset : jsnumber) (scale : Z -> Z)
    (evs : list event) (acc : list note_entry * note_map) : Prop :=
  Forall (paired octaveOffset scale evs) (fst acc) /\
  forall k t, snd acc k = Some t -> pending octaveOffset evs k t.

(** [L] lists, once each, the notes that may have a note on pending. *)
Definition covers (L : list jsval) (m : note_map) : Prop :=
  NoDup L /\ forall k, m k <> None -> In k L.

(** ** The spread of line 41 *)

(** What a call of [parse] comes to: the object it returns, or the
    [RangeError] of an engine that is handed more arguments than it accepts
    in one call.  [Math.max(...xs)] passes one argument per element of [xs];
    the language fixes no bound on their number, every engine has one. *)
Inductive outcome : Type :=
| Returned (s : Sequence)
| RangeError.

(** A call with [arguments] arguments goes through on an engine that accepts
    [max_arguments] of them. *)
Definition spread_fits (max_arguments : Z) (arguments : nat) : bool :=
  Z.of_nat arguments <=? max_arguments.

(** The spreads of line 41 go through: the inner call gets the times of one
    track and the guard [0], the outer one a number per track. *)
Definition maxTime_fits (max_arguments : Z) (tracks : list track) : bool :=
  forallb (fun t => spread_fits max_arguments (S (length (track_events t)))) tracks
  && spread_fits max_arguments (length tracks).

(** [parse()] on an engine that accepts [max_arguments] arguments: the
    [return] statement evaluates [maxTime] last, and throws there when a
    spread does not go through.  [parse] is the Sequence of the case where
    they do. *)
Definition parse_outcome (max_arguments : Z) (fuel : nat) (data : bytes)
  : option outcome :=
  match parse fuel data with
  | None => None
  | Some s =>
      if maxTime_fits max_arguments (tracks s)
      then Some (Returned s)
      else Some RangeError
  end.

(** ** Payload lengths *)

(** The payload length that the pass of the loop from [st] reads, when the
    event it finds is a meta or a system-exclusive event. *)
Definition payload_length (data : bytes) (st : state) : option Z :=
  match readVarLength data (pos st) with
  | None => None
  | Some (_, p) =>
      let byte := get data p in
      if strict_eq byte 0xff then
        option_map fst (readVarLength data (p + 1 + 1))
      else if strict_eq byte 0xf0 || strict_eq byte 0xf7 then
        option_map fst (readVarLength data (p + 1))
      else None
  end.

(** The pass from [st] reads no payload length that is negative. *)
Definition length_nonneg (data : bytes) (st : state) : bool :=
  match payload_length data st with
  | Some length => 0 <=? length
  | None => true
  end.

(** [loop_lengths_nonneg] follows the loop of [parseTrack] and checks the
    payload length that each pass reads. *)
Fixpoint loop_lengths_nonneg (fuel : nat) (data : bytes) (trackEnd : Z)
    (st : state) : bool :=
  if pos st <? trackEnd then
    match fuel with
    | O => true
    | S fuel' =>
        length_nonneg data st &&
        match parseEvent data st with
        | None => true
        | Some st' => loop_lengths_nonneg fuel' data trackEnd st'
        end
    end
  else true.

(** The payload lengths of the track chunk at offset [p]. *)
Definition track_lengths_nonneg (fuel : nat) (data : bytes) (p : Z) : bool :=
  let '(trackLength, p1) := readInt32 data (p + 4) in
  loop_lengths_nonneg fuel data (p1 + trackLength) (mkState p1 0 (Some 0) []).

(** The payload lengths of [n] track chunks in a row, the first at offset
    [p]. *)
Fixpoint tracks_lengths_nonneg (fuel : nat) (data : bytes) (division : Z)
    (n : nat) (p : Z) : bool :=
  match n with
  | O => true
  | S n' =>
      track_lengths_nonneg fuel data p &&
      match parseTrack fuel data division p with
      | None => true
      | Some (_, p') => tracks_lengths_nonneg fuel data division n' p'
      end
  end.

(** No payload length that [parse] reads in the buffer, in the first [fuel]
    passes of each track, is negative. *)
Definition file_lengths_nonneg (fuel : nat) (data : bytes) : bool :=
  tracks_lengths_nonneg fuel data (fst (readInt16 data 12))
    (Z.to_nat (fst (readInt16 data 10))) 14.

(** ** The events of a track, as bytes *)

(** The events that the loop of [parseTrack] frames as the format does: a
    channel message of a kind that has two data bytes, with its status byte
    or in running status; a meta event; a system-exclusive event.  The
    messages of one data byte (program change, channel pressure) are not
    among them. *)
Inductive event_body : Type :=
| Voice (status data1 data2 : byte)
| Running (data1 data2 : byte)
| Meta (type : byte) (len payload : bytes)
| SysEx (head : byte) (len payload : bytes).

(** An event of a track: the encoding of its delta time, and the event. *)
Record track_event : Type := mkTrackEvent {
  te_delta : bytes;
  te_body : event_body
}.

Definition body_bytes (b : event_body) : bytes :=
  match b with
  | Voice status data1 data2 => [status; data1; data2]
  | Running data1 data2 => [data1; data2]
  | Meta type len payload => [xff; type] ++ len ++ payload
  | SysEx head len payload => [head] ++ len ++ payload
  end.

Definition event_bytes (e : track_event) : bytes :=
  te_delta e ++ body_bytes (te_body e).

(** The event data of a track chunk. *)
Definition track_bytes (evs : list track_event) : bytes :=
  flat_map event_bytes evs.

(** The status bytes of the channel messages that have two data bytes: note
    off, note on, key pressure, control change and pitch bend. *)
Definition two_data_status (status : byte) : bool :=
  let kind := Z.land (byteZ status) 0xf0 in
  (kind =? 0x80) || (kind =? 0x90) || (kind =? 0xa0) || (kind =? 0xb0)
  || (kind =? 0xe0).

(** [len] is a valid encoding of the number of bytes of [payload]. *)
Definition length_of (len payload : bytes) : bool :=
  valid_varlen len && (varlen_value len =? Z.of_nat (length payload))
  && (varlen_value len <? 2 ^ 31).

Definition body_ok (b : event_body) : bool :=
  match b with
  | Voice status _ _ => two_data_status status
  | Running data1 _ => byteZ data1 <? 128
  | Meta _ len payload => length_of len payload
  | SysEx head len payload =>
      ((byteZ head =? 0xf0) || (byteZ head =? 0xf7)) && length_of len payload
  end.

(** A delta time is a valid encoding of a number below 2^31; those that the
    format allows take at most four bytes and stand for a number below
    2^28. *)
Definition event_ok (e : track_event) : bool :=
  valid_varlen (te_delta e) && (varlen_value (te_delta e) <? 2 ^ 31)
  && body_ok (te_body e).

(** The note on or note off of a channel message read at time [t]: a note
    on for the kind 0x90 with a velocity above 0, a note off for the kind
    0x80 and for the kind 0x90 with the velocity 0, nothing for the other
    kinds. *)
Definition voice_events (t : Z) (status data1 data2 : byte) : list event :=
  let kind := Z.land (byteZ status) 0xf0 in
  if (kind =? 0x90) && (0 <? byteZ data2)
  then [noteOn t (Some (byteZ data1)) (Some (byteZ data2))]
  else if (kind =? 0x80) || ((kind =? 0x90) && (byteZ data2 =? 0))
       then [noteOff t (Some (byteZ data1))]
       else [].

(** [pushed t b l]: [l] can be what the event [b], read at time [t], adds to
    [events].  A channel message with its status byte adds its note event, a
    meta or system-exclusive event adds nothing; of an event in running
    status the relation says only that what it adds carries the time [t]. *)
Inductive pushed (t : Z) : event_body -> list event -> Prop :=
| pushed_voice status data1 data2 :
    pushed t (Voice status data1 data2) (voice_events t status data1 data2)
| pushed_running data1 data2 l :
    Forall (fun e => time e = t) l -> pushed t (Running data1 data2) l
| pushed_meta type len payload : pushed t (Meta type len payload) []
| pushed_sysex head len payload : pushed t (SysEx head len payload) [].

(** [track_pushed t evs l]: from the time [t] on, each event of [evs] is read
    at the time of the event before it plus its own delta time, and [l] is
    what they add to [events], in their order. *)
Inductive track_pushed : Z -> list track_event -> list event -> Prop :=
| track_pushed_nil t : track_pushed t [] []
| track_pushed_cons t e rest l ls :
    pushed (t + varlen_value (te_delta e)) (te_body e) l ->
    track_pushed (t + varlen_value (te_delta e)) rest ls ->
    track_pushed t (e :: rest) (l ++ ls).

(** ** Facts on the 32-bit operators *)

Section JsArith.

Lemma ToInt32_small (x : Z) : - 2 ^ 31 <= x < 2 ^ 31 -> ToInt32 x = x.
Proof.
  intros H. unfold ToInt32. rewrite Z.mod_small; lia.
Qed.

Lemma ToInt32_range (x : Z) : - 2 ^ 31 <= ToInt32 x < 2 ^ 31.
Proof.
  unfold ToInt32.
  pose proof (Z.mod_pos_bound (x + 2 ^ 31) (2 ^ 32) ltac:(lia)). lia.
Qed.

Lemma byteZ_range (b : byte) : 0 <= byteZ b < 256.
Proof.
  unfold byteZ. pose proof (Byte.to_N_bounded b). lia.
Qed.

(** On a byte, [b & 0x7f] is the remainder modulo 128 and [b & 0x80] is
    truthy exactly from 128 on. *)
Lemma low7_byte (b : byte) : js_and (num (Some (byteZ b))) 0x7f = byteZ b mod 128.
Proof. destruct b; reflexivity. Qed.

Lemma high_bit_byte (b : byte) :
  truthy (js_and (num (Some (byteZ b))) 0x80) = (128 <=? byteZ b).
Proof. destruct b; reflexivity. Qed.

Lemma lor_shifted (r x : Z) :
  0 <= r -> 0 <= x < 128 -> Z.lor (r * 128) x = r * 128 + x.
Proof.
  intros Hr Hx.
  assert (Hland : Z.land (r * 128) x = 0).
  { apply Z.bits_inj'. intros n Hn.
    rewrite Z.land_spec, Z.bits_0.
    destruct (Z.ltb_spec n 7) as [Hlt | Hge].
    - change 128 with (2 ^ 7). rewrite Z.mul_pow2_bits_low by lia. reflexivity.
    - destruct (Z.eqb_spec x 0) as [-> | Hx0].
      + rewrite Z.bits_0. apply andb_false_r.
      + rewrite (Z.bits_above_log2 x n); [ apply andb_false_r | lia | ].
        apply Z.log2_lt_pow2; [ lia | ].
        apply Z.lt_le_trans with (2 ^ 7); [ lia | ].
        apply Z.pow_le_mono_r; lia. }
  rewrite <- Z.lxor_lor by exact Hland.
  symmetry. apply Z.add_nocarry_lxor. exact Hland.
Qed.

(** While the accumulator is below 2^24 the shift does not wrap, and the
    pass computes [result * 128 + x]. *)
Lemma shl_or_small (r x : Z) :
  0 <= r < 2 ^ 24 -> 0 <= x < 128 -> js_or (js_shl r 7) x = r * 128 + x.
Proof.
  intros Hr Hx. unfold js_or, js_shl.
  change (Z.land 7 31) with 7.
  rewrite (ToInt32_small r) by lia.
  rewrite Z.shiftl_mul_pow2 by lia. change (2 ^ 7) with 128.
  rewrite !(ToInt32_small (r * 128)) by lia.
  rewrite (ToInt32_small x) by lia.
  rewrite lor_shifted by lia.
  apply ToInt32_small. lia.
Qed.

End JsArith.

(** ** Facts on [get] *)

Section Get.

Variable data : bytes.

Lemma get_cases (i : Z) :
  get data i = None \/
  exists b, get data i = Some (byteZ b) /\ 0 <= i < Z.of_nat (length data).
Proof.
  unfold get. destruct (Z.ltb_spec i 0) as [Hneg | Hpos]; [ now left | ].
  destruct (nth_error data (Z.to_nat i)) as [b | ] eqn:E; [ right | now left ].
  exists b. split; [ reflexivity | ].
  assert (Hlt : (Z.to_nat i < length data)%nat)
    by (apply nth_error_Some; congruence).
  lia.
Qed.

Lemma get_outside (i : Z) :
  i < 0 \/ Z.of_nat (length data) <= i -> get data i = None.
Proof.
  intros H. unfold get. destruct (Z.ltb_spec i 0) as [Hneg | Hpos]; [ reflexivity | ].
  assert (E : nth_error data (Z.to_nat i) = None) by (apply nth_error_None; lia).
  rewrite E. reflexivity.
Qed.

Lemma get_inside (i : Z) :
  0 <= i < Z.of_nat (length data) -> exists b, get data i = Some (byteZ b).
Proof.
  intros H. destruct (get_cases i) as [E | [b [E _]]]; [ | now exists b ].
  exfalso. unfold get in E.
  destruct (Z.ltb_spec i 0) as [Hneg | Hpos]; [ lia | ].
  destruct (nth_error data (Z.to_nat i)) eqn:E'; [ discriminate | ].
  apply nth_error_None in E'. lia.
Qed.

(** The seven low bits of whatever is read. *)
Lemma low7_range (i : Z) : 0 <= js_and (num (get data i)) 0x7f < 128.
Proof.
  destruct (get_cases i) as [-> | [b [-> _]]].
  - cbv. split; congruence.
  - rewrite low7_byte. apply Z.mod_pos_bound. lia.
Qed.

(** The loop of [readVarLength] goes on only after a byte of the buffer. *)
Lemma high_bit_inside (i : Z) :
  truthy (js_and (num (get data i)) 0x80) = true ->
  0 <= i < Z.of_nat (length data).
Proof.
  destruct (get_cases i) as [-> | [b [-> Hi]]]; [ discriminate | auto ].
Qed.

End Get.

Lemma get_app_l (l1 l2 : bytes) (i : Z) :
  i < Z.of_nat (length l1) -> get (l1 ++ l2) i = get l1 i.
Proof.
  intros H. unfold get. destruct (Z.ltb_spec i 0); [ reflexivity | ].
  rewrite nth_error_app1 by lia. reflexivity.
Qed.

Lemma get_app_r (l1 l2 : bytes) (i : Z) :
  0 <= i -> get (l1 ++ l2) (Z.of_nat (length l1) + i) = get l2 i.
Proof.
  intros H. unfold get.
  destruct (Z.ltb_spec (Z.of_nat (length l1) + i) 0); [ lia | ].
  destruct (Z.ltb_spec i 0); [ lia | ].
  rewrite nth_error_app2 by lia.
  replace (Z.to_nat (Z.of_nat (length l1) + i) - length l1)%nat with (Z.to_nat i) by lia.
  reflexivity.
Qed.

Lemma get_middle (pre : bytes) (b : byte) (tl : bytes) :
  get (pre ++ b :: tl) (Z.of_nat (length pre)) = Some (byteZ b).
Proof.
  replace (Z.of_nat (length pre)) with (Z.of_nat (length pre) + 0) by lia.
  rewrite get_app_r by lia. reflexivity.
Qed.

(** ** readVarLength *)

Section ReadVarLength.

Variable data : bytes.

Lemma readVarLength_loop_total (fuel : nat) :
  forall result pos,
    (1 <= fuel)%nat ->
    (0 <= pos -> Z.of_nat (length data) - pos < Z.of_nat fuel) ->
    exists r, readVarLength_loop fuel data result pos = Some r.
Proof.
  induction fuel as [ | fuel IH]; intros result pos Hfuel Hlen; [ lia | ].
  simpl.
  destruct (truthy (js_and (num (get data pos)) 128)) eqn:Hhi; [ | eauto ].
  apply high_bit_inside in Hhi.
  apply IH; lia.
Qed.

(** [readVarLength] returns on every buffer and at every cursor. *)
Lemma readVarLength_total (pos : Z) : exists r, readVarLength data pos = Some r.
Proof.
  unfold readVarLength. apply readVarLength_loop_total; lia.
Qed.

Lemma readVarLength_loop_advances (fuel : nat) :
  forall result pos v p,
    readVarLength_loop fuel data result pos = Some (v, p) -> pos < p.
Proof.
  induction fuel as [ | fuel IH]; intros result pos v p H; [ discriminate | ].
  simpl in H.
  destruct (truthy (js_and (num (get data pos)) 128)).
  - apply IH in H. lia.
  - inversion H. lia.
Qed.

(** Every call moves the cursor by at least one byte. *)
Lemma readVarLength_advances (pos v p : Z) :
  readVarLength data pos = Some (v, p) -> pos < p.
Proof. apply readVarLength_loop_advances. Qed.

(** An accumulator below [B] that takes [p - pos] more bytes stays below
    [B * 128 ^ (p - pos)], as long as that bound is within 31 bits. *)
Lemma readVarLength_loop_bound (fuel : nat) :
  forall result pos v p B,
    readVarLength_loop fuel data result pos = Some (v, p) ->
    0 <= result < B ->
    B * 128 ^ (p - pos) <= 2 ^ 31 ->
    0 <= v < B * 128 ^ (p - pos).
Proof.
  induction fuel as [ | fuel IH]; intros result pos v p B H Hres HB; [ discriminate | ].
  pose proof (readVarLength_loop_advances _ _ _ _ _ H) as Hadv.
  simpl in H.
  assert (Hpow : 128 ^ (p - pos) = 128 * 128 ^ (p - (pos + 1))).
  { replace (p - pos) with (Z.succ (p - (pos + 1))) by lia.
    apply Z.pow_succ_r. lia. }
  assert (Hpos : 0 < 128 ^ (p - (pos + 1))) by (apply Z.pow_pos_nonneg; lia).
  assert (HB24 : B <= 2 ^ 24) by (rewrite Hpow in HB; nia).
  pose proof (low7_range data pos) as Hlow.
  assert (Hstep : varlen_step result (get data pos)
                  = result * 128 + js_and (num (get data pos)) 0x7f)
    by (apply shl_or_small; lia).
  destruct (truthy (js_and (num (get data pos)) 128)).
  - rewrite Hpow, Z.mul_assoc.
    apply (IH _ _ _ _ (B * 128) H); [ rewrite Hstep; lia | ].
    rewrite <- Z.mul_assoc, <- Hpow. exact HB.
  - inversion H; subst.
    replace (pos + 1 - pos) with 1 by lia.
    rewrite Hstep. change (128 ^ 1) with 128. lia.
Qed.

(** A quantity of at most four bytes, which is all the format allows, is
    decoded to a number between 0 and 2^28 - 1. *)
Lemma readVarLength_short (pos v p : Z) :
  readVarLength data pos = Some (v, p) -> p - pos <= 4 -> 0 <= v < 2 ^ 28.
Proof.
  intros H Hw.
  pose proof (readVarLength_advances _ _ _ H) as Hadv.
  assert (Hle : 128 ^ (p - pos) <= 128 ^ 4) by (apply Z.pow_le_mono_r; lia).
  pose proof (readVarLength_loop_bound _ _ _ _ _ 1 H ltac:(lia) ltac:(lia)).
  change (128 ^ 4) with (2 ^ 28) in Hle. lia.
Qed.

End ReadVarLength.

Lemma varlen_fold_ge (enc : bytes) :
  forall r, 0 <= r -> r <= fold_left varlen_digit enc r.
Proof.
  induction enc as [ | b rest IH]; intros r Hr; simpl; [ lia | ].
  pose proof (Z.mod_pos_bound (byteZ b) 128 ltac:(lia)).
  etransitivity; [ | apply IH ]; unfold varlen_digit; lia.
Qed.

Lemma readVarLength_loop_decodes (enc : bytes) :
  forall pre post fuel r,
    valid_varlen enc = true ->
    0 <= r ->
    fold_left varlen_digit enc r < 2 ^ 31 ->
    (length enc <= fuel)%nat ->
    readVarLength_loop fuel (pre ++ enc ++ post) r (Z.of_nat (length pre))
    = Some (fold_left varlen_digit enc r,
            Z.of_nat (length pre) + Z.of_nat (length enc)).
Proof.
  induction enc as [ | b rest IH]; intros pre post fuel r Hvalid Hr Hlt Hfuel;
    [ discriminate | ].
  destruct fuel as [ | fuel]; [ simpl in Hfuel; lia | ].
  cbn [readVarLength_loop]. cbv zeta.
  simpl app. rewrite get_middle, high_bit_byte.
  unfold varlen_step. rewrite low7_byte.
  cbn [fold_left] in Hlt |- *.
  pose proof (Z.mod_pos_bound (byteZ b) 128 ltac:(lia)) as Hmod.
  assert (Hr24 : r < 2 ^ 24).
  { pose proof (varlen_fold_ge rest (varlen_digit r b)
                  ltac:(unfold varlen_digit; lia)).
    unfold varlen_digit in *. lia. }
  rewrite shl_or_small by lia. fold (varlen_digit r b).
  destruct rest as [ | b' rest'].
  - cbn [valid_varlen] in Hvalid.
    replace (128 <=? byteZ b) with false by lia.
    cbn [fold_left length]. do 2 f_equal.
  - cbn [valid_varlen] in Hvalid. apply andb_prop in Hvalid as [Hb Hrest].
    rewrite Hb.
    specialize (IH (pre ++ [b]) post fuel (varlen_digit r b) Hrest).
    rewrite <- app_assoc in IH. simpl app in IH.
    rewrite length_app in IH. cbn [length] in IH.
    replace (Z.of_nat (length pre) + 1) with (Z.of_nat (length pre + 1)) by lia.
    simpl app.
    rewrite IH; [ | unfold varlen_digit; lia | exact Hlt | simpl in Hfuel |- *; lia ].
    do 2 f_equal. cbn [length]. lia.
Qed.

(** ** The event loop: forward progress *)

Lemma readVarLength_outside (data : bytes) (p : Z) :
  p < 0 \/ Z.of_nat (length data) <= p -> readVarLength data p = Some (0, p + 1).
Proof.
  intros H. unfold readVarLength. cbn [readVarLength_loop]. cbv zeta.
  rewrite get_outside by exact H. reflexivity.
Qed.

Lemma varlens_nonneg_spec (from : Z) (data : bytes) :
  varlens_nonneg from data = true ->
  forall p v p', from <= p -> readVarLength data p = Some (v, p') -> 0 <= v.
Proof.
  intros Hall p v p' Hfrom Hread.
  destruct (Z.ltb_spec p 0) as [Hneg | Hnn].
  { rewrite readVarLength_outside in Hread by lia. inversion Hread. lia. }
  destruct (Z.ltb_spec p (Z.of_nat (length data))) as [Hin | Hout].
  - unfold varlens_nonneg in Hall. rewrite forallb_forall in Hall.
    specialize (Hall (Z.to_nat p)).
    rewrite in_seq, Z2Nat.id in Hall by lia.
    specialize (Hall ltac:(lia)).
    apply orb_prop in Hall as [Hlt | Hok]; [ lia | ].
    unfold varlen_nonneg_at in Hok. rewrite Hread in Hok. lia.
  - rewrite readVarLength_outside in Hread by lia. inversion Hread. lia.
Qed.

Section EventLoop.

Variable data : bytes.

(** One pass of the loop body always returns. *)
Lemma parseEvent_total (st : state) : exists st', parseEvent data st = Some st'.
Proof.
  unfold parseEvent.
  destruct (readVarLength_total data (pos st)) as [[deltaTime p] ->].
  destruct (strict_eq (get data p) 255).
  { destruct (readVarLength_total data (p + 1 + 1)) as [[len p'] ->].
    cbn. eauto. }
  destruct (strict_eq (get data p) 240 || strict_eq (get data p) 247).
  { destruct (readVarLength_total data (p + 1)) as [[len p'] ->].
    cbn. eauto. }
  destruct (truthy (js_and (num (get data p)) 128)); eauto.
Qed.

(** [from] is a lower bound of the cursor below which nothing is assumed. *)
Variable from : Z.
Hypothesis Hnonneg : varlens_nonneg from data = true.

(** With payload lengths that are not negative, one pass moves the cursor
    forward, by three bytes or more. *)
Lemma parseEvent_progress (st st' : state) :
  from <= pos st -> parseEvent data st = Some st' -> pos st + 3 <= pos st'.
Proof.
  intros Hfrom H. unfold parseEvent in H.
  destruct (readVarLength data (pos st)) as [[deltaTime p] | ] eqn:Hdelta;
    [ | discriminate ].
  apply readVarLength_advances in Hdelta.
  destruct (strict_eq (get data p) 255).
  { destruct (readVarLength data (p + 1 + 1)) as [[len p'] | ] eqn:Hlen;
      [ | discriminate ].
    assert (0 <= len)
      by (eapply (varlens_nonneg_spec _ _ Hnonneg); [ | exact Hlen ]; lia).
    apply readVarLength_advances in Hlen.
    unfold readBytes in H. injection H as <-. cbn [pos]. lia. }
  destruct (strict_eq (get data p) 240 || strict_eq (get data p) 247).
  { destruct (readVarLength data (p + 1)) as [[len p'] | ] eqn:Hlen;
      [ | discriminate ].
    assert (0 <= len)
      by (eapply (varlens_nonneg_spec _ _ Hnonneg); [ | exact Hlen ]; lia).
    apply readVarLength_advances in Hlen.
    unfold readBytes in H. injection H as <-. cbn [pos]. lia. }
  destruct (truthy (js_and (num (get data p)) 128));
    injection H as <-; cbn [pos]; lia.
Qed.

(** The cursor never moves back in the loop. *)
Lemma parseTrack_loop_forward (trackEnd : Z) (fuel : nat) :
  forall st st',
    from <= pos st ->
    parseTrack_loop fuel data trackEnd st = Some st' ->
    pos st <= pos st'.
Proof.
  induction fuel as [ | fuel IH]; intros st st' Hfrom H; cbn [parseTrack_loop] in H;
    destruct (Z.ltb_spec (pos st) trackEnd) as [Hlt | Hge];
    try discriminate; try (inversion H; lia).
  destruct (parseEvent data st) as [st1 | ] eqn:Hst1; [ | discriminate ].
  pose proof (parseEvent_progress _ _ Hfrom Hst1).
  apply IH in H; lia.
Qed.

End EventLoop.

(** ** The range of a chunk length *)

Lemma readInt32_range (data : bytes) (p : Z) :
  - 2 ^ 31 <= fst (readInt32 data p) < 2 ^ 31.
Proof. unfold readInt32, js_or at 1. cbn [fst]. apply ToInt32_range. Qed.

(** ** Bytes that the decoder never looks at *)

Lemma agree_from_app (pre pre' rest : bytes) :
  length pre = length pre' ->
  agree_from (Z.of_nat (length pre)) (pre ++ rest) (pre' ++ rest).
Proof.
  intros Hlen. split; [ rewrite !length_app; lia | ].
  intros i Hi.
  replace i with (Z.of_nat (length pre) + (i - Z.of_nat (length pre))) by lia.
  rewrite get_app_r by lia. rewrite Hlen. rewrite get_app_r by lia.
  reflexivity.
Qed.

Lemma agree_from_weaken (k k' : Z) (d d' : bytes) :
  k <= k' -> agree_from k d d' -> agree_from k' d d'.
Proof.
  intros Hk [Hlen Hget]. split; [ exact Hlen | ].
  intros i Hi. apply Hget. lia.
Qed.

Section Agreement.

Variables (k : Z) (d d' : bytes).
Hypothesis Hagree : agree_from k d d'.

Lemma readVarLength_loop_agree (fuel : nat) :
  forall result p,
    k <= p ->
    readVarLength_loop fuel d result p = readVarLength_loop fuel d' result p.
Proof.
  induction fuel as [ | fuel IH]; intros result p Hk; [ reflexivity | ].
  cbn [readVarLength_loop]. cbv zeta.
  rewrite <- (proj2 Hagree p Hk).
  destruct (truthy (js_and (num (get d p)) 128)); [ apply IH; lia | reflexivity ].
Qed.

Lemma readVarLength_agree (p : Z) :
  k <= p -> readVarLength d p = readVarLength d' p.
Proof.
  intros Hk. unfold readVarLength. rewrite <- (proj1 Hagree).
  apply readVarLength_loop_agree. exact Hk.
Qed.

Lemma readInt16_agree (p : Z) : k <= p -> readInt16 d p = readInt16 d' p.
Proof.
  intros Hk. unfold readInt16.
  rewrite !(proj2 Hagree) by lia. reflexivity.
Qed.

Lemma readInt32_agree (p : Z) : k <= p -> readInt32 d p = readInt32 d' p.
Proof.
  intros Hk. unfold readInt32.
  rewrite !(proj2 Hagree) by lia. reflexivity.
Qed.

(** One pass of the loop reads nothing before its cursor. *)
Lemma parseEvent_agree (st : state) :
  k <= pos st -> parseEvent d st = parseEvent d' st.
Proof.
  intros Hk. unfold parseEvent.
  rewrite <- (readVarLength_agree (pos st) Hk).
  destruct (readVarLength d (pos st)) as [[deltaTime p] | ] eqn:Hdelta;
    [ | reflexivity ].
  apply readVarLength_advances in Hdelta.
  rewrite <- (proj2 Hagree p) by lia.
  rewrite <- (readVarLength_agree (p + 1 + 1)) by lia.
  rewrite <- (readVarLength_agree (p + 1)) by lia.
  rewrite <- (proj2 Hagree (p + 1)) by lia.
  rewrite <- (proj2 Hagree (p + 1 + 1)) by lia.
  reflexivity.
Qed.

Variable from : Z.
Hypothesis Hnonneg : varlens_nonneg from d = true.

Lemma parseTrack_loop_agree (trackEnd : Z) (fuel : nat) :
  forall st,
    k <= pos st -> from <= pos st ->
    parseTrack_loop fuel d trackEnd st = parseTrack_loop fuel d' trackEnd st.
Proof.
  induction fuel as [ | fuel IH]; intros st Hk Hfrom; [ reflexivity | ].
  cbn [parseTrack_loop].
  destruct (pos st <? trackEnd); [ | reflexivity ].
  rewrite <- (parseEvent_agree st Hk).
  destruct (parseEvent d st) as [st1 | ] eqn:Hst1; [ | reflexivity ].
  pose proof (parseEvent_progress d from Hnonneg _ _ Hfrom Hst1).
  apply IH; lia.
Qed.

(** [parseTrack] reads nothing before the length field of its chunk: the
    four bytes of the tag are stepped over. *)
Lemma parseTrack_agree (fuel : nat) (division p : Z) :
  k <= p + 4 -> from <= p + 8 ->
  parseTrack fuel d division p = parseTrack fuel d' division p.
Proof.
  intros Hk Hfrom. unfold parseTrack, readBytes.
  rewrite <- (readInt32_agree (p + 4) Hk).
  destruct (readInt32 d (p + 4)) as [trackLength p1] eqn:Hlen.
  assert (Hp1 : p1 = p + 4 + 4) by (unfold readInt32 in Hlen; congruence).
  subst p1.
  rewrite <- parseTrack_loop_agree by (cbn [pos]; lia).
  reflexivity.
Qed.

Lemma parseTrack_forward (fuel : nat) (division p : Z) (t : track) (p' : Z) :
  from <= p + 8 ->
  parseTrack fuel d division p = Some (t, p') -> p + 8 <= p'.
Proof.
  intros Hfrom H. unfold parseTrack, readBytes in H.
  destruct (readInt32 d (p + 4)) as [trackLength p1] eqn:Hlen.
  assert (Hp1 : p1 = p + 4 + 4) by (unfold readInt32 in Hlen; congruence).
  subst p1.
  destruct (parseTrack_loop fuel d _ _) as [st' | ] eqn:Hloop; [ | discriminate ].
  apply (parseTrack_loop_forward d from Hnonneg) in Hloop; cbn [pos] in *; [ | lia ].
  injection H as _ <-. lia.
Qed.

Lemma parseTracks_agree (fuel : nat) (division : Z) (n : nat) :
  forall tracks p,
    k <= p + 4 -> from <= p + 8 ->
    parseTracks fuel d division n tracks p
    = parseTracks fuel d' division n tracks p.
Proof.
  induction n as [ | n IH]; intros tracks p Hk Hfrom; [ reflexivity | ].
  cbn [parseTracks].
  rewrite <- (parseTrack_agree fuel division p Hk Hfrom).
  destruct (parseTrack fuel d division p) as [[t p'] | ] eqn:Htrack;
    [ | reflexivity ].
  apply parseTrack_forward in Htrack; [ | exact Hfrom ].
  apply IH; lia.
Qed.

End Agreement.

(** [parse] looks at nothing before offset 8: neither the tag of the header
    chunk nor its declared length. *)
Lemma parse_agree (fuel : nat) (d d' : bytes) :
  agree_from 8 d d' ->
  varlens_nonneg 22 d = true ->
  parse fuel d = parse fuel d'.
Proof.
  intros Hagree Hnonneg. unfold parse, readBytes.
  destruct (readInt32 d (0 + 4)) as [headerLength p1] eqn:Hh.
  destruct (readInt32 d' (0 + 4)) as [headerLength' p1'] eqn:Hh'.
  assert (Hp1 : p1 = 8) by (unfold readInt32 in Hh; injection Hh as _ <-; reflexivity).
  assert (Hp1' : p1' = 8) by (unfold readInt32 in Hh'; injection Hh' as _ <-; reflexivity).
  subst p1 p1'.
  rewrite <- (readInt16_agree 8 d d' Hagree 8) by lia.
  destruct (readInt16 d 8) as [format p2] eqn:Hf.
  assert (Hp2 : p2 = 10) by (unfold readInt16 in Hf; injection Hf as _ <-; reflexivity).
  subst p2.
  rewrite <- (readInt16_agree 8 d d' Hagree 10) by lia.
  destruct (readInt16 d 10) as [trackCount p3] eqn:Ht.
  assert (Hp3 : p3 = 12) by (unfold readInt16 in Ht; injection Ht as _ <-; reflexivity).
  subst p3.
  rewrite <- (readInt16_agree 8 d d' Hagree 12) by lia.
  destruct (readInt16 d 12) as [division p4] eqn:Hd.
  assert (Hp4 : p4 = 14) by (unfold readInt16 in Hd; injection Hd as _ <-; reflexivity).
  subst p4.
  rewrite <- (parseTracks_agree 8 d d' Hagree 22 Hnonneg) by lia.
  reflexivity.
Qed.

(** ** The result does not depend on the fuel *)

Lemma parseTrack_loop_exit (fuel : nat) (data : bytes) (trackEnd : Z) (st : state) :
  trackEnd <= pos st -> parseTrack_loop fuel data trackEnd st = Some st.
Proof.
  intros H. destruct fuel; cbn [parseTrack_loop];
    destruct (Z.ltb_spec (pos st) trackEnd); solve [ reflexivity | lia ].
Qed.

Lemma parseTrack_loop_mono (data : bytes) (trackEnd : Z) (fuel : nat) :
  forall fuel' st st',
    parseTrack_loop fuel data trackEnd st = Some st' ->
    (fuel <= fuel')%nat ->
    parseTrack_loop fuel' data trackEnd st = Some st'.
Proof.
  induction fuel as [ | fuel IH]; intros fuel' st st' H Hle;
    cbn [parseTrack_loop] in H;
    destruct (Z.ltb_spec (pos st) trackEnd) as [Hlt | Hge]; try discriminate;
    try (injection H as <-; apply parseTrack_loop_exit; exact Hge).
  destruct fuel' as [ | fuel']; [ lia | ].
  cbn [parseTrack_loop].
  destruct (Z.ltb_spec (pos st) trackEnd); [ | lia ].
  destruct (parseEvent data st) as [st1 | ]; [ | discriminate ].
  apply IH; [ exact H | lia ].
Qed.

Lemma parseTrack_mono (data : bytes) (division p : Z) (fuel fuel' : nat) (r : track * Z) :
  parseTrack fuel data division p = Some r ->
  (fuel <= fuel')%nat ->
  parseTrack fuel' data division p = Some r.
Proof.
  unfold parseTrack, readBytes. intros H Hle.
  destruct (readInt32 data (p + 4)) as [trackLength p1].
  destruct (parseTrack_loop fuel data _ _) as [st' | ] eqn:Hloop; [ | discriminate ].
  rewrite (parseTrack_loop_mono _ _ _ _ _ _ Hloop Hle). exact H.
Qed.

Lemma parseTracks_mono (data : bytes) (division : Z) (fuel fuel' : nat) (n : nat) :
  forall tracks p r,
    parseTracks fuel data division n tracks p = Some r ->
    (fuel <= fuel')%nat ->
    parseTracks fuel' data division n tracks p = Some r.
Proof.
  induction n as [ | n IH]; intros tracks p r H Hle; cbn [parseTracks] in *;
    [ exact H | ].
  destruct (parseTrack fuel data division p) as [[t p'] | ] eqn:Htrack;
    [ | discriminate ].
  rewrite (parseTrack_mono _ _ _ _ _ _ Htrack Hle).
  apply IH; assumption.
Qed.

(** More fuel never changes what [parse] returns. *)
Lemma parse_mono (data : bytes) (fuel fuel' : nat) (s : Sequence) :
  parse fuel data = Some s -> (fuel <= fuel')%nat -> parse fuel' data = Some s.
Proof.
  unfold parse, readBytes. intros H Hle.
  destruct (readInt32 data (0 + 4)) as [headerLength p1].
  destruct (readInt16 data p1) as [fmt p2].
  destruct (readInt16 data p2) as [count p3].
  destruct (readInt16 data p3) as [dv p4].
  destruct (parseTracks fuel data dv (Z.to_nat count) [] p4) as [[ts p'] | ] eqn:Hts;
    [ | discriminate ].
  rewrite (parseTracks_mono _ _ _ _ _ _ _ _ Hts Hle). exact H.
Qed.

(** [parse] with its header reads at their offsets. *)
Lemma parse_unfold (fuel : nat) (data : bytes) :
  parse fuel data
  = match parseTracks fuel data (fst (readInt16 data 12))
            (Z.to_nat (fst (readInt16 data 10))) [] 14 with
    | None => None
    | Some (tracks, _) =>
        Some (mkSequence (fst (readInt16 data 8)) (fst (readInt16 data 10))
                (fst (readInt16 data 12)) tracks (compute_maxTime tracks))
    end.
Proof.
  unfold parse, readBytes, readInt32, readInt16.
  cbv beta iota zeta delta [fst snd].
  change (0 + 4 + 4 + 2 + 2 + 2) with 14.
  change (0 + 4 + 4 + 2 + 2) with 12.
  change (0 + 4 + 4 + 2) with 10.
  change (0 + 4 + 4) with 8.
  reflexivity.
Qed.

(** ** Reads past the end of the buffer *)

Section PastTheEnd.

Variable data : bytes.

Lemma readInt16_outside (p : Z) :
  Z.of_nat (length data) <= p -> readInt16 data p = (0, p + 2).
Proof.
  intros H. unfold readInt16. rewrite !get_outside by lia. reflexivity.
Qed.

Lemma readInt32_outside (p : Z) :
  Z.of_nat (length data) <= p -> readInt32 data p = (0, p + 4).
Proof.
  intros H. unfold readInt32. rewrite !get_outside by lia. reflexivity.
Qed.

(** A pass of the loop past the end reads [undefined] three times: a delta
    time of 0 and two bytes taken for data, nothing emitted. *)
Lemma parseEvent_outside (st : state) :
  Z.of_nat (length data) <= pos st ->
  parseEvent data st
  = Some (mkState (pos st + 3) (currentTime st) (runningStatus st) (events st)).
Proof.
  intros H. unfold parseEvent.
  rewrite readVarLength_outside by lia.
  rewrite get_outside by lia. cbn.
  do 2 f_equal; lia.
Qed.

Lemma parseTrack_loop_outside (trackEnd : Z) (n : nat) :
  forall st fuel,
    Z.of_nat (length data) <= pos st ->
    trackEnd - pos st <= Z.of_nat n ->
    (n <= fuel)%nat ->
    exists st', parseTrack_loop fuel data trackEnd st = Some st'
                /\ events st' = events st /\ pos st <= pos st'.
Proof.
  induction n as [ | n IH]; intros st fuel Hout Hdist Hfuel.
  - exists st. rewrite parseTrack_loop_exit by lia. repeat split; lia.
  - destruct (Z.ltb_spec (pos st) trackEnd) as [Hlt | Hge];
      [ | exists st; rewrite parseTrack_loop_exit by lia; repeat split; lia ].
    destruct fuel as [ | fuel]; [ lia | ].
    cbn [parseTrack_loop].
    destruct (Z.ltb_spec (pos st) trackEnd); [ | lia ].
    rewrite parseEvent_outside by exact Hout.
    destruct (IH (mkState (pos st + 3) (currentTime st) (runningStatus st) (events st))
                 fuel) as [st' [Hloop [Hev Hle]]]; cbn [pos]; try lia.
    exists st'. cbn [pos events] in *. repeat split; [ exact Hloop | exact Hev | lia ].
Qed.

(** A track chunk whose event data would start at or past the end of the
    buffer is decoded to a track without events. *)
Lemma parseTrack_outside (fuel : nat) (division p : Z) :
  Z.of_nat (length data) <= p + 8 ->
  fst (readInt32 data (p + 4)) <= Z.of_nat fuel ->
  exists p', parseTrack fuel data division p = Some (mkTrack [], p') /\ p + 8 <= p'.
Proof.
  intros Hout Hfuel. unfold parseTrack, readBytes.
  destruct (readInt32 data (p + 4)) as [trackLength p1] eqn:Hlen.
  assert (Hp1 : p1 = p + 4 + 4) by (unfold readInt32 in Hlen; congruence).
  subst p1. cbn [fst] in Hfuel.
  destruct (parseTrack_loop_outside (p + 4 + 4 + trackLength) (Z.to_nat trackLength)
              (mkState (p + 4 + 4) 0 (Some 0) []) fuel)
    as [st' [Hloop [Hev Hle]]]; cbn [pos]; try lia.
  rewrite Hloop. cbn [events pos] in *. rewrite Hev.
  exists (pos st'). split; [ reflexivity | lia ].
Qed.

Lemma parseTracks_outside (fuel : nat) (division : Z) (n : nat) :
  forall tracks p,
    Z.of_nat (length data) <= p + 4 ->
    exists p', parseTracks fuel data division n tracks p
               = Some (tracks ++ repeat (mkTrack []) n, p').
Proof.
  induction n as [ | n IH]; intros tracks p Hout; cbn [parseTracks repeat].
  - rewrite app_nil_r. eauto.
  - destruct (parseTrack_outside fuel division p) as [p' [-> Hle]]; [ lia | | ].
    + rewrite readInt32_outside by lia. cbn. lia.
    + destruct (IH (tracks ++ [mkTrack []]) p') as [p'' ->]; [ lia | ].
      rewrite <- app_assoc. eauto.
Qed.

End PastTheEnd.

Lemma compute_maxTime_empty_tracks (n : nat) :
  compute_maxTime (repeat (mkTrack []) (S n)) = Num 0.
Proof.
  unfold compute_maxTime, Math_max. cbn [repeat map fold_left].
  change (jmax NegInfinity (track_maxTime (mkTrack []))) with (Num 0).
  induction n as [ | n IH]; [ reflexivity | ].
  cbn [repeat map fold_left]. exact IH.
Qed.

(** ** Bitwise operators on a byte of the buffer *)

Lemma and_byte_0xf0 (b : byte) :
  js_and (num (Some (byteZ b))) 0xf0 = Z.land (byteZ b) 0xf0.
Proof. destruct b; reflexivity. Qed.

Lemma and_byte_0x80 (b : byte) :
  js_and (num (Some (byteZ b))) 0x80 = Z.land (byteZ b) 0x80.
Proof. destruct b; reflexivity. Qed.

Lemma get_Some_byte (data : bytes) (i z : Z) :
  get data i = Some z -> exists b, z = byteZ b.
Proof.
  intros H. destruct (get_cases data i) as [E | [b [E _]]]; [ congruence | ].
  exists b. congruence.
Qed.

(** * The claims *)

(** ** C1: running status *)

(** C1 (the code departs from the claim).  A bare data byte after a note on
    must be decoded with the running status 0x90 and give a second note on.
    [parseTrack] keeps [runningStatus] up to date but its last branch only
    steps over the two bytes: on the running-status chain
    [00 90 3c 40 00 3e 40] it returns the first note on alone, whatever the
    fuel. *)
Theorem running_status_bytes_dropped (fuel : nat) :
  parse (2 + fuel) running_status_file
  = Some (mkSequence 0 1 96 [mkTrack [noteOn 0 (Some 60) (Some 64)]] (Num 0)).
Proof.
  apply (parse_mono running_status_file 2); [ reflexivity | lia ].
Qed.

(** The last branch of the loop body in general: after the delta time, a
    byte with the high bit clear and the byte after it are stepped over;
    [runningStatus] is not consulted and [events] is left as it was. *)
Lemma running_status_pass (data : bytes) (st : state) (deltaTime p data1 : Z) :
  readVarLength data (pos st) = Some (deltaTime, p) ->
  get data p = Some data1 ->
  Z.land data1 0x80 = 0 ->
  parseEvent data st
  = Some (mkState (p + 2) (currentTime st + deltaTime) (runningStatus st)
            (events st)).
Proof.
  intros Hdelta Hdata1 Hlow.
  destruct (get_Some_byte _ _ _ Hdata1) as [b ->].
  assert (Hne : forall k, Z.land k 0x80 <> 0 -> (byteZ b =? k) = false)
    by (intros k Hk; apply Z.eqb_neq; congruence).
  unfold parseEvent. rewrite Hdelta, Hdata1. cbn [strict_eq].
  rewrite !Hne by discriminate. cbn [orb].
  rewrite and_byte_0x80, Hlow. cbn [truthy Z.eqb negb].
  do 2 f_equal. lia.
Qed.

(** ** C2: maxTime *)

Lemma fold_max_ge (l : list Z) : forall a, a <= fold_left Z.max l a.
Proof.
  induction l as [ | x l IH]; intros a; cbn [fold_left]; [ lia | ].
  specialize (IH (Z.max a x)). lia.
Qed.

Lemma fold_max_max (l : list Z) :
  forall a b, fold_left Z.max l (Z.max a b) = Z.max (fold_left Z.max l a) b.
Proof.
  induction l as [ | x l IH]; intros a b; cbn [fold_left]; [ reflexivity | ].
  rewrite <- IH. f_equal. lia.
Qed.

Lemma Math_max_from (l : list Z) :
  forall a, fold_left jmax (map Num l) (Num a) = Num (fold_left Z.max l a).
Proof.
  induction l as [ | x l IH]; intros a; cbn [map fold_left]; [ reflexivity | ].
  apply IH.
Qed.

(** [Math.max(...t.events.map(e => e.time), 0)] is the largest of 0 and the
    times of the track. *)
Lemma track_maxTime_spec (t : track) :
  track_maxTime t = Num (fold_left Z.max (map time (track_events t)) 0).
Proof.
  unfold track_maxTime, Math_max. rewrite <- (map_map time Num).
  destruct (map time (track_events t)) as [ | x l]; [ reflexivity | ].
  cbn [map app fold_left jmax].
  rewrite fold_left_app, Math_max_from. cbn [fold_left jmax].
  rewrite <- fold_max_max. do 2 f_equal. lia.
Qed.

Lemma Math_max_tracks (tracks : list track) :
  forall m, 0 <= m ->
    fold_left jmax (map track_maxTime tracks) (Num m)
    = Num (fold_left Z.max (all_times tracks) m).
Proof.
  induction tracks as [ | t tracks IH]; intros m Hm; [ reflexivity | ].
  cbn [map fold_left all_times flat_map]. fold (all_times tracks).
  rewrite track_maxTime_spec, fold_left_app. cbn [jmax].
  assert (E : Z.max m (fold_left Z.max (map time (track_events t)) 0)
              = fold_left Z.max (map time (track_events t)) m)
    by (rewrite Z.max_comm, <- fold_max_max; f_equal; lia).
  rewrite E. apply IH.
  pose proof (fold_max_ge (map time (track_events t)) m). lia.
Qed.

(** With one track or more, [maxTime] is the largest of 0 and the times of
    all the events: the part of C2 that holds. *)
Lemma maxTime_with_tracks (t : track) (tracks : list track) :
  compute_maxTime (t :: tracks)
  = Num (fold_left Z.max (all_times (t :: tracks)) 0).
Proof.
  unfold compute_maxTime, Math_max. cbn [map fold_left jmax].
  rewrite track_maxTime_spec.
  rewrite Math_max_tracks by (pose proof (fold_max_ge (map time (track_events t)) 0); lia).
  cbn [all_times flat_map]. rewrite fold_left_app. reflexivity.
Qed.

(** C2 (the code departs from the claim).  A header that declares no track
    must give [maxTime = 0].  The inner [Math.max] has the extra argument 0,
    the outer one has none: with an empty [tracks] it returns [-Infinity]. *)
Theorem maxTime_without_tracks (fuel : nat) :
  parse fuel header_no_tracks = Some (mkSequence 0 0 96 [] NegInfinity).
Proof. reflexivity. Qed.

(** ** C3: channel-voice events with an explicit status byte *)

(** C3.  After the delta time, a status byte with the high bit set that is
    none of 0xff, 0xf0, 0xf7, followed by two data bytes: the pass consumes
    the three bytes, makes the status byte the running status, and pushes a
    note on exactly when the kind is 0x90 and [data2 > 0], a note off exactly
    when the kind is 0x80 or the kind is 0x90 and [data2 = 0], and nothing
    for any other kind. *)
Theorem channel_voice_event_decoded
    (data : bytes) (st : state) (deltaTime p status data1 data2 : Z) :
  readVarLength data (pos st) = Some (deltaTime, p) ->
  get data p = Some status ->
  get data (p + 1) = Some data1 ->
  get data (p + 2) = Some data2 ->
  Z.land status 0x80 <> 0 ->
  status <> 0xff -> status <> 0xf0 -> status <> 0xf7 ->
  let t := currentTime st + deltaTime in
  let messageKind := Z.land status 0xf0 in
  exists emitted,
    parseEvent data st
    = Some (mkState (p + 3) t (Some status) (events st ++ emitted)) /\
    (emitted = [noteOn t (Some data1) (Some data2)]
     <-> messageKind = 0x90 /\ data2 > 0) /\
    (emitted = [noteOff t (Some data1)]
     <-> messageKind = 0x80 \/ (messageKind = 0x90 /\ data2 = 0)) /\
    (messageKind <> 0x90 -> messageKind <> 0x80 -> emitted = []).
Proof.
  intros Hdelta Hstatus Hd1 Hd2 Hhigh Hff Hf0 Hf7 t messageKind.
  destruct (get_Some_byte _ _ _ Hstatus) as [b ->].
  exists (classify (Some (byteZ b)) t (Some data1) (Some data2)).
  split.
  - unfold parseEvent. rewrite Hdelta, Hstatus. cbn [strict_eq].
    rewrite (proj2 (Z.eqb_neq _ _) Hff), (proj2 (Z.eqb_neq _ _) Hf0),
      (proj2 (Z.eqb_neq _ _) Hf7).
    cbn [orb]. rewrite and_byte_0x80. unfold truthy.
    rewrite (proj2 (Z.eqb_neq _ _) Hhigh). cbn [negb].
    rewrite Hd1. replace (p + 1 + 1) with (p + 2) by lia. rewrite Hd2.
    do 2 f_equal. lia.
  - unfold classify. rewrite and_byte_0xf0. fold messageKind.
    cbn [gt strict_eq].
    destruct (Z.eqb_spec messageKind 0x90) as [E90 | N90];
      destruct (Z.eqb_spec messageKind 0x80) as [E80 | N80];
      destruct (Z.ltb_spec 0 data2) as [Hpos | Hnpos];
      destruct (Z.eqb_spec data2 0) as [Hz | Hnz];
      cbn [andb orb];
      repeat split; intros; try discriminate; try lia; try reflexivity;
      try (exfalso; lia).
Qed.

Lemma channel_voice_event_decoded_witness :
  exists emitted,
    parseEvent scenario_file (mkState 22 0 (Some 0) [])
    = Some (mkState 26 0 (Some 0x90) ([] ++ emitted)) /\
    (emitted = [noteOn 0 (Some 60) (Some 64)] <-> 0x90 = 0x90 /\ 64 > 0) /\
    (emitted = [noteOff 0 (Some 60)] <-> 0x90 = 0x80 \/ (0x90 = 0x90 /\ 64 = 0)) /\
    (0x90 <> 0x90 -> 0x90 <> 0x80 -> emitted = []).
Proof.
  apply (channel_voice_event_decoded scenario_file (mkState 22 0 (Some 0) [])
           0 23 0x90 60 64);
    solve [ reflexivity | discriminate ].
Defined.

(** ** C5: chunk tags *)

(** C5, counterexample.  With "RIFF" for "MThd" and "data" for "MTrk" the
    scenario is decoded as before: two events, [maxTime = 96], and no
    failure on either tag. *)
Lemma wrong_tags_accepted :
  parse 3 wrong_tags_file
  = Some (mkSequence 0 1 96
            [mkTrack [noteOn 0 (Some 60) (Some 64); noteOff 96 (Some 60)]]
            (Num 96)) /\
  parse 3 wrong_tags_file = parse 3 scenario_file.
Proof. split; reflexivity. Qed.

(** C5, as amended.  [parse] and [parseTrack] read the four bytes of a chunk
    tag and compare them with nothing.
    - On a buffer in which no variable-length quantity that starts at
      offset 22 or later is decoded to a negative number, the result of
      [parse] is the same for any other four bytes in the place of the
      header tag.
    - For a track chunk at any offset [p] of a buffer in which no
      variable-length quantity that starts at offset [p + 8] or later is
      decoded to a negative number, the result of [parseTrack] is the same
      for any other four bytes in the place of the track tag.
    (The condition keeps the cursor from coming back on the tag.) *)
Theorem chunk_tags_not_validated
    (fuel : nat) (dv : Z) (tag tag' rest : bytes) (pre ttag ttag' body : bytes) :
  (length tag = 4%nat -> length tag' = 4%nat ->
   varlens_nonneg 22 (tag ++ rest) = true ->
   parse fuel (tag ++ rest) = parse fuel (tag' ++ rest))
  /\
  (length ttag = 4%nat -> length ttag' = 4%nat ->
   varlens_nonneg (Z.of_nat (length pre) + 8) (pre ++ ttag ++ body) = true ->
   parseTrack fuel (pre ++ ttag ++ body) dv (Z.of_nat (length pre))
   = parseTrack fuel (pre ++ ttag' ++ body) dv (Z.of_nat (length pre))).
Proof.
  split.
  - intros Htag Htag' Hparse.
    apply parse_agree; [ | exact Hparse ].
    apply (agree_from_weaken 4); [ lia | ].
    replace 4 with (Z.of_nat (length tag)) by lia.
    apply agree_from_app. congruence.
  - intros Htag Htag' Htrack.
    apply (parseTrack_agree (Z.of_nat (length pre) + 4) _ _)
      with (from := Z.of_nat (length pre) + 8); [ | exact Htrack | lia | lia ].
    rewrite !(app_assoc pre).
    replace (Z.of_nat (length pre) + 4) with (Z.of_nat (length (pre ++ ttag)))
      by (rewrite length_app; lia).
    apply agree_from_app. rewrite !length_app. congruence.
Qed.

(** The first buffer declares a track length of -1 and holds a note on:
    the four bytes ff of the length field, read from offset 18 on as a
    variable-length quantity, are decoded to a negative number, which the
    condition from offset 22 on leaves aside. *)
Lemma chunk_tags_not_validated_witness :
  parse 3 ([x4d; x54; x68; x64] ++
           [x00; x00; x00; x06; x00; x00; x00; x01; x00; x60;
            x4d; x54; x72; x6b; xff; xff; xff; xff; x00; x90; x3c; x40])
  = parse 3 ([x52; x49; x46; x46] ++
             [x00; x00; x00; x06; x00; x00; x00; x01; x00; x60;
              x4d; x54; x72; x6b; xff; xff; xff; xff; x00; x90; x3c; x40]) /\
  parseTrack 3 (header_one_track ++ [x4d; x54; x72; x6b] ++
                skipn 18 scenario_file) 96 (Z.of_nat (length header_one_track))
  = parseTrack 3 (header_one_track ++ [x64; x61; x74; x61] ++
                  skipn 18 scenario_file) 96 (Z.of_nat (length header_one_track)).
Proof.
  destruct (chunk_tags_not_validated 3 96
              [x4d; x54; x68; x64] [x52; x49; x46; x46]
              [x00; x00; x00; x06; x00; x00; x00; x01; x00; x60;
               x4d; x54; x72; x6b; xff; xff; xff; xff; x00; x90; x3c; x40]
              header_one_track [x4d; x54; x72; x6b] [x64; x61; x74; x61]
              (skipn 18 scenario_file))
    as [Hheader Htrack].
  split; [ apply Hheader | apply Htrack ]; reflexivity.
Defined.

(** ** C6: declared header length *)

(** C6, counterexample.  The header declares 18 bytes, 12 more than the
    three fields.  [parse] decodes the chunk that starts at offset 14, inside
    those 12 bytes (note 60); the track chunk at offset 14 + (18 - 6) = 26,
    where the claim has the first track read, holds note 64. *)
Lemma long_header_not_skipped :
  parse 1 long_header_file
  = Some (mkSequence 0 1 96 [mkTrack [noteOn 0 (Some 60) (Some 64)]] (Num 0)) /\
  parseTracks 1 long_header_file 96 1 [] (14 + (18 - 6))
  = Some ([mkTrack [noteOn 0 (Some 64) (Some 64)]], 38).
Proof. split; reflexivity. Qed.

(** C6, as amended.  [parse] reads the declared length of the header chunk
    and does nothing with it: the header takes 14 bytes whatever it
    declares.  On a buffer whose variable-length quantities are not
    negative, the result of [parse] is the same for any other four bytes in
    the place of the length, and it is made of the three fields at offsets
    8, 10, 12 and of the tracks decoded from offset 14 on. *)
Theorem header_length_ignored (fuel : nat) (tag len len' rest : bytes) :
  length tag = 4%nat -> length len = 4%nat -> length len' = 4%nat ->
  varlens_nonneg 22 (tag ++ len ++ rest) = true ->
  let data := tag ++ len ++ rest in
  let count := fst (readInt16 data 10) in
  let division := fst (readInt16 data 12) in
  parse fuel data = parse fuel (tag ++ len' ++ rest) /\
  parse fuel data
  = match parseTracks fuel data division (Z.to_nat count) [] 14 with
    | None => None
    | Some (tracks, _) =>
        Some (mkSequence (fst (readInt16 data 8)) count division tracks
                (compute_maxTime tracks))
    end.
Proof.
  intros Htag Hlen Hlen' Hnonneg data count division.
  split; [ | apply parse_unfold ].
  apply parse_agree; [ | exact Hnonneg ]. subst data.
  rewrite !(app_assoc tag).
  replace 8 with (Z.of_nat (length (tag ++ len))) by (rewrite length_app; lia).
  apply agree_from_app. rewrite !length_app. congruence.
Qed.

Lemma header_length_ignored_witness :
  let data := firstn 4 long_header_file ++ [x00; x00; x00; x12] ++ skipn 8 long_header_file in
  let count := fst (readInt16 data 10) in
  let division := fst (readInt16 data 12) in
  parse 1 data
  = parse 1 (firstn 4 long_header_file ++ [x00; x00; x00; x06] ++ skipn 8 long_header_file) /\
  parse 1 data
  = match parseTracks 1 data division (Z.to_nat count) [] 14 with
    | None => None
    | Some (tracks, _) =>
        Some (mkSequence (fst (readInt16 data 8)) count division tracks
                (compute_maxTime tracks))
    end.
Proof.
  apply (header_length_ignored 1 (firstn 4 long_header_file) [x00; x00; x00; x12]
           [x00; x00; x00; x06] (skipn 8 long_header_file));
    reflexivity.
Defined.

(** ** C7: variable-length quantities *)

(** C7, counterexample.  The bytes 88 80 80 80 00 are a valid encoding, of
    2^31; the fifth pass shifts 2^24 left by 7 in 32 bits and
    [readVarLength] returns -2^31. *)
Lemma varlen_five_bytes_wraps :
  valid_varlen varlen_2_31 = true /\
  varlen_value varlen_2_31 = 2147483648 /\
  readVarLength varlen_2_31 0 = Some (-2147483648, 5).
Proof. repeat split; reflexivity. Qed.

(** C7, as amended.  For every valid encoding of a value below 2^31,
    wherever it stands in the buffer, [readVarLength] started at its first
    byte returns the value and leaves the cursor just after its last byte. *)
Theorem readVarLength_decodes (pre enc post : bytes) :
  valid_varlen enc = true ->
  varlen_value enc < 2 ^ 31 ->
  readVarLength (pre ++ enc ++ post) (Z.of_nat (length pre))
  = Some (varlen_value enc, Z.of_nat (length pre) + Z.of_nat (length enc)).
Proof.
  intros Hvalid Hlt. unfold readVarLength, varlen_value.
  apply readVarLength_loop_decodes; [ exact Hvalid | lia | exact Hlt | ].
  rewrite !length_app. lia.
Qed.

Lemma readVarLength_decodes_witness :
  readVarLength ([] ++ [x00] ++ []) 0 = Some (0, 0 + 1) /\
  readVarLength ([x00] ++ [xff; xff; xff; x7f] ++ [x90]) 1
  = Some (268435455, 1 + 4).
Proof.
  split.
  - apply (readVarLength_decodes [] [x00] []); [ reflexivity | vm_compute; reflexivity ].
  - apply (readVarLength_decodes [x00] [xff; xff; xff; x7f] [x90]);
      [ reflexivity | vm_compute; reflexivity ].
Defined.

(** ** C9: track overrun *)

(** C9, counterexample.  The track declares 2 bytes and its note on takes
    4: the pass that starts at offset 22, before the end offset 24, ends at
    26, and [parse] returns the Sequence with that event; there is no
    failure. *)
Lemma overrun_returns_sequence :
  parseEvent overrun_file (mkState 22 0 (Some 0) [])
  = Some (mkState 26 0 (Some 0x90) [noteOn 0 (Some 60) (Some 64)]) /\
  parse 1 overrun_file
  = Some (mkSequence 0 1 96 [mkTrack [noteOn 0 (Some 60) (Some 64)]] (Num 0)).
Proof. split; reflexivity. Qed.

(** C9, as amended.  The only comparison with the end offset is the test
    [pos < trackEnd] before each pass.  When a pass that starts before the
    end offset leaves the cursor beyond it, the loop stops there and returns
    normally: the events pushed so far are kept, that of the overrunning
    pass included, and the cursor stays where the pass left it. *)
Theorem track_overrun_not_detected
    (fuel : nat) (data : bytes) (trackEnd : Z) (st st1 : state) :
  pos st < trackEnd ->
  parseEvent data st = Some st1 ->
  trackEnd < pos st1 ->
  parseTrack_loop (S fuel) data trackEnd st = Some st1.
Proof.
  intros Hlt Hevent Hover. cbn [parseTrack_loop].
  destruct (Z.ltb_spec (pos st) trackEnd); [ | lia ].
  rewrite Hevent. apply parseTrack_loop_exit. lia.
Qed.

Lemma track_overrun_not_detected_witness :
  parseTrack_loop 1 overrun_file 24 (mkState 22 0 (Some 0) [])
  = Some (mkState 26 0 (Some 0x90) [noteOn 0 (Some 60) (Some 64)]).
Proof.
  apply (track_overrun_not_detected 0 overrun_file 24 (mkState 22 0 (Some 0) []));
    [ cbn; lia | reflexivity | cbn; lia ].
Defined.

(** ** Termination when no payload length is negative *)

Section Progress.

Variable data : bytes.

(** A pass that reads no negative payload length moves the cursor forward,
    by three bytes or more: one byte or more of delta time and two bytes or
    more of event. *)
Lemma parseEvent_advances (st st' : state) :
  length_nonneg data st = true ->
  parseEvent data st = Some st' ->
  pos st + 3 <= pos st'.
Proof.
  unfold length_nonneg, payload_length, parseEvent. intros Hlength H.
  destruct (readVarLength data (pos st)) as [[deltaTime p] | ] eqn:Hdelta;
    [ | discriminate ].
  apply readVarLength_advances in Hdelta.
  destruct (strict_eq (get data p) 255).
  { destruct (readVarLength data (p + 1 + 1)) as [[len p'] | ] eqn:Hlen;
      [ | discriminate ].
    cbn [option_map fst] in Hlength. apply Z.leb_le in Hlength.
    apply readVarLength_advances in Hlen.
    unfold readBytes in H. injection H as <-. cbn [pos]. lia. }
  destruct (strict_eq (get data p) 240 || strict_eq (get data p) 247).
  { destruct (readVarLength data (p + 1)) as [[len p'] | ] eqn:Hlen;
      [ | discriminate ].
    cbn [option_map fst] in Hlength. apply Z.leb_le in Hlength.
    apply readVarLength_advances in Hlen.
    unfold readBytes in H. injection H as <-. cbn [pos]. lia. }
  destruct (truthy (js_and (num (get data p)) 128));
    injection H as <-; cbn [pos]; lia.
Qed.

(** The loop leaves once the fuel covers the distance to [trackEnd]. *)
Lemma parseTrack_loop_leaves_when_nonneg (trackEnd : Z) (n : nat) :
  forall st fuel,
    trackEnd - pos st <= Z.of_nat n ->
    (n <= fuel)%nat ->
    loop_lengths_nonneg fuel data trackEnd st = true ->
    exists st', parseTrack_loop fuel data trackEnd st = Some st'.
Proof.
  induction n as [ | n IH]; intros st fuel Hdist Hfuel Hlengths.
  - exists st. apply parseTrack_loop_exit. lia.
  - destruct fuel as [ | fuel]; [ lia | ].
    cbn [parseTrack_loop loop_lengths_nonneg] in *.
    destruct (Z.ltb_spec (pos st) trackEnd) as [Hlt | Hge]; [ | eauto ].
    apply andb_prop in Hlengths as [Hlength Hrest].
    destruct (parseEvent_total data st) as [st1 Hst1]. rewrite Hst1 in *.
    pose proof (parseEvent_advances _ _ Hlength Hst1) as Hadv.
    apply IH; [ lia | lia | exact Hrest ].
Qed.

Variable fuel : nat.
Hypothesis Hfuel : 2 ^ 31 <= Z.of_nat fuel.

Lemma parseTrack_returns_when_nonneg (division p : Z) :
  track_lengths_nonneg fuel data p = true ->
  exists t p', parseTrack fuel data division p = Some (t, p').
Proof.
  unfold parseTrack, track_lengths_nonneg, readBytes.
  pose proof (readInt32_range data (p + 4)) as Hrange.
  destruct (readInt32 data (p + 4)) as [trackLength p1].
  cbn [fst] in Hrange. intros Hlengths.
  destruct (parseTrack_loop_leaves_when_nonneg (p1 + trackLength)
              (Z.to_nat trackLength) (mkState p1 0 (Some 0) []) fuel)
    as [st' Hloop]; cbn [pos]; try lia; [ exact Hlengths | ].
  rewrite Hloop. eauto.
Qed.

Lemma parseTracks_returns_when_nonneg (division : Z) (n : nat) :
  forall tracks p,
    tracks_lengths_nonneg fuel data division n p = true ->
    exists ts p', parseTracks fuel data division n tracks p = Some (ts, p').
Proof.
  induction n as [ | n IH]; intros tracks p Hlengths;
    cbn [parseTracks tracks_lengths_nonneg] in *; [ eauto | ].
  apply andb_prop in Hlengths as [Htrack Hrest].
  destruct (parseTrack_returns_when_nonneg division p Htrack) as [t [p' Ht]].
  rewrite Ht in *. apply IH. exact Hrest.
Qed.

Lemma parse_returns_when_nonneg :
  file_lengths_nonneg fuel data = true -> exists s, parse fuel data = Some s.
Proof.
  unfold file_lengths_nonneg. intros Hlengths. rewrite parse_unfold.
  destruct (parseTracks_returns_when_nonneg _ _ [] 14 Hlengths) as [ts [p' ->]].
  eauto.
Qed.

End Progress.

(** A buffer in which no variable-length quantity from offset [from] on is
    decoded to a negative number is one of those in which no payload length
    that the decoder reads is negative. *)
Section ForwardOnly.

Variable data : bytes.
Variable from : Z.
Hypothesis Hnonneg : varlens_nonneg from data = true.

Lemma length_nonneg_forward (st : state) :
  from <= pos st -> length_nonneg data st = true.
Proof.
  intros Hfrom. unfold length_nonneg, payload_length.
  destruct (readVarLength data (pos st)) as [[deltaTime p] | ] eqn:Hdelta;
    [ | reflexivity ].
  apply readVarLength_advances in Hdelta.
  destruct (strict_eq (get data p) 255).
  { destruct (readVarLength data (p + 1 + 1)) as [[len p'] | ] eqn:Hlen;
      [ | reflexivity ].
    cbn [option_map fst]. apply Z.leb_le.
    eapply (varlens_nonneg_spec _ _ Hnonneg); [ | exact Hlen ]; lia. }
  destruct (strict_eq (get data p) 240 || strict_eq (get data p) 247);
    [ | reflexivity ].
  destruct (readVarLength data (p + 1)) as [[len p'] | ] eqn:Hlen;
    [ | reflexivity ].
  cbn [option_map fst]. apply Z.leb_le.
  eapply (varlens_nonneg_spec _ _ Hnonneg); [ | exact Hlen ]; lia.
Qed.

Lemma loop_lengths_nonneg_forward (trackEnd : Z) (fuel : nat) :
  forall st, from <= pos st -> loop_lengths_nonneg fuel data trackEnd st = true.
Proof.
  induction fuel as [ | fuel IH]; intros st Hfrom; cbn [loop_lengths_nonneg];
    destruct (pos st <? trackEnd); try reflexivity.
  rewrite (length_nonneg_forward st Hfrom). cbn [andb].
  destruct (parseEvent data st) as [st1 | ] eqn:Hst1; [ | reflexivity ].
  apply IH. pose proof (parseEvent_progress data from Hnonneg _ _ Hfrom Hst1). lia.
Qed.

Lemma tracks_lengths_nonneg_forward (fuel : nat) (division : Z) (n : nat) :
  forall p, from <= p + 8 -> tracks_lengths_nonneg fuel data division n p = true.
Proof.
  induction n as [ | n IH]; intros p Hfrom; cbn [tracks_lengths_nonneg];
    [ reflexivity | ].
  apply andb_true_intro. split.
  - unfold track_lengths_nonneg.
    destruct (readInt32 data (p + 4)) as [trackLength p1] eqn:Hlen.
    assert (Hp1 : p1 = p + 4 + 4) by (unfold readInt32 in Hlen; congruence).
    apply loop_lengths_nonneg_forward. cbn [pos]. lia.
  - destruct (parseTrack fuel data division p) as [[t p'] | ] eqn:Htrack;
      [ | reflexivity ].
    apply IH.
    pose proof (parseTrack_forward data from Hnonneg _ _ _ _ _ Hfrom Htrack). lia.
Qed.

End ForwardOnly.

Lemma forward_only_lengths_nonneg (fuel : nat) (data : bytes) :
  varlens_nonneg 22 data = true -> file_lengths_nonneg fuel data = true.
Proof.
  intros Hnonneg. unfold file_lengths_nonneg.
  apply (tracks_lengths_nonneg_forward data 22 Hnonneg). lia.
Qed.

(** ** C10: termination *)

Lemma looping_pass :
  parseEvent looping_file (mkState 22 0 (Some 0) [])
  = Some (mkState 22 0 (Some 0) []).
Proof. reflexivity. Qed.

Lemma looping_loop (fuel : nat) :
  parseTrack_loop fuel looping_file 30 (mkState 22 0 (Some 0) []) = None.
Proof.
  induction fuel as [ | fuel IH]; [ reflexivity | ].
  cbn [parseTrack_loop]. change (pos (mkState 22 0 (Some 0) []) <? 30) with true.
  cbv iota. rewrite looping_pass. exact IH.
Qed.

(** C10, counterexample.  In [looping_file] the payload length of the meta
    event is decoded to -8, the size of the event: the pass that starts at
    offset 22 ends at offset 22 in the same state, and the loop of
    [parseTrack] never leaves, whatever the fuel: [parse] neither returns
    nor throws. *)
Lemma parse_loops_forever :
  readVarLength looping_file 25 = Some (-8, 30) /\
  parseEvent looping_file (mkState 22 0 (Some 0) [])
  = Some (mkState 22 0 (Some 0) []) /\
  (forall fuel, parse fuel looping_file = None) /\
  (forall max_arguments fuel, parse_outcome max_arguments fuel looping_file = None).
Proof.
  split; [ reflexivity | ]. split; [ exact looping_pass | ].
  assert (Hparse : forall fuel, parse fuel looping_file = None).
  { intros fuel. rewrite parse_unfold.
    change (Z.to_nat (fst (readInt16 looping_file 10))) with 1%nat.
    cbn [parseTracks]. unfold parseTrack, readBytes.
    change (readInt32 looping_file (14 + 4)) with (8, 22).
    cbv iota beta. change (22 + 8) with 30.
    rewrite looping_loop. reflexivity. }
  split; [ exact Hparse | ].
  intros max_arguments fuel. unfold parse_outcome. rewrite Hparse. reflexivity.
Qed.

(** C10, as amended.  A pass of the loop of [parseTrack] moves the cursor
    back only by a payload length that [readVarLength] returns negative.
    On every buffer, a pass that reads no such length moves the cursor
    forward, by 3 bytes or more; and when no payload length that the
    decoder reads in the buffer is negative, [parse] terminates once the
    fuel reaches 2^31: it returns its Sequence, or throws the [RangeError]
    of a spread of line 41 that passes more arguments than the engine
    accepts.  Nothing is asked of the delta times, which can be negative,
    nor of the bytes of the payloads. *)
Theorem parse_terminates (data : bytes) (fuel : nat) (max_arguments : Z) :
  (2 ^ 31 <= Z.of_nat fuel ->
   file_lengths_nonneg fuel data = true ->
   exists o, parse_outcome max_arguments fuel data = Some o) /\
  (forall st st',
      length_nonneg data st = true ->
      parseEvent data st = Some st' ->
      pos st + 3 <= pos st').
Proof.
  split.
  - intros Hfuel Hlengths. unfold parse_outcome.
    destruct (parse_returns_when_nonneg data fuel Hfuel Hlengths) as [s ->].
    destruct (maxTime_fits max_arguments (tracks s)); eauto.
  - apply parseEvent_advances.
Qed.

Lemma parse_terminates_witness :
  (exists o,
      parse_outcome 65535 (Z.to_nat (2 ^ 31)) wrapped_delta_file = Some o) /\
  pos (mkState 22 0 (Some 0) []) + 3
  <= pos (mkState 36 (0 + -2147483648) (Some 0) []).
Proof.
  destruct (parse_terminates wrapped_delta_file (Z.to_nat (2 ^ 31)) 65535)
    as [Hreturns Hadvances].
  split.
  - apply Hreturns; [ rewrite Z2Nat.id; lia | reflexivity ].
  - apply Hadvances; reflexivity.
Defined.

(** * Further properties of the parser *)

(** ** Fixed-width reads *)

Lemma land_shifted (k x n : Z) :
  0 <= n -> 0 <= x < 2 ^ n -> Z.land (k * 2 ^ n) x = 0.
Proof.
  intros Hn Hx. apply Z.bits_inj'. intros i Hi.
  rewrite Z.land_spec, Z.bits_0.
  destruct (Z.ltb_spec i n) as [Hlt | Hge].
  - rewrite Z.mul_pow2_bits_low by lia. reflexivity.
  - destruct (Z.eqb_spec x 0) as [-> | Hx0].
    + rewrite Z.bits_0. apply andb_false_r.
    + rewrite (Z.bits_above_log2 x i); [ apply andb_false_r | lia | ].
      apply Z.log2_lt_pow2; [ lia | ].
      apply Z.lt_le_trans with (2 ^ n); [ lia | ].
      apply Z.pow_le_mono_r; lia.
Qed.

(** [|] adds a multiple of [2 ^ n] and a number below [2 ^ n], as long as
    the sum is a 32-bit integer. *)
Lemma js_or_disjoint (k x n : Z) :
  0 <= n -> 0 <= x < 2 ^ n -> x < 2 ^ 31 ->
  - 2 ^ 31 <= k * 2 ^ n -> k * 2 ^ n + x < 2 ^ 31 ->
  js_or (k * 2 ^ n) x = k * 2 ^ n + x.
Proof.
  intros Hn Hx Hx31 Hlo Hhi. unfold js_or.
  rewrite (ToInt32_small (k * 2 ^ n)), (ToInt32_small x) by lia.
  rewrite <- Z.lxor_lor by (apply land_shifted; lia).
  rewrite <- Z.add_nocarry_lxor by (apply land_shifted; lia).
  apply ToInt32_small. lia.
Qed.

Lemma js_shl_byte (b n : Z) :
  0 <= b < 256 -> 0 <= n <= 16 -> js_shl b n = b * 2 ^ n.
Proof.
  intros Hb Hn. unfold js_shl.
  assert (Hpow : 0 < 2 ^ n <= 2 ^ 16)
    by (split; [ apply Z.pow_pos_nonneg; lia | apply Z.pow_le_mono_r; lia ]).
  replace (Z.land n 31) with n.
  - rewrite (ToInt32_small b) by lia. rewrite Z.shiftl_mul_pow2 by lia.
    apply ToInt32_small. change (2 ^ 16) with 65536 in Hpow. nia.
  - change 31 with (Z.ones 5). rewrite Z.land_ones by lia.
    symmetry. apply Z.mod_small. change (2 ^ 5) with 32. lia.
Qed.

(** The top byte of [readInt32]: shifted by 24 it is read as signed. *)
Lemma js_shl_24 (b : Z) :
  0 <= b < 256 ->
  js_shl b 24 = (if b <? 128 then b else b - 256) * 2 ^ 24.
Proof.
  intros Hb. unfold js_shl. change (Z.land 24 31) with 24.
  rewrite (ToInt32_small b) by lia. rewrite Z.shiftl_mul_pow2 by lia.
  unfold ToInt32. destruct (Z.ltb_spec b 128).
  - rewrite Z.mod_small; lia.
  - replace (b * 2 ^ 24 + 2 ^ 31) with (b * 2 ^ 24 + 2 ^ 31 - 2 ^ 32 + 1 * 2 ^ 32)
      by lia.
    rewrite Z.mod_add by lia. rewrite Z.mod_small; lia.
Qed.

Lemma byte_or_zero_range (data : bytes) (i : Z) : 0 <= byte_or_zero data i < 256.
Proof.
  unfold byte_or_zero. destruct (get_cases data i) as [-> | [b [-> _]]];
    [ lia | apply byteZ_range ].
Qed.

Lemma num_get (data : bytes) (i : Z) : num (get data i) = byte_or_zero data i.
Proof.
  unfold byte_or_zero. destruct (get_cases data i) as [-> | [b [-> _]]];
    [ reflexivity | ].
  cbn [num]. apply ToInt32_small. pose proof (byteZ_range b). lia.
Qed.

Lemma readInt16_range (data : bytes) (p : Z) :
  readInt16 data p
  = (256 * byte_or_zero data p + byte_or_zero data (p + 1), p + 2) /\
  0 <= fst (readInt16 data p) < 65536.
Proof.
  pose proof (byte_or_zero_range data p) as H0.
  pose proof (byte_or_zero_range data (p + 1)) as H1.
  assert (E : readInt16 data p
              = (256 * byte_or_zero data p + byte_or_zero data (p + 1), p + 2)).
  { unfold readInt16. rewrite !num_get.
    rewrite js_shl_byte by lia.
    rewrite (js_or_disjoint (byte_or_zero data p) _ 8) by lia.
    f_equal. lia. }
  split; [ exact E | rewrite E; cbn [fst]; lia ].
Qed.

(** X1.  [readInt16] reads two bytes as a big-endian unsigned number, a byte
    past the end of the buffer counting as 0: the result is between 0 and
    65535, and the cursor moves by 2. *)
Theorem readInt16_big_endian (data : bytes) (p : Z) :
  readInt16 data p
  = (256 * byte_or_zero data p + byte_or_zero data (p + 1), p + 2) /\
  0 <= fst (readInt16 data p) < 65536.
Proof. apply readInt16_range. Qed.

Lemma readInt32_value (data : bytes) (p : Z) :
  let b0 := byte_or_zero data p in
  fst (readInt32 data p)
  = (if b0 <? 128 then b0 else b0 - 256) * 2 ^ 24
    + byte_or_zero data (p + 1) * 2 ^ 16
    + byte_or_zero data (p + 2) * 2 ^ 8
    + byte_or_zero data (p + 3).
Proof.
  intros b0.
  pose proof (byte_or_zero_range data p) as H0. fold b0 in H0.
  pose proof (byte_or_zero_range data (p + 1)) as H1.
  pose proof (byte_or_zero_range data (p + 2)) as H2.
  pose proof (byte_or_zero_range data (p + 3)) as H3.
  unfold readInt32. cbn [fst]. rewrite !num_get. fold b0.
  rewrite js_shl_24 by lia. rewrite !js_shl_byte by lia.
  set (k0 := if b0 <? 128 then b0 else b0 - 256).
  assert (Hk0 : - 128 <= k0 < 128) by (subst k0; destruct (Z.ltb_spec b0 128); lia).
  rewrite (js_or_disjoint k0 _ 24) by lia.
  replace (k0 * 2 ^ 24 + byte_or_zero data (p + 1) * 2 ^ 16)
    with ((k0 * 256 + byte_or_zero data (p + 1)) * 2 ^ 16) by lia.
  rewrite (js_or_disjoint _ _ 16) by lia.
  replace ((k0 * 256 + byte_or_zero data (p + 1)) * 2 ^ 16
           + byte_or_zero data (p + 2) * 2 ^ 8)
    with (((k0 * 256 + byte_or_zero data (p + 1)) * 256
           + byte_or_zero data (p + 2)) * 2 ^ 8) by lia.
  rewrite (js_or_disjoint _ _ 8) by lia.
  lia.
Qed.

(** X2.  [readInt32] reads four bytes as a big-endian number in two's
    complement, a byte past the end counting as 0: the unsigned value [u]
    when it is below 2^31, and [u - 2^32], a negative number, when the top
    bit of the first byte is set.  The cursor moves by 4. *)
Theorem readInt32_signed_big_endian (data : bytes) (p : Z) :
  let u := byte_or_zero data p * 2 ^ 24 + byte_or_zero data (p + 1) * 2 ^ 16
           + byte_or_zero data (p + 2) * 2 ^ 8 + byte_or_zero data (p + 3) in
  readInt32 data p = (if u <? 2 ^ 31 then u else u - 2 ^ 32, p + 4) /\
  (fst (readInt32 data p) < 0 <-> 128 <= byte_or_zero data p).
Proof.
  intros u.
  pose proof (readInt32_value data p) as Hv. cbv zeta in Hv.
  pose proof (byte_or_zero_range data p) as H0.
  pose proof (byte_or_zero_range data (p + 1)) as H1.
  pose proof (byte_or_zero_range data (p + 2)) as H2.
  pose proof (byte_or_zero_range data (p + 3)) as H3.
  assert (Hp : snd (readInt32 data p) = p + 4) by reflexivity.
  destruct (readInt32 data p) as [v p'] eqn:E. cbn [fst snd] in *. subst p'.
  destruct (Z.ltb_spec (byte_or_zero data p) 128);
    destruct (Z.ltb_spec u (2 ^ 31)); subst u; split; try f_equal; lia.
Qed.

(** ** readVarLength and readBytes *)

Lemma continues_truthy (data : bytes) (i : Z) :
  truthy (js_and (num (get data i)) 0x80) = continues data i.
Proof.
  unfold continues. destruct (get_cases data i) as [-> | [b [-> _]]];
    [ reflexivity | apply high_bit_byte ].
Qed.

Lemma readVarLength_loop_stops (data : bytes) (fuel : nat) :
  forall result p v p',
    readVarLength_loop fuel data result p = Some (v, p') ->
    (forall i, p <= i < p' - 1 -> continues data i = true) /\
    continues data (p' - 1) = false /\
    - 2 ^ 31 <= v < 2 ^ 31.
Proof.
  induction fuel as [ | fuel IH]; intros result p v p' H; [ discriminate | ].
  cbn [readVarLength_loop] in H. cbv zeta in H.
  rewrite continues_truthy in H.
  destruct (continues data p) eqn:Hc.
  - pose proof (readVarLength_loop_advances _ _ _ _ _ _ H) as Hadv.
    destruct (IH _ _ _ _ H) as [Hall [Hlast Hrange]].
    repeat split; try assumption; try lia.
    intros i Hi. destruct (Z.eq_dec i p) as [-> | Hne]; [ exact Hc | ].
    apply Hall. lia.
  - injection H as <- <-. replace (p + 1 - 1) with p by lia.
    repeat split; try assumption; try (intros i Hi; lia);
      unfold varlen_step, js_or; apply ToInt32_range.
Qed.

(** X3.  [readVarLength] returns on every buffer and at every cursor.  It
    consumes the bytes that have the high bit set and the one byte after
    them (which may lie past the end of the buffer), so the cursor stops
    just after the first byte without the high bit; the quantity it
    returns is a 32-bit signed integer. *)
Theorem readVarLength_stops_after_first_plain_byte (data : bytes) (p : Z) :
  exists v p',
    readVarLength data p = Some (v, p') /\
    p < p' /\
    (forall i, p <= i < p' - 1 -> continues data i = true) /\
    continues data (p' - 1) = false /\
    - 2 ^ 31 <= v < 2 ^ 31.
Proof.
  destruct (readVarLength_total data p) as [[v p'] H].
  exists v, p'. split; [ exact H | ].
  split; [ apply (readVarLength_advances _ _ _ _ H) | ].
  apply (readVarLength_loop_stops _ _ _ _ _ _ H).
Qed.

(** X4.  With a cursor and a count that are not negative, [readBytes]
    returns the [n] bytes at the cursor, or those that remain when the
    buffer holds fewer, and moves the cursor by [n] in either case. *)
Theorem readBytes_returns_available (data : bytes) (p n : Z) :
  0 <= p -> 0 <= n ->
  readBytes data p n
  = (firstn (Z.to_nat n) (skipn (Z.to_nat p) data), p + n) /\
  Z.of_nat (length (fst (readBytes data p n)))
  = Z.min n (Z.max 0 (Z.of_nat (length data) - p)).
Proof.
  intros Hp Hn.
  assert (E : readBytes data p n
              = (firstn (Z.to_nat n) (skipn (Z.to_nat p) data), p + n)).
  { unfold readBytes, slice, rel_index. f_equal.
    destruct (Z.ltb_spec p 0); [ lia | ].
    destruct (Z.ltb_spec (p + n) 0); [ lia | ].
    destruct (Z.le_gt_cases (Z.of_nat (length data)) p) as [Hout | Hin].
    - rewrite !skipn_all2 by lia. rewrite !firstn_nil. reflexivity.
    - rewrite (Z.min_l p) by lia.
      destruct (Z.le_gt_cases (p + n) (Z.of_nat (length data))) as [Hfit | Hcut].
      + rewrite Z.min_l by lia. f_equal. lia.
      + rewrite Z.min_r by lia.
        rewrite !firstn_all2; [ reflexivity | | ]; rewrite length_skipn; lia. }
  split; [ exact E | ].
  rewrite E. cbn [fst]. rewrite length_firstn, length_skipn. lia.
Qed.

Lemma readBytes_returns_available_witness :
  readBytes scenario_file 0 4 = ([x4d; x54; x68; x64], 0 + 4) /\
  readBytes scenario_file 32 4 = ([x2f; x00], 32 + 4) /\
  readBytes scenario_file 40 4 = ([], 40 + 4).
Proof.
  split; [ | split ].
  - apply (readBytes_returns_available scenario_file 0 4); lia.
  - apply (readBytes_returns_available scenario_file 32 4); lia.
  - apply (readBytes_returns_available scenario_file 40 4); lia.
Defined.

(** ** Events that are framed and skipped *)

(** A valid encoding of a value below 2^31 that ends where the rest of the
    buffer begins is decoded from its first byte. *)
Lemma readVarLength_framed (pre enc rest : bytes) :
  valid_varlen enc = true ->
  varlen_value enc < 2 ^ 31 ->
  readVarLength (pre ++ enc ++ rest) (Z.of_nat (length pre))
  = Some (varlen_value enc, Z.of_nat (length (pre ++ enc))).
Proof.
  intros Hvalid Hlt. unfold readVarLength, varlen_value.
  rewrite readVarLength_loop_decodes;
    [ | exact Hvalid | lia | exact Hlt | rewrite !length_app; lia ].
  rewrite length_app. do 2 f_equal. lia.
Qed.

(** X5.  A meta event ([ff], a type byte) or a system-exclusive event ([f0]
    or [f7]) that is well formed, that is a valid delta time, the event
    head, a valid length and as many payload bytes as the length says, is
    stepped over exactly: after the pass the cursor is on the byte that
    follows the payload, the delta time has been added to [currentTime],
    and [events] and [runningStatus] are as before. *)
Theorem framed_event_skipped
    (pre delta head len payload post : bytes) (type : byte) (st : state) :
  head = [xff; type] \/ head = [xf0] \/ head = [xf7] ->
  valid_varlen delta = true -> varlen_value delta < 2 ^ 31 ->
  valid_varlen len = true ->
  varlen_value len = Z.of_nat (length payload) ->
  Z.of_nat (length payload) < 2 ^ 31 ->
  pos st = Z.of_nat (length pre) ->
  parseEvent (pre ++ delta ++ head ++ len ++ payload ++ post) st
  = Some (mkState (Z.of_nat (length (pre ++ delta ++ head ++ len ++ payload)))
            (currentTime st + varlen_value delta)
            (runningStatus st) (events st)).
Proof.
  intros Hhead Hdelta Hdlt Hlen Hval Hplt Hpos.
  unfold parseEvent. rewrite Hpos.
  rewrite (readVarLength_framed pre delta) by assumption.
  set (data := pre ++ delta ++ head ++ len ++ payload ++ post).
  assert (Hread : readVarLength data (Z.of_nat (length (pre ++ delta ++ head)))
                  = Some (Z.of_nat (length payload),
                          Z.of_nat (length (pre ++ delta ++ head ++ len)))).
  { subst data.
    replace (pre ++ delta ++ head ++ len ++ payload ++ post)
      with ((pre ++ delta ++ head) ++ len ++ payload ++ post)
      by (rewrite <- !app_assoc; reflexivity).
    rewrite readVarLength_framed by (try assumption; lia).
    rewrite Hval. do 2 f_equal. rewrite <- !app_assoc. reflexivity. }
  assert (Hfinal : Z.of_nat (length (pre ++ delta ++ head ++ len))
                   + Z.of_nat (length payload)
                   = Z.of_nat (length (pre ++ delta ++ head ++ len ++ payload)))
    by (rewrite !length_app; lia).
  assert (Hget0 : forall b tl, head = b :: tl ->
            get data (Z.of_nat (length (pre ++ delta))) = Some (byteZ b)).
  { intros b tl ->. subst data.
    replace (pre ++ delta ++ (b :: tl) ++ len ++ payload ++ post)
      with ((pre ++ delta) ++ b :: tl ++ len ++ payload ++ post)
      by (rewrite <- !app_assoc; reflexivity).
    apply get_middle. }
  destruct Hhead as [-> | [-> | ->]];
    rewrite (Hget0 _ _ eq_refl); cbn [strict_eq byteZ]; 
    change (Z.of_N (Byte.to_N xff) =? 255) with true;
    try change (Z.of_N (Byte.to_N xf0) =? 255) with false;
    try change (Z.of_N (Byte.to_N xf7) =? 255) with false;
    try change (Z.of_N (Byte.to_N xf0) =? 240) with true;
    try change (Z.of_N (Byte.to_N xf7) =? 240) with false;
    try change (Z.of_N (Byte.to_N xf7) =? 247) with true;
    cbn [orb]; cbv iota.
  - replace (Z.of_nat (length (pre ++ delta)) + 1 + 1)
      with (Z.of_nat (length (pre ++ delta ++ [xff; type])))
      by (rewrite !length_app; cbn [length]; lia).
    rewrite Hread. unfold readBytes. rewrite Hfinal. reflexivity.
  - replace (Z.of_nat (length (pre ++ delta)) + 1)
      with (Z.of_nat (length (pre ++ delta ++ [xf0])))
      by (rewrite !length_app; cbn [length]; lia).
    rewrite Hread. unfold readBytes. rewrite Hfinal. reflexivity.
  - replace (Z.of_nat (length (pre ++ delta)) + 1)
      with (Z.of_nat (length (pre ++ delta ++ [xf7])))
      by (rewrite !length_app; cbn [length]; lia).
    rewrite Hread. unfold readBytes. rewrite Hfinal. reflexivity.
Qed.

Lemma framed_event_skipped_witness :
  parseEvent (firstn 30 scenario_file ++ [x00] ++ [xff; x2f] ++ [x00] ++ [] ++ [])
    (mkState 30 96 (Some 0x80) [])
  = Some (mkState 34 (96 + 0) (Some 0x80) []) /\
  parseEvent ([] ++ [x81; x00] ++ [xf0] ++ [x03] ++ [x01; x02; x03] ++ [xf7])
    (mkState 0 0 (Some 0) [])
  = Some (mkState 7 (0 + 128) (Some 0) []).
Proof.
  split.
  - apply (framed_event_skipped (firstn 30 scenario_file) [x00] [xff; x2f] [x00]
             [] [] x2f (mkState 30 96 (Some 0x80) []));
      solve [ auto | reflexivity ].
  - apply (framed_event_skipped [] [x81; x00] [xf0] [x03] [x01; x02; x03] [xf7]
             x00 (mkState 0 0 (Some 0) []));
      solve [ auto | reflexivity ].
Defined.

(** ** What parse and parseTrack return *)

Lemma parseTracks_length (fuel : nat) (data : bytes) (division : Z) (n : nat) :
  forall tracks p tracks' p',
    parseTracks fuel data division n tracks p = Some (tracks', p') ->
    length tracks' = (length tracks + n)%nat.
Proof.
  induction n as [ | n IH]; intros tracks p tracks' p' H; cbn [parseTracks] in H.
  - injection H as <- _. lia.
  - destruct (parseTrack fuel data division p) as [[t p1] | ]; [ | discriminate ].
    apply IH in H. rewrite length_app in H. cbn [length] in H. lia.
Qed.

(** The fields of the Sequence that [parse] returns, read off one by one. *)
Lemma parse_fields (fuel : nat) (data : bytes) (s : Sequence) :
  parse fuel data = Some s ->
  format s = fst (readInt16 data 8) /\
  trackCount s = fst (readInt16 data 10) /\
  division s = fst (readInt16 data 12) /\
  maxTime s = compute_maxTime (tracks s) /\
  exists p',
    parseTracks fuel data (fst (readInt16 data 12))
      (Z.to_nat (fst (readInt16 data 10))) [] 14 = Some (tracks s, p').
Proof.
  rewrite parse_unfold. intros H.
  destruct (parseTracks fuel data _ _ [] 14) as [[ts p'] | ] eqn:Hts;
    [ | discriminate ].
  assert (Hf : option_map format (Some s) = Some (fst (readInt16 data 8)))
    by (rewrite <- H; reflexivity).
  assert (Hc : option_map trackCount (Some s) = Some (fst (readInt16 data 10)))
    by (rewrite <- H; reflexivity).
  assert (Hd : option_map division (Some s) = Some (fst (readInt16 data 12)))
    by (rewrite <- H; reflexivity).
  assert (Ht : option_map tracks (Some s) = Some ts)
    by (rewrite <- H; reflexivity).
  assert (Hm : option_map maxTime (Some s) = Some (compute_maxTime ts))
    by (rewrite <- H; reflexivity).
  cbn [option_map] in *.
  assert (Ets : tracks s = ts) by congruence.
  repeat split; try congruence.
  exists p'. rewrite Ets. reflexivity.
Qed.

(** X6.  The Sequence that [parse] returns holds as many tracks as its
    [trackCount] says, and its [format], [trackCount] and [division] are
    between 0 and 65535. *)
Theorem parse_returns_trackCount_tracks (fuel : nat) (data : bytes) (s : Sequence) :
  parse fuel data = Some s ->
  Z.of_nat (length (tracks s)) = trackCount s /\
  0 <= format s < 65536 /\
  0 <= trackCount s < 65536 /\
  0 <= division s < 65536.
Proof.
  intros H.
  destruct (parse_fields _ _ _ H) as [Hf [Hc [Hd [_ [p' Hts]]]]].
  apply parseTracks_length in Hts. cbn [length] in Hts.
  rewrite Hf, Hc, Hd.
  pose proof (proj2 (readInt16_range data 8)).
  pose proof (proj2 (readInt16_range data 10)).
  pose proof (proj2 (readInt16_range data 12)).
  repeat split; lia.
Qed.

Lemma parse_returns_trackCount_tracks_witness :
  Z.of_nat (length [mkTrack [noteOn 0 (Some 60) (Some 64); noteOff 96 (Some 60)]])
  = 1 /\
  0 <= 0 < 65536 /\ 0 <= 1 < 65536 /\ 0 <= 96 < 65536.
Proof.
  apply (parse_returns_trackCount_tracks 3 scenario_file
           (mkSequence 0 1 96
              [mkTrack [noteOn 0 (Some 60) (Some 64); noteOff 96 (Some 60)]]
              (Num 96))).
  reflexivity.
Defined.

(** ** The events of a track *)

Lemma get_is_byte (data : bytes) (i : Z) :
  0 <= i < Z.of_nat (length data) -> is_byte (get data i).
Proof.
  intros H. destruct (get_inside data i H) as [b E].
  exists (byteZ b). split; [ exact E | apply byteZ_range ].
Qed.

Lemma get_Some_inside (data : bytes) (i z : Z) :
  get data i = Some z -> 0 <= i < Z.of_nat (length data).
Proof.
  intros H. destruct (get_cases data i) as [E | [b [_ Hi]]]; [ congruence | exact Hi ].
Qed.

Lemma classify_wf (data : bytes) (p : Z) (status : jsval) (t : Z) :
  0 <= p ->
  Forall event_wf (classify status t (get data (p + 1)) (get data (p + 1 + 1))).
Proof.
  intros Hp. unfold classify.
  destruct (_ && gt _ _) eqn:Hon.
  - apply andb_prop in Hon as [_ Hgt]. unfold gt in Hgt.
    destruct (get data (p + 1 + 1)) as [v | ] eqn:Hv; [ | discriminate ].
    pose proof (get_Some_inside _ _ _ Hv) as Hin.
    destruct (get_is_byte data (p + 1 + 1) Hin) as [v' [Ev Hrange]].
    rewrite Hv in Ev. injection Ev as <-.
    constructor; [ | constructor ]. cbn [event_wf]. split.
    + apply get_is_byte. lia.
    + exists v. split; [ reflexivity | lia ].
  - destruct (_ || _); [ | constructor ].
    constructor; [ | constructor ]. cbn [event_wf].
    destruct (get_cases data (p + 1)) as [-> | [b [E Hi]]]; [ now left | right ].
    apply get_is_byte. exact Hi.
Qed.

Lemma parseEvent_wf (data : bytes) (st st' : state) :
  parseEvent data st = Some st' ->
  Forall event_wf (events st) -> Forall event_wf (events st').
Proof.
  intros H Hwf. unfold parseEvent in H.
  destruct (readVarLength data (pos st)) as [[deltaTime p] | ]; [ | discriminate ].
  destruct (strict_eq (get data p) 255).
  { destruct (readVarLength data (p + 1 + 1)) as [[len p'] | ]; [ | discriminate ].
    unfold readBytes in H. injection H as <-. exact Hwf. }
  destruct (strict_eq (get data p) 240 || strict_eq (get data p) 247).
  { destruct (readVarLength data (p + 1)) as [[len p'] | ]; [ | discriminate ].
    unfold readBytes in H. injection H as <-. exact Hwf. }
  destruct (truthy (js_and (num (get data p)) 128)) eqn:Hhigh;
    injection H as <-; cbn [events]; [ | exact Hwf ].
  apply Forall_app. split; [ exact Hwf | ].
  apply classify_wf. apply high_bit_inside in Hhigh. lia.
Qed.

Lemma parseTrack_loop_wf (data : bytes) (trackEnd : Z) (fuel : nat) :
  forall st st',
    parseTrack_loop fuel data trackEnd st = Some st' ->
    Forall event_wf (events st) -> Forall event_wf (events st').
Proof.
  induction fuel as [ | fuel IH]; intros st st' H Hwf;
    cbn [parseTrack_loop] in H;
    destruct (pos st <? trackEnd); try discriminate;
    try (injection H as <-; exact Hwf).
  destruct (parseEvent data st) as [st1 | ] eqn:Hst1; [ | discriminate ].
  apply (IH st1 st' H). apply (parseEvent_wf data st st1 Hst1 Hwf).
Qed.

Lemma parseTrack_wf (fuel : nat) (data : bytes) (division p : Z) (t : track) (p' : Z) :
  parseTrack fuel data division p = Some (t, p') ->
  Forall event_wf (track_events t).
Proof.
  unfold parseTrack, readBytes. intros H.
  destruct (readInt32 data (p + 4)) as [trackLength p1].
  destruct (parseTrack_loop fuel data _ _) as [st' | ] eqn:Hloop; [ | discriminate ].
  injection H as <- _. cbn [track_events].
  apply (parseTrack_loop_wf _ _ _ _ _ Hloop). constructor.
Qed.

Lemma parseTracks_wf (fuel : nat) (data : bytes) (division : Z) (n : nat) :
  forall tracks p tracks' p',
    parseTracks fuel data division n tracks p = Some (tracks', p') ->
    Forall (fun t => Forall event_wf (track_events t)) tracks ->
    Forall (fun t => Forall event_wf (track_events t)) tracks'.
Proof.
  induction n as [ | n IH]; intros tracks p tracks' p' H Hwf;
    cbn [parseTracks] in H.
  - injection H as <- _. exact Hwf.
  - destruct (parseTrack fuel data division p) as [[t p1] | ] eqn:Ht;
      [ | discriminate ].
    apply (IH _ _ _ _ H). apply Forall_app. split; [ exact Hwf | ].
    constructor; [ | constructor ]. apply (parseTrack_wf _ _ _ _ _ _ Ht).
Qed.

(** X7.  In every track of the Sequence that [parse] returns, a note on
    holds a note between 0 and 255 and a velocity between 1 and 255 (never
    0, never [undefined]), and a note off holds a note between 0 and 255
    or, when the buffer ended on its status byte, [undefined]. *)
Theorem parse_events_well_formed (fuel : nat) (data : bytes) (s : Sequence) :
  parse fuel data = Some s ->
  forall t e, In t (tracks s) -> In e (track_events t) -> event_wf e.
Proof.
  intros H t e Ht He.
  destruct (parse_fields _ _ _ H) as [_ [_ [_ [_ [p' Hts]]]]].
  apply parseTracks_wf in Hts; [ | constructor ].
  rewrite Forall_forall in Hts. specialize (Hts t Ht).
  rewrite Forall_forall in Hts. exact (Hts e He).
Qed.

Lemma parse_events_well_formed_witness :
  event_wf (noteOn 0 (Some 60) (Some 64)) /\ event_wf (noteOff 96 (Some 60)).
Proof.
  split;
    apply (parse_events_well_formed 3 scenario_file
             (mkSequence 0 1 96
                [mkTrack [noteOn 0 (Some 60) (Some 64); noteOff 96 (Some 60)]]
                (Num 96)) eq_refl
             (mkTrack [noteOn 0 (Some 60) (Some 64); noteOff 96 (Some 60)]));
    cbn; auto.
Defined.

(** ** maxTime with at least one track *)

Lemma fold_max_bound (l : list Z) :
  forall a x, In x l -> x <= fold_left Z.max l a.
Proof.
  induction l as [ | y l IH]; intros a x Hin; [ contradiction | ].
  cbn [fold_left]. destruct Hin as [-> | Hin].
  - pose proof (fold_max_ge l (Z.max a x)). lia.
  - apply IH. exact Hin.
Qed.

Lemma fold_max_attained (l : list Z) :
  forall a, fold_left Z.max l a = a \/ In (fold_left Z.max l a) l.
Proof.
  induction l as [ | y l IH]; intros a; cbn [fold_left]; [ now left | ].
  destruct (IH (Z.max a y)) as [E | Hin].
  - rewrite E. destruct (Z.max_spec a y) as [[_ ->] | [_ ->]];
      [ right; now left | now left ].
  - right. now right.
Qed.

Lemma in_all_times (tracks : list track) (x : Z) :
  In x (all_times tracks) <->
  exists t e, In t tracks /\ In e (track_events t) /\ time e = x.
Proof.
  unfold all_times. rewrite in_flat_map. split.
  - intros [t [Ht Hx]]. apply in_map_iff in Hx as [e [He Hin]]. eauto.
  - intros [t [e [Ht [He Hx]]]]. exists t. split; [ exact Ht | ].
    apply in_map_iff. eauto.
Qed.

(** X8.  When the header declares one track or more, [maxTime] of the
    Sequence that [parse] returns is a number that is not negative, no
    event of any track is later than it, and it is 0 or the time of one of
    the events. *)
Theorem maxTime_bounds_every_event (fuel : nat) (data : bytes) (s : Sequence) :
  parse fuel data = Some s ->
  0 < trackCount s ->
  exists m,
    maxTime s = Num m /\ 0 <= m /\
    (forall t e, In t (tracks s) -> In e (track_events t) -> time e <= m) /\
    (m = 0 \/ exists t e, In t (tracks s) /\ In e (track_events t) /\ time e = m).
Proof.
  intros H Hcount.
  destruct (parse_fields _ _ _ H) as [_ [Hc [_ [Hmax [p' Hts]]]]].
  apply parseTracks_length in Hts. cbn [length] in Hts.
  destruct (tracks s) as [ | t0 ts] eqn:Etracks; [ cbn [length] in Hts; lia | ].
  exists (fold_left Z.max (all_times (t0 :: ts)) 0).
  split; [ rewrite Hmax; apply maxTime_with_tracks | ].
  split; [ apply fold_max_ge | ].
  split.
  - intros t e Ht He. apply fold_max_bound. apply in_all_times. eauto.
  - destruct (fold_max_attained (all_times (t0 :: ts)) 0) as [E | Hin];
      [ now left | right ].
    apply in_all_times in Hin. exact Hin.
Qed.

Lemma maxTime_bounds_every_event_witness :
  exists m,
    Num 96 = Num m /\ 0 <= m /\
    (forall t e,
        In t [mkTrack [noteOn 0 (Some 60) (Some 64); noteOff 96 (Some 60)]] ->
        In e (track_events t) -> time e <= m) /\
    (m = 0 \/
     exists t e,
       In t [mkTrack [noteOn 0 (Some 60) (Some 64); noteOff 96 (Some 60)]] /\
       In e (track_events t) /\ time e = m).
Proof.
  apply (maxTime_bounds_every_event 3 scenario_file
           (mkSequence 0 1 96
              [mkTrack [noteOn 0 (Some 60) (Some 64); noteOff 96 (Some 60)]]
              (Num 96)));
    [ reflexivity | cbn; lia ].
Defined.

(** ** The cursor after a track *)

Lemma parseTrack_loop_leaves (data : bytes) (trackEnd : Z) (fuel : nat) :
  forall st st',
    parseTrack_loop fuel data trackEnd st = Some st' ->
    trackEnd <= pos st' /\ (trackEnd <= pos st -> st' = st).
Proof.
  induction fuel as [ | fuel IH]; intros st st' H; cbn [parseTrack_loop] in H;
    destruct (Z.ltb_spec (pos st) trackEnd) as [Hlt | Hge]; try discriminate;
    try (injection H as <-; split; [ lia | reflexivity ]).
  destruct (parseEvent data st) as [st1 | ]; [ | discriminate ].
  destruct (IH _ _ H) as [Hend _]. split; [ exact Hend | lia ].
Qed.

(** X9.  When [parseTrack] returns, the cursor is at or past the end offset
    that the chunk declares, and at least 8 bytes past the start of the
    chunk: the next chunk is never read from inside the declared extent of
    this one. *)
Theorem parseTrack_leaves_cursor_past_end
    (fuel : nat) (data : bytes) (division p : Z) (t : track) (p' : Z) :
  parseTrack fuel data division p = Some (t, p') ->
  p + 8 <= p' /\ p + 8 + fst (readInt32 data (p + 4)) <= p'.
Proof.
  unfold parseTrack, readBytes. intros H.
  destruct (readInt32 data (p + 4)) as [trackLength p1] eqn:Hlen.
  assert (Hp1 : p1 = p + 4 + 4) by (unfold readInt32 in Hlen; congruence).
  subst p1. cbn [fst].
  destruct (parseTrack_loop fuel data _ _) as [st' | ] eqn:Hloop; [ | discriminate ].
  injection H as _ <-.
  destruct (parseTrack_loop_leaves _ _ _ _ _ Hloop) as [Hend Hsame].
  cbn [pos] in Hsame.
  destruct (Z.le_gt_cases (p + 4 + 4 + trackLength) (p + 4 + 4)) as [Hle | Hgt].
  - rewrite (Hsame Hle) in *. cbn [pos] in *. lia.
  - lia.
Qed.

Lemma parseTrack_leaves_cursor_past_end_witness :
  14 + 8 <= 26 /\ 14 + 8 + fst (readInt32 overrun_file (14 + 4)) <= 26.
Proof.
  apply (parseTrack_leaves_cursor_past_end 1 overrun_file 96 14
           (mkTrack [noteOn 0 (Some 60) (Some 64)]) 26).
  reflexivity.
Defined.

(** X10.  A track chunk whose declared length has its top bit set is read
    as a chunk of negative length: [parseTrack] decodes no event and leaves
    the cursor just after the 8 bytes of tag and length, whatever the
    fuel. *)
Theorem huge_track_length_reads_as_empty
    (fuel : nat) (data : bytes) (division p b : Z) :
  get data (p + 4) = Some b -> 128 <= b ->
  parseTrack fuel data division p = Some (mkTrack [], p + 8).
Proof.
  intros Hb Hhigh.
  assert (Hneg : fst (readInt32 data (p + 4)) < 0).
  { rewrite readInt32_value. cbv zeta.
    assert (E : byte_or_zero data (p + 4) = b) by (unfold byte_or_zero; rewrite Hb; reflexivity).
    rewrite E.
    destruct (get_Some_byte _ _ _ Hb) as [b' ->].
    pose proof (byteZ_range b').
    pose proof (byte_or_zero_range data (p + 4 + 1)).
    pose proof (byte_or_zero_range data (p + 4 + 2)).
    pose proof (byte_or_zero_range data (p + 4 + 3)).
    destruct (Z.ltb_spec (byteZ b') 128); lia. }
  unfold parseTrack, readBytes.
  destruct (readInt32 data (p + 4)) as [trackLength p1] eqn:Hlen.
  assert (Hp1 : p1 = p + 4 + 4) by (unfold readInt32 in Hlen; congruence).
  subst p1. cbn [fst] in Hneg.
  rewrite parseTrack_loop_exit by (cbn [pos]; lia).
  cbn [events pos]. do 2 f_equal. lia.
Qed.

Lemma huge_track_length_reads_as_empty_witness :
  parseTrack 0
    (header_one_track ++ [x4d; x54; x72; x6b; x80; x00; x00; x04] ++
     [x00; x90; x3c; x40]) 96 14
  = Some (mkTrack [], 14 + 8).
Proof.
  apply (huge_track_length_reads_as_empty 0 _ 96 14 128);
    [ reflexivity | lia ].
Defined.

(** * The key mapping *)

Ltac twelve_cases c H :=
  let E := fresh "E" in
  assert (E : c = 0 \/ c = 1 \/ c = 2 \/ c = 3 \/ c = 4 \/ c = 5 \/ c = 6 \/
              c = 7 \/ c = 8 \/ c = 9 \/ c = 10 \/ c = 11) by lia;
  clear H;
  repeat (destruct E as [E | E]; [ subst c | ]); [ .. | subst c ].

Lemma class_lookup (c : Z) :
  0 <= c < 12 ->
  array_at NOTE_NAMES (Some c) = Some (class_name c) /\
  object_at ROBLOX_KEYS (Some (class_name c)) = key_string (class_key c) /\
  class_key c <> ""%string.
Proof.
  intros H. twelve_cases c H; repeat split; discriminate.
Qed.

Lemma rem12_nonneg (n : Z) : 0 <= n -> rem12 (Some n) = Some (n mod 12).
Proof.
  intros H. unfold rem12. cbn [option_map]. rewrite Z.rem_mod_nonneg by lia.
  reflexivity.
Qed.

(** The result of [midiNoteToKey] on a note that is not negative and an
    offset that is a number: [null] outside the octaves 4 to 8, the key of
    the pitch class inside. *)
Lemma midiNoteToKey_number (n off : Z) :
  0 <= n ->
  midiNoteToKey (Some n) (Some off)
  = if (n / 12 - 1 + off <? 4) || (8 <? n / 12 - 1 + off) then key_null
    else key_string (class_key (n mod 12)).
Proof.
  intros Hn. unfold midiNoteToKey, floor_div12. cbn [option_map js_add js_lt js_gt].
  replace (n / 12 + -1 + off) with (n / 12 - 1 + off) by lia.
  destruct (_ || _); [ reflexivity | ].
  rewrite rem12_nonneg by exact Hn.
  pose proof (Z.mod_pos_bound n 12 ltac:(lia)) as Hc.
  destruct (class_lookup _ Hc) as [-> [-> _]]. reflexivity.
Qed.

(** X11.  For a note that is not negative and an octave offset that is a
    number, [midiNoteToKey] returns a key, the one of the pitch class and
    never the empty string, exactly for the notes from [60 - 12 * offset]
    to [119 - 12 * offset] (octaves 4 to 8 after the offset), and [null]
    for every other note. *)
Theorem midiNoteToKey_playable_range (n off : Z) :
  0 <= n ->
  (60 - 12 * off <= n <= 119 - 12 * off ->
   midiNoteToKey (Some n) (Some off) = key_string (class_key (n mod 12)) /\
   class_key (n mod 12) <> ""%string) /\
  (n < 60 - 12 * off \/ 119 - 12 * off < n ->
   midiNoteToKey (Some n) (Some off) = key_null).
Proof.
  intros Hn. rewrite midiNoteToKey_number by exact Hn.
  pose proof (Z.div_mod n 12 ltac:(lia)) as Hdm.
  pose proof (Z.mod_pos_bound n 12 ltac:(lia)) as Hc.
  split; intros Hrange;
    destruct (Z.ltb_spec (n / 12 - 1 + off) 4);
    destruct (Z.ltb_spec 8 (n / 12 - 1 + off)); cbn [orb];
    try reflexivity; try lia.
  split; [ reflexivity | apply (class_lookup _ Hc) ].
Qed.

Lemma midiNoteToKey_playable_range_witness :
  (60 - 12 * 0 <= 61 <= 119 - 12 * 0 ->
   midiNoteToKey (Some 61) (Some 0) = key_string (class_key (61 mod 12)) /\
   class_key (61 mod 12) <> ""%string) /\
  (61 < 60 - 12 * 0 \/ 119 - 12 * 0 < 61 ->
   midiNoteToKey (Some 61) (Some 0) = key_null).
Proof. apply (midiNoteToKey_playable_range 61 0). lia. Defined.

(** X12.  Moving a note up by an octave and the offset down by one gives
    the same key: [midiNoteToKey] depends on the note and the offset only
    through the pitch class and the shifted octave. *)
Theorem midiNoteToKey_octave_shift (n off : Z) :
  0 <= n ->
  midiNoteToKey (Some (n + 12)) (Some (off - 1)) = midiNoteToKey (Some n) (Some off).
Proof.
  intros Hn. rewrite !midiNoteToKey_number by lia.
  replace (n + 12) with (n + 1 * 12) by lia.
  rewrite Z.div_add, Z.mod_add by lia.
  replace (n / 12 + 1 - 1 + (off - 1)) with (n / 12 - 1 + off) by lia.
  reflexivity.
Qed.

Lemma midiNoteToKey_octave_shift_witness :
  midiNoteToKey (Some (50 + 12)) (Some (1 - 1)) = midiNoteToKey (Some 50) (Some 1).
Proof. apply (midiNoteToKey_octave_shift 50 1). lia. Defined.

Lemma class_key_inj (c d : Z) :
  0 <= c < 12 -> 0 <= d < 12 -> class_key c = class_key d -> c = d.
Proof.
  intros Hc Hd. twelve_cases c Hc; twelve_cases d Hd;
    intros E; solve [ reflexivity | discriminate E ].
Qed.

(** The result of [midiNoteToKey] when the offset is [NaN]: no octave is
    refused. *)
Lemma midiNoteToKey_NaN (n : Z) :
  0 <= n -> midiNoteToKey (Some n) None = key_string (class_key (n mod 12)).
Proof.
  intros Hn. unfold midiNoteToKey, floor_div12. cbn [option_map js_add js_lt js_gt orb].
  rewrite rem12_nonneg by exact Hn.
  pose proof (Z.mod_pos_bound n 12 ltac:(lia)) as Hc.
  destruct (class_lookup _ Hc) as [-> [-> _]]. reflexivity.
Qed.

Lemma midiNoteToKey_class (n : Z) (off : jsnumber) (k : String.string) :
  0 <= n -> midiNoteToKey (Some n) off = key_string k -> k = class_key (n mod 12).
Proof.
  intros Hn H. destruct off as [off | ].
  - rewrite midiNoteToKey_number in H by exact Hn.
    destruct (_ || _); [ discriminate | congruence ].
  - rewrite midiNoteToKey_NaN in H by exact Hn. congruence.
Qed.

(** X13.  The twelve pitch classes have twelve different keys: two notes
    that [midiNoteToKey] maps to the same key, under whatever offsets, are
    a whole number of octaves apart. *)
Theorem midiNoteToKey_key_determines_pitch_class
    (n m : Z) (off off' : jsnumber) (k : String.string) :
  0 <= n -> 0 <= m ->
  midiNoteToKey (Some n) off = key_string k ->
  midiNoteToKey (Some m) off' = key_string k ->
  n mod 12 = m mod 12.
Proof.
  intros Hn Hm En Em.
  apply midiNoteToKey_class in En; [ | exact Hn ].
  apply midiNoteToKey_class in Em; [ | exact Hm ].
  apply class_key_inj; try (apply Z.mod_pos_bound; lia). congruence.
Qed.

Lemma midiNoteToKey_key_determines_pitch_class_witness : 61 mod 12 = 97 mod 12.
Proof.
  apply (midiNoteToKey_key_determines_pitch_class 61 97 (Some 0) None "Q"%string);
    solve [ lia | reflexivity ].
Defined.

(** X14.  What [midiNoteToKey] does on the values that are not numbers.
    When the note is [undefined] the result is [undefined], whatever the
    offset.  When the offset is [NaN] (a field that [parseInt] could not
    read), the two comparisons of the octave are false and every note that
    is not negative gets the key of its pitch class, whatever its octave. *)
Theorem midiNoteToKey_without_numbers (n : Z) (off : jsnumber) :
  0 <= n ->
  midiNoteToKey None off = key_undefined /\
  midiNoteToKey (Some n) None = key_string (class_key (n mod 12)).
Proof.
  intros Hn. split; [ | apply midiNoteToKey_NaN; exact Hn ].
  unfold midiNoteToKey. destruct off; reflexivity.
Qed.

Lemma midiNoteToKey_without_numbers_witness :
  midiNoteToKey None (Some 0) = key_undefined /\
  midiNoteToKey (Some 0) None = key_string (class_key (0 mod 12)).
Proof. apply (midiNoteToKey_without_numbers 0 (Some 0)). lia. Defined.

(** ** Note names *)

Lemma to_int_proper (z : Z) :
  Z.to_int z <> Decimal.Pos Decimal.Nil /\ Z.to_int z <> Decimal.Neg Decimal.Nil.
Proof.
  destruct z as [ | p | p]; cbn [Z.to_int]; split; try discriminate;
    intros E; injection E as E; exact (DecimalPos.Unsigned.to_uint_nonnil _ E).
Qed.

Lemma number_string_inj (a b : Z) :
  number_string (Some a) = number_string (Some b) -> a = b.
Proof.
  cbn [number_string]. intros E.
  apply (f_equal DecimalString.NilZero.int_of_string) in E.
  destruct (to_int_proper a) as [Ha1 Ha2]. destruct (to_int_proper b) as [Hb1 Hb2].
  rewrite !DecimalString.NilZero.isi in E by assumption.
  injection E as E. apply DecimalZ.to_int_inj. exact E.
Qed.

Lemma uint_string_head (d : Decimal.uint) :
  plain_head (DecimalString.NilZero.string_of_uint d).
Proof.
  destruct d; cbn; eexists; eexists; (split; [ reflexivity | discriminate ]).
Qed.

Lemma number_string_head (z : Z) : plain_head (number_string (Some z)).
Proof.
  cbn [number_string]. destruct z as [ | p | p]; cbn [Z.to_int];
    unfold DecimalString.NilZero.string_of_int.
  - apply uint_string_head.
  - apply uint_string_head.
  - eexists; eexists; split; [ reflexivity | discriminate ].
Qed.

Lemma name_append_inj (c d : Z) (s t : String.string) :
  0 <= c < 12 -> 0 <= d < 12 -> plain_head s -> plain_head t ->
  String.append (class_name c) s = String.append (class_name d) t ->
  c = d /\ s = t.
Proof.
  intros Hc Hd [cs [rs [-> Hcs]]] [ct [rt [-> Hct]]].
  twelve_cases c Hc; twelve_cases d Hd; cbn; intros E;
    solve [ discriminate E
          | injection E as E1 E2; subst; split; reflexivity
          | injection E as E1 E2; subst; contradiction ].
Qed.

Lemma getMidiNoteName_number (n : Z) :
  0 <= n ->
  getMidiNoteName (Some n)
  = Name (String.append (class_name (n mod 12))
            (number_string (Some (n / 12 - 1)))).
Proof.
  intros Hn. unfold getMidiNoteName, floor_div12. cbn [option_map js_add].
  rewrite rem12_nonneg by exact Hn.
  pose proof (Z.mod_pos_bound n 12 ltac:(lia)) as Hc.
  destruct (class_lookup _ Hc) as [-> _]. cbv iota.
  replace (n / 12 + -1) with (n / 12 - 1) by lia. reflexivity.
Qed.

(** X15.  [getMidiNoteName] gives different names to different notes: a
    note that is not negative can be read back from its name, which is the
    name of its pitch class followed by its octave number in decimal,
    [note / 12 - 1]. *)
Theorem getMidiNoteName_injective (n m : Z) :
  0 <= n -> 0 <= m ->
  getMidiNoteName (Some n) = getMidiNoteName (Some m) -> n = m.
Proof.
  intros Hn Hm E. rewrite !getMidiNoteName_number in E by assumption.
  injection E as E.
  apply name_append_inj in E;
    try (apply Z.mod_pos_bound; lia); try apply number_string_head.
  destruct E as [Hclass Hoct]. apply number_string_inj in Hoct.
  pose proof (Z.div_mod n 12 ltac:(lia)). pose proof (Z.div_mod m 12 ltac:(lia)).
  lia.
Qed.

Lemma getMidiNoteName_injective_witness : 60 = 60.
Proof.
  apply (getMidiNoteName_injective 60 60); solve [ lia | reflexivity ].
Defined.

(** * The note extraction *)

Section ExtractNotes.

Variable octaveOffset : jsnumber.
Variable scale : Z -> Z.

Lemma extract_all_stream (tracks : list track) :
  forall acc,
    fold_left (fun acc t => fold_left (extract_event octaveOffset scale) (track_events t) acc) tracks acc
    = fold_left (extract_event octaveOffset scale) (all_events tracks) acc.
Proof.
  induction tracks as [ | t tracks IH]; intros acc; [ reflexivity | ].
  cbn [fold_left all_events flat_map]. rewrite fold_left_app. apply IH.
Qed.

(** ** The sort *)

Lemma insert_by_time_perm (x : note_entry) (l : list note_entry) :
  Permutation (insert_by_time x l) (x :: l).
Proof.
  induction l as [ | y l IH]; cbn [insert_by_time]; [ reflexivity | ].
  destruct (n_time x <? n_time y); [ reflexivity | ].
  rewrite IH. apply perm_swap.
Qed.

Lemma insert_by_time_sorted (x : note_entry) (l : list note_entry) :
  Sorted time_le l -> Sorted time_le (insert_by_time x l).
Proof.
  induction 1 as [ | y l Hsorted IH Hhd]; cbn [insert_by_time];
    [ repeat constructor | ].
  destruct (Z.ltb_spec (n_time x) (n_time y)) as [Hlt | Hge].
  - repeat constructor; [ assumption | assumption | unfold time_le; lia ].
  - constructor; [ exact IH | ].
    destruct l as [ | z l]; cbn [insert_by_time].
    + constructor. unfold time_le. lia.
    + destruct (n_time x <? n_time z); constructor;
        [ unfold time_le; lia | inversion Hhd; assumption ].
Qed.

Lemma insert_by_time_at_time (x : note_entry) (l : list note_entry) (t : Z) :
  Sorted time_le l ->
  at_time t (insert_by_time x l) = at_time t (l ++ [x]).
Proof.
  intros Hsorted. apply Sorted_StronglySorted in Hsorted;
    [ | intros a b c; unfold time_le; lia ].
  induction Hsorted as [ | y l Hsorted IH Hall]; cbn [insert_by_time];
    [ reflexivity | ].
  destruct (Z.ltb_spec (n_time x) (n_time y)) as [Hlt | Hge].
  - unfold at_time. cbn [filter app]. rewrite filter_app. cbn [filter].
    destruct (Z.eqb_spec (n_time x) t) as [Ex | Nx].
    + assert (Hy : (n_time y =? t) = false) by lia. rewrite Hy.
      assert (Hnone : filter (fun r => n_time r =? t) l = []).
      { clear - Hall Hlt Ex. induction Hall as [ | z l Hz Hall IH];
          [ reflexivity | ].
        cbn [filter]. unfold time_le in Hz.
        assert (Hzt : (n_time z =? t) = false) by lia.
        rewrite Hzt. exact IH. }
      rewrite Hnone. reflexivity.
    + rewrite app_nil_r. reflexivity.
  - unfold at_time in *. cbn [filter app]. rewrite IH. reflexivity.
Qed.

Lemma sort_by_time_spec (l : list note_entry) :
  forall acc,
    Sorted time_le acc ->
    let sorted := fold_left (fun sorted x => insert_by_time x sorted) l acc in
    Sorted time_le sorted /\ Permutation sorted (acc ++ l) /\
    forall t, at_time t sorted = at_time t (acc ++ l).
Proof.
  induction l as [ | x l IH]; intros acc Hacc; cbn [fold_left].
  - rewrite app_nil_r. split; [ exact Hacc | split; reflexivity ].
  - destruct (IH (insert_by_time x acc) (insert_by_time_sorted x acc Hacc))
      as [Hs [Hp Ht]].
    cbv zeta in *. split; [ exact Hs | split ].
    + rewrite Hp. rewrite insert_by_time_perm.
      change (acc ++ x :: l) with (acc ++ [x] ++ l).
      rewrite app_assoc. apply Permutation_app_tail.
      apply Permutation_cons_append.
    + intros t. rewrite Ht. unfold at_time in *.
      rewrite !filter_app.
      pose proof (insert_by_time_at_time x acc t Hacc) as Hins.
      unfold at_time in Hins. rewrite Hins.
      rewrite filter_app. cbn [filter].
      rewrite <- app_assoc. f_equal.
      destruct (n_time x =? t); reflexivity.
Qed.

Lemma extractNotes_sorted_stable_aux (midiData : Sequence) :
  let pushed := fst (extract_all octaveOffset scale (tracks midiData)) in
  let notes := extractNotes midiData octaveOffset scale in
  Sorted time_le notes /\ Permutation notes pushed /\
  forall t, at_time t notes = at_time t pushed.
Proof.
  intros pushed notes. subst notes. unfold extractNotes, sort_by_time.
  fold pushed.
  apply (sort_by_time_spec pushed []). constructor.
Qed.

(** X16.  The notes that [extractNotes] returns are in the order of their
    times, they are the entries that the two loops pushed, each as often
    as it was pushed, and entries of equal time stay in the order in which
    they were pushed. *)
Theorem extractNotes_sorted_stable (midiData : Sequence) :
  let pushed := fst (extract_all octaveOffset scale (tracks midiData)) in
  let notes := extractNotes midiData octaveOffset scale in
  Sorted time_le notes /\ Permutation notes pushed /\
  forall t, at_time t notes = at_time t pushed.
Proof. apply extractNotes_sorted_stable_aux. Qed.

(** X17.  [extractNotes] reads the tracks one after the other as a single
    stream of events: the note-ons that wait for their note off are kept
    from one track to the next, and a Sequence gives the same notes as the
    Sequence that holds all its events in one track. *)
Theorem extractNotes_merges_tracks (midiData : Sequence) :
  extractNotes midiData octaveOffset scale
  = extractNotes (merge_tracks midiData) octaveOffset scale.
Proof.
  unfold extractNotes, extract_all, merge_tracks. cbn [tracks].
  rewrite !extract_all_stream.
  cbn [all_events flat_map]. rewrite app_nil_r. reflexivity.
Qed.

End ExtractNotes.

(** ** Which events make a note *)

Lemma jsval_eqb_spec (a b : jsval) : jsval_eqb a b = true <-> a = b.
Proof.
  destruct a as [x | ], b as [y | ]; cbn [jsval_eqb];
    split; intros H; try discriminate; try reflexivity.
  - apply Z.eqb_eq in H. congruence.
  - injection H as ->. apply Z.eqb_refl.
Qed.

Lemma jsval_eqb_neq (a b : jsval) : jsval_eqb a b = false <-> a <> b.
Proof.
  rewrite <- jsval_eqb_spec. destruct (jsval_eqb a b); split; congruence.
Qed.

Lemma truthy_key_Some (key : keyval) (s : String.string) :
  truthy_key key = Some s -> key = key_string s /\ s <> ""%string.
Proof.
  destruct key as [ | | k]; cbn [truthy_key]; try discriminate.
  destruct (String.eqb_spec k ""%string) as [E | N]; [ discriminate | ].
  intros H. injection H as <-. split; [ reflexivity | exact N ].
Qed.

Section Pairing.

Variable octaveOffset : jsnumber.
Variable scale : Z -> Z.

Lemma paired_extend (evs : list event) (e : event) (r : note_entry) :
  paired octaveOffset scale evs r -> paired octaveOffset scale (evs ++ [e]) r.
Proof.
  intros [l1 [t [v [l2 [t' [l3 [E H]]]]]]].
  exists l1, t, v, l2, t', (l3 ++ [e]). split; [ | exact H ].
  rewrite E. rewrite <- !app_assoc. cbn [app]. rewrite <- !app_assoc. reflexivity.
Qed.

Lemma pending_extend (evs : list event) (e : event) (k : jsval) (t : Z) :
  pending octaveOffset evs k t -> event_note e <> k ->
  pending octaveOffset (evs ++ [e]) k t.
Proof.
  intros [Hkey [l1 [v [l2 [E Hother]]]]] Hne. split; [ exact Hkey | ].
  exists l1, v, (l2 ++ [e]). split.
  - rewrite E. rewrite <- app_assoc. reflexivity.
  - apply Forall_app. split; [ exact Hother | ]. constructor; [ exact Hne | constructor ].
Qed.

Lemma extract_event_inv (evs : list event) (acc : list note_entry * note_map)
    (e : event) :
  extract_inv octaveOffset scale evs acc ->
  extract_inv octaveOffset scale (evs ++ [e]) (extract_event octaveOffset scale acc e).
Proof.
  destruct acc as [notes m]. intros [Hnotes Hmap]. cbn [fst snd] in *.
  assert (Hnotes' : Forall (paired octaveOffset scale (evs ++ [e])) notes).
  { eapply Forall_impl; [ | exact Hnotes ]. intros r. apply paired_extend. }
  destruct e as [t note v | t note]; cbn [extract_event].
  - destruct (truthy_key (midiNoteToKey note octaveOffset)) as [key | ] eqn:Hkey.
    + split; [ exact Hnotes' | ]. cbn [snd]. intros k t0. unfold map_set.
      destruct (jsval_eqb k note) eqn:Hk.
      * apply jsval_eqb_spec in Hk. subst k. intros H. injection H as <-.
        split; [ congruence | ]. exists evs, v, []. split; [ reflexivity | constructor ].
      * apply jsval_eqb_neq in Hk. intros H.
        apply pending_extend; [ apply Hmap; exact H | cbn; congruence ].
    + split; [ exact Hnotes' | ]. cbn [snd]. intros k t0 H.
      pose proof (Hmap k t0 H) as Hp.
      apply pending_extend; [ exact Hp | ].
      cbn. intros ->. destruct Hp as [Hp _]. contradiction.
  - destruct (truthy_key (midiNoteToKey note octaveOffset)) as [key | ] eqn:Hkey.
    + destruct (m note) as [startTime | ] eqn:Hstart.
      * split; cbn [fst snd].
        -- apply Forall_app. split; [ exact Hnotes' | ].
           constructor; [ | constructor ].
           destruct (Hmap note startTime Hstart) as [_ [l1 [v [l2 [E Hother]]]]].
           destruct (truthy_key_Some _ _ Hkey) as [Hk Hne].
           exists l1, startTime, v, l2, t, []. cbn [n_midi n_time n_duration n_key n_note].
           split; [ rewrite E, <- app_assoc; reflexivity | ].
           repeat split; assumption.
        -- intros k t0. unfold map_delete.
           destruct (jsval_eqb k note) eqn:Hk; [ discriminate | ].
           apply jsval_eqb_neq in Hk. intros H.
           apply pending_extend; [ apply Hmap; exact H | cbn; congruence ].
      * split; [ exact Hnotes' | ]. cbn [snd]. intros k t0 H.
        apply pending_extend; [ apply Hmap; exact H | ].
        cbn. intros ->. congruence.
    + split; [ exact Hnotes' | ]. cbn [snd]. intros k t0 H.
      pose proof (Hmap k t0 H) as Hp.
      apply pending_extend; [ exact Hp | ].
      cbn. intros ->. destruct Hp as [Hp _]. contradiction.
Qed.

Lemma extract_stream_inv (evs : list event) :
  forall done acc,
    extract_inv octaveOffset scale done acc ->
    extract_inv octaveOffset scale (done ++ evs) (fold_left (extract_event octaveOffset scale) evs acc).
Proof.
  induction evs as [ | e evs IH]; intros done acc Hinv; cbn [fold_left].
  - rewrite app_nil_r. exact Hinv.
  - change (done ++ e :: evs) with (done ++ [e] ++ evs). rewrite app_assoc.
    apply IH. apply extract_event_inv. exact Hinv.
Qed.

Lemma extractNotes_paired (midiData : Sequence) (r : note_entry) :
  In r (extractNotes midiData octaveOffset scale) ->
  paired octaveOffset scale (all_events (tracks midiData)) r.
Proof.
  intros Hin.
  destruct (extractNotes_sorted_stable_aux octaveOffset scale midiData) as [_ [Hperm _]].
  apply (Permutation_in _ Hperm) in Hin.
  unfold extract_all in Hin. rewrite extract_all_stream in Hin.
  pose proof (extract_stream_inv (all_events (tracks midiData)) [] ([], map_empty)) as Hinv.
  cbn [app] in Hinv. destruct Hinv as [Hnotes _].
  - split; [ constructor | ]. cbn. discriminate.
  - rewrite Forall_forall in Hnotes. apply Hnotes. exact Hin.
Qed.

End Pairing.

(** X18.  Every entry that [extractNotes] returns is made of a note off and
    of the nearest note on of the same note before it in the stream of
    events, with no other event of that note between the two.  Its time
    is the scaled time of the note on, its duration the scaled difference
    of the two times; its key is the string, never empty, that
    [midiNoteToKey] gives for its note, and its name is that of
    [getMidiNoteName]. *)
Theorem extractNotes_entries_are_pairs
    (midiData : Sequence) (octaveOffset : jsnumber) (scale : Z -> Z)
    (r : note_entry) :
  In r (extractNotes midiData octaveOffset scale) ->
  paired octaveOffset scale (all_events (tracks midiData)) r.
Proof. apply extractNotes_paired. Qed.

Lemma extractNotes_entries_are_pairs_witness :
  paired (Some 0) (fun t => t)
    [noteOn 0 (Some 60) (Some 64); noteOff 96 (Some 60)]
    (mkNote "1"%string 0 96 (Name "C4"%string) (Some 60)).
Proof.
  apply (extractNotes_entries_are_pairs
           (mkSequence 0 1 96
              [mkTrack [noteOn 0 (Some 60) (Some 64); noteOff 96 (Some 60)]]
              (Num 96)) (Some 0) (fun t => t)).
  cbn. auto.
Defined.

Lemma StronglySorted_later (l1 : list Z) (x : Z) (rest : list Z) :
  StronglySorted Z.le (l1 ++ x :: rest) -> Forall (fun y => x <= y) rest.
Proof.
  induction l1 as [ | a l1 IH]; cbn [app]; intros H; inversion H; subst; auto.
Qed.

Lemma durations_not_negative
    (midiData : Sequence) (octaveOffset : jsnumber) (scale : Z -> Z)
    (r : note_entry) :
  Sorted Z.le (map time (all_events (tracks midiData))) ->
  (forall d, 0 <= d -> 0 <= scale d) ->
  In r (extractNotes midiData octaveOffset scale) ->
  0 <= n_duration r.
Proof.
  intros Hsorted Hscale Hin.
  destruct (extractNotes_paired _ _ _ _ Hin)
    as [l1 [t [v [l2 [t' [l3 [E [_ [_ [Hd _]]]]]]]]]].
  apply Sorted_StronglySorted in Hsorted; [ | intros a b c; lia ].
  rewrite E in Hsorted. rewrite map_app in Hsorted. cbn [map] in Hsorted.
  apply StronglySorted_later in Hsorted.
  rewrite map_app in Hsorted. cbn [map time] in Hsorted.
  apply Forall_app in Hsorted as [_ Hsorted].
  inversion Hsorted; subst. cbn [time] in *.
  rewrite Hd. apply Hscale. lia.
Qed.

(** X19.  When the events of the Sequence, track after track, carry
    non-decreasing times and the scaling maps durations that are not
    negative to durations that are not negative, no entry that
    [extractNotes] returns has a negative duration. *)
Theorem extractNotes_durations_not_negative
    (midiData : Sequence) (octaveOffset : jsnumber) (scale : Z -> Z)
    (r : note_entry) :
  Sorted Z.le (map time (all_events (tracks midiData))) ->
  (forall d, 0 <= d -> 0 <= scale d) ->
  In r (extractNotes midiData octaveOffset scale) ->
  0 <= n_duration r.
Proof. apply durations_not_negative. Qed.

Lemma extractNotes_durations_not_negative_witness :
  0 <= n_duration (mkNote "1"%string 0 96 (Name "C4"%string) (Some 60)).
Proof.
  apply (extractNotes_durations_not_negative
           (mkSequence 0 1 96
              [mkTrack [noteOn 0 (Some 60) (Some 64); noteOff 96 (Some 60)]]
              (Num 96)) (Some 0) (fun t => t)).
  - cbn. repeat constructor; lia.
  - intros d Hd. exact Hd.
  - cbn. auto.
Defined.

(** ** How many notes *)

Lemma filter_out_length (k : jsval) (L : list jsval) :
  NoDup L -> In k L ->
  S (length (filter (fun x => negb (jsval_eqb x k)) L)) = length L.
Proof.
  induction 1 as [ | x L Hx Hnd IH]; intros Hin; [ contradiction | ].
  cbn [filter length]. destruct (jsval_eqb x k) eqn:E; cbn [negb].
  - apply jsval_eqb_spec in E. subst x. f_equal.
    clear IH Hin Hnd. induction L as [ | y L IH]; [ reflexivity | ].
    cbn [filter length]. destruct (jsval_eqb y k) eqn:Ey; cbn [negb].
    + apply jsval_eqb_spec in Ey. subst y. exfalso. apply Hx. now left.
    + cbn [length]. f_equal. apply IH. intros H. apply Hx. now right.
  - cbn [length]. f_equal. apply IH. destruct Hin as [-> | Hin]; [ | exact Hin ].
    apply jsval_eqb_neq in E. contradiction.
Qed.

Lemma jsval_eq_dec (a b : jsval) : {a = b} + {a <> b}.
Proof.
  destruct (jsval_eqb a b) eqn:E;
    [ left; apply jsval_eqb_spec | right; apply jsval_eqb_neq ]; exact E.
Qed.

Lemma filter_out_NoDup (k : jsval) (L : list jsval) :
  NoDup L -> NoDup (filter (fun x => negb (jsval_eqb x k)) L).
Proof. apply NoDup_filter. Qed.

Section Counting.

Variable octaveOffset : jsnumber.
Variable scale : Z -> Z.

Lemma extract_stream_count (evs : list event) :
  forall notes m L,
    covers L m ->
    let acc := fold_left (extract_event octaveOffset scale) evs (notes, m) in
    (length (fst acc) <= length notes + length (filter is_noteOff evs))%nat /\
    exists L',
      covers L' (snd acc) /\
      (length (fst acc) + length L'
       <= length notes + length L + length (filter is_noteOn evs))%nat.
Proof.
  induction evs as [ | e evs IH]; intros notes m L Hcov; cbn [fold_left].
  - cbn [fst snd filter length]. split; [ lia | ]. exists L. split; [ exact Hcov | lia ].
  - destruct Hcov as [Hnd Hin].
    destruct e as [t note v | t note]; cbn [extract_event filter is_noteOn is_noteOff].
    + destruct (truthy_key (midiNoteToKey note octaveOffset)) as [key | ].
      * destruct (in_dec jsval_eq_dec note L)
          as [Hold | Hnew].
        -- destruct (IH notes (map_set m note t) L) as [Hoff [L' [Hcov' Hon]]].
           { split; [ exact Hnd | ]. intros k. unfold map_set.
             destruct (jsval_eqb k note) eqn:E; [ | apply Hin ].
             apply jsval_eqb_spec in E. subst k. intros _. exact Hold. }
           cbv zeta in *. split; [ exact Hoff | ].
           exists L'. split; [ exact Hcov' | cbn [length]; lia ].
        -- destruct (IH notes (map_set m note t) (note :: L)) as [Hoff [L' [Hcov' Hon]]].
           { split; [ constructor; assumption | ]. intros k. unfold map_set.
             destruct (jsval_eqb k note) eqn:E.
             - apply jsval_eqb_spec in E. subst k. intros _. now left.
             - intros H. right. apply Hin. exact H. }
           cbv zeta in *. split; [ exact Hoff | ].
           exists L'. split; [ exact Hcov' | cbn [length] in *; lia ].
      * destruct (IH notes m L (conj Hnd Hin)) as [Hoff [L' [Hcov' Hon]]].
        cbv zeta in *. split; [ exact Hoff | ].
        exists L'. split; [ exact Hcov' | cbn [length]; lia ].
    + destruct (truthy_key (midiNoteToKey note octaveOffset)) as [key | ].
      * destruct (m note) as [startTime | ] eqn:Hstart.
        -- set (entry := mkNote key (scale startTime) (scale (t - startTime))
                           (getMidiNoteName note) note).
           assert (Hnote : In note L) by (apply Hin; congruence).
           pose proof (filter_out_length note L Hnd Hnote) as Hlen.
           destruct (IH (notes ++ [entry]) (map_delete m note)
                        (filter (fun x => negb (jsval_eqb x note)) L))
             as [Hoff [L' [Hcov' Hon]]].
           { split; [ apply filter_out_NoDup; exact Hnd | ].
             intros k. unfold map_delete.
             destruct (jsval_eqb k note) eqn:E; [ congruence | ].
             intros H. apply filter_In. split; [ apply Hin; exact H | ].
             rewrite E. reflexivity. }
           cbv zeta in *. rewrite length_app in Hoff, Hon. cbn [length] in *.
           split; [ lia | ].
           exists L'. split; [ exact Hcov' | lia ].
        -- destruct (IH notes m L (conj Hnd Hin)) as [Hoff [L' [Hcov' Hon]]].
           cbv zeta in *. split; [ cbn [length]; lia | ].
           exists L'. split; [ exact Hcov' | lia ].
      * destruct (IH notes m L (conj Hnd Hin)) as [Hoff [L' [Hcov' Hon]]].
        cbv zeta in *. split; [ cbn [length]; lia | ].
        exists L'. split; [ exact Hcov' | lia ].
Qed.

End Counting.

(** X20.  [extractNotes] returns at most as many notes as the Sequence has
    note-off events, and at most as many as it has note-on events: a note
    off makes at most one note, and a note on is used for at most one. *)
Theorem extractNotes_count_bounded
    (midiData : Sequence) (octaveOffset : jsnumber) (scale : Z -> Z) :
  let evs := all_events (tracks midiData) in
  let notes := extractNotes midiData octaveOffset scale in
  (length notes <= length (filter is_noteOff evs))%nat /\
  (length notes <= length (filter is_noteOn evs))%nat.
Proof.
  intros evs notes.
  destruct (extractNotes_sorted_stable_aux octaveOffset scale midiData)
    as [_ [Hperm _]].
  apply Permutation_length in Hperm. fold notes in Hperm.
  unfold extract_all in Hperm. rewrite extract_all_stream in Hperm. fold evs in Hperm.
  destruct (extract_stream_count octaveOffset scale evs [] map_empty [])
    as [Hoff [L' [_ Hon]]].
  { split; [ constructor | ]. intros k H. cbn in H. contradiction. }
  cbv zeta in *. cbn [length] in *. lia.
Qed.

(** ** Notes played one after the other *)

Lemma extract_stroke (octaveOffset : jsnumber) (scale : Z -> Z) (s : stroke)
    (notes : list note_entry) (m : note_map) :
  exists m',
    fold_left (extract_event octaveOffset scale) (stroke_events s) (notes, m)
    = (notes ++ stroke_entry octaveOffset scale s, m').
Proof.
  destruct (truthy_key (midiNoteToKey (Some (s_note s)) octaveOffset))
    as [key | ] eqn:Hkey;
    unfold stroke_events, stroke_entry;
    do 2 (cbn [fold_left extract_event]; rewrite ?Hkey).
  - assert (E : map_set m (Some (s_note s)) (s_on s) (Some (s_note s))
                = Some (s_on s)).
    { unfold map_set.
      assert (E : jsval_eqb (Some (s_note s)) (Some (s_note s)) = true)
        by (apply jsval_eqb_spec; reflexivity).
      rewrite E. reflexivity. }
    rewrite E. eexists. reflexivity.
  - rewrite app_nil_r. eexists. reflexivity.
Qed.

Lemma extract_strokes (octaveOffset : jsnumber) (scale : Z -> Z)
    (strokes : list stroke) :
  forall notes m,
    fst (fold_left (extract_event octaveOffset scale)
           (flat_map stroke_events strokes) (notes, m))
    = notes ++ flat_map (stroke_entry octaveOffset scale) strokes.
Proof.
  induction strokes as [ | s strokes IH]; intros notes m;
    cbn [flat_map fold_left].
  - rewrite app_nil_r. reflexivity.
  - rewrite fold_left_app.
    destruct (extract_stroke octaveOffset scale s notes m) as [m' ->].
    rewrite IH. rewrite <- app_assoc. reflexivity.
Qed.

(** X21.  When the events of the Sequence are notes played one after the
    other, each a note on followed at once by the note off of the same
    note, [extractNotes] returns one entry for each of them whose note has
    a key and none for the others, in the order of their times: the key,
    the scaled time of the note on, the scaled difference of the two
    times, the name of the note and the note. *)
Theorem extractNotes_of_strokes
    (midiData : Sequence) (octaveOffset : jsnumber) (scale : Z -> Z)
    (strokes : list stroke) :
  all_events (tracks midiData) = flat_map stroke_events strokes ->
  extractNotes midiData octaveOffset scale
  = sort_by_time (flat_map (stroke_entry octaveOffset scale) strokes).
Proof.
  intros E. unfold extractNotes, extract_all.
  rewrite extract_all_stream, E, extract_strokes. reflexivity.
Qed.

Lemma extractNotes_of_strokes_witness :
  extractNotes
    (mkSequence 0 1 96
       [mkTrack [noteOn 0 (Some 60) (Some 64); noteOff 96 (Some 60)]] (Num 96))
    (Some 0) (fun t => t)
  = sort_by_time (flat_map (stroke_entry (Some 0) (fun t => t))
                    [mkStroke 60 0 (Some 64) 96]).
Proof.
  apply (extractNotes_of_strokes _ (Some 0) (fun t => t) [mkStroke 60 0 (Some 64) 96]).
  reflexivity.
Defined.

(** * Tracks of well-framed events *)

Lemma varlen_value_nonneg (enc : bytes) : 0 <= varlen_value enc.
Proof. apply (varlen_fold_ge enc 0). lia. Qed.

Lemma valid_varlen_length (enc : bytes) :
  valid_varlen enc = true -> (1 <= length enc)%nat.
Proof. destruct enc; [ discriminate | cbn [length]; lia ]. Qed.

Lemma two_data_status_head (status : byte) :
  two_data_status status = true ->
  strict_eq (Some (byteZ status)) 0xff = false /\
  strict_eq (Some (byteZ status)) 0xf0 = false /\
  strict_eq (Some (byteZ status)) 0xf7 = false /\
  truthy (js_and (num (Some (byteZ status))) 0x80) = true.
Proof. destruct status; intros H; try discriminate H; repeat split. Qed.

Lemma data_byte_head (data1 : byte) :
  (byteZ data1 <? 128) = true ->
  strict_eq (Some (byteZ data1)) 0xff = false /\
  strict_eq (Some (byteZ data1)) 0xf0 = false /\
  strict_eq (Some (byteZ data1)) 0xf7 = false /\
  truthy (js_and (num (Some (byteZ data1))) 0x80) = false.
Proof. destruct data1; intros H; try discriminate H; repeat split. Qed.

Lemma classify_voice (t : Z) (status data1 data2 : byte) :
  classify (Some (byteZ status)) t (Some (byteZ data1)) (Some (byteZ data2))
  = voice_events t status data1 data2.
Proof.
  unfold classify, voice_events. rewrite and_byte_0xf0. reflexivity.
Qed.

Lemma get_at (pre : bytes) (b : byte) (tl : bytes) (i : Z) :
  i = Z.of_nat (length pre) -> get (pre ++ b :: tl) i = Some (byteZ b).
Proof. intros ->. apply get_middle. Qed.

(** A meta or system-exclusive event whose length is that of its payload is
    stepped over. *)
Lemma parseEvent_framed
    (pre delta head len payload post : bytes) (type : byte) (st : state) :
  head = [xff; type] \/ head = [xf0] \/ head = [xf7] ->
  valid_varlen delta = true -> varlen_value delta < 2 ^ 31 ->
  valid_varlen len = true ->
  varlen_value len = Z.of_nat (length payload) ->
  Z.of_nat (length payload) < 2 ^ 31 ->
  pos st = Z.of_nat (length pre) ->
  parseEvent (pre ++ delta ++ head ++ len ++ payload ++ post) st
  = Some (mkState (Z.of_nat (length (pre ++ delta ++ head ++ len ++ payload)))
            (currentTime st + varlen_value delta)
            (runningStatus st) (events st)).
Proof.
  intros Hhead Hdelta Hdlt Hlen Hval Hplt Hpos.
  unfold parseEvent. rewrite Hpos.
  rewrite (readVarLength_framed pre delta) by assumption.
  set (data := pre ++ delta ++ head ++ len ++ payload ++ post).
  assert (Hread : readVarLength data (Z.of_nat (length (pre ++ delta ++ head)))
                  = Some (Z.of_nat (length payload),
                          Z.of_nat (length (pre ++ delta ++ head ++ len)))).
  { subst data.
    replace (pre ++ delta ++ head ++ len ++ payload ++ post)
      with ((pre ++ delta ++ head) ++ len ++ payload ++ post)
      by (rewrite <- !app_assoc; reflexivity).
    rewrite readVarLength_framed by (try assumption; lia).
    rewrite Hval. do 2 f_equal. rewrite <- !app_assoc. reflexivity. }
  assert (Hfinal : Z.of_nat (length (pre ++ delta ++ head ++ len))
                   + Z.of_nat (length payload)
                   = Z.of_nat (length (pre ++ delta ++ head ++ len ++ payload)))
    by (rewrite !length_app; lia).
  assert (Hget0 : forall b tl, head = b :: tl ->
            get data (Z.of_nat (length (pre ++ delta))) = Some (byteZ b)).
  { intros b tl ->. subst data.
    replace (pre ++ delta ++ (b :: tl) ++ len ++ payload ++ post)
      with ((pre ++ delta) ++ b :: tl ++ len ++ payload ++ post)
      by (rewrite <- !app_assoc; reflexivity).
    apply get_middle. }
  destruct Hhead as [-> | [-> | ->]];
    rewrite (Hget0 _ _ eq_refl); cbn [strict_eq byteZ];
    change (Z.of_N (Byte.to_N xff) =? 255) with true;
    try change (Z.of_N (Byte.to_N xf0) =? 255) with false;
    try change (Z.of_N (Byte.to_N xf7) =? 255) with false;
    try change (Z.of_N (Byte.to_N xf0) =? 240) with true;
    try change (Z.of_N (Byte.to_N xf7) =? 240) with false;
    try change (Z.of_N (Byte.to_N xf7) =? 247) with true;
    cbn [orb]; cbv iota.
  - replace (Z.of_nat (length (pre ++ delta)) + 1 + 1)
      with (Z.of_nat (length (pre ++ delta ++ [xff; type])))
      by (rewrite !length_app; cbn [length]; lia).
    rewrite Hread. unfold readBytes. rewrite Hfinal. reflexivity.
  - replace (Z.of_nat (length (pre ++ delta)) + 1)
      with (Z.of_nat (length (pre ++ delta ++ [xf0])))
      by (rewrite !length_app; cbn [length]; lia).
    rewrite Hread. unfold readBytes. rewrite Hfinal. reflexivity.
  - replace (Z.of_nat (length (pre ++ delta)) + 1)
      with (Z.of_nat (length (pre ++ delta ++ [xf7])))
      by (rewrite !length_app; cbn [length]; lia).
    rewrite Hread. unfold readBytes. rewrite Hfinal. reflexivity.
Qed.

Lemma length_of_spec (len payload : bytes) :
  length_of len payload = true ->
  valid_varlen len = true /\
  varlen_value len = Z.of_nat (length payload) /\
  Z.of_nat (length payload) < 2 ^ 31.
Proof.
  unfold length_of. intros H.
  apply andb_prop in H as [H Hlt]. apply andb_prop in H as [Hvalid Heq].
  apply Z.eqb_eq in Heq. apply Z.ltb_lt in Hlt.
  repeat split; [ assumption | assumption | lia ].
Qed.

Lemma event_ok_spec (e : track_event) :
  event_ok e = true ->
  valid_varlen (te_delta e) = true /\
  varlen_value (te_delta e) < 2 ^ 31 /\
  body_ok (te_body e) = true.
Proof.
  unfold event_ok. intros H.
  apply andb_prop in H as [H Hbody]. apply andb_prop in H as [Hvalid Hlt].
  apply Z.ltb_lt in Hlt. auto.
Qed.

(** One pass of the loop on a well-framed event: the cursor ends behind the
    event, the delta time is added to [currentTime], and what is pushed is
    as [pushed] says. *)
Lemma parseEvent_track_event (pre post : bytes) (e : track_event) (st : state) :
  event_ok e = true ->
  pos st = Z.of_nat (length pre) ->
  exists rs l,
    parseEvent (pre ++ event_bytes e ++ post) st
    = Some (mkState (Z.of_nat (length (pre ++ event_bytes e)))
              (currentTime st + varlen_value (te_delta e)) rs (events st ++ l))
    /\ pushed (currentTime st + varlen_value (te_delta e)) (te_body e) l.
Proof.
  intros Hok Hpos. destruct (event_ok_spec e Hok) as [Hdelta [Hdlt Hbody]].
  destruct e as [delta body]. cbn [te_delta te_body] in *.
  unfold event_bytes. cbn [te_delta te_body].
  destruct body as [status data1 data2 | data1 data2 | type len payload
                   | head len payload]; cbn [body_ok body_bytes] in *.
  - (* a channel message with its status byte *)
    destruct (two_data_status_head status Hbody) as [Hff [Hf0 [Hf7 Hhigh]]].
    exists (Some (byteZ status)), (voice_events (currentTime st + varlen_value delta)
                                     status data1 data2).
    split; [ | constructor ].
    unfold parseEvent. rewrite Hpos.
    rewrite <- app_assoc.
    rewrite (readVarLength_framed pre delta) by assumption.
    rewrite (app_assoc pre delta). cbn [app].
    rewrite (get_at (pre ++ delta) status) by reflexivity.
    rewrite Hff, Hf0, Hf7, Hhigh. cbn [orb]. cbv iota.
    replace ((pre ++ delta) ++ status :: data1 :: data2 :: post)
      with (((pre ++ delta) ++ [status]) ++ data1 :: data2 :: post)
      by (rewrite <- !app_assoc; reflexivity).
    rewrite (get_at ((pre ++ delta) ++ [status]) data1 (data2 :: post))
      by (rewrite !length_app; cbn [length]; lia).
    replace (((pre ++ delta) ++ [status]) ++ data1 :: data2 :: post)
      with (((pre ++ delta) ++ [status; data1]) ++ data2 :: post)
      by (rewrite <- !app_assoc; reflexivity).
    rewrite (get_at ((pre ++ delta) ++ [status; data1]) data2 post)
      by (rewrite !length_app; cbn [length]; lia).
    rewrite classify_voice. do 2 f_equal.
    rewrite !length_app. cbn [length]. lia.
  - (* a channel message in running status *)
    destruct (data_byte_head data1 Hbody) as [Hff [Hf0 [Hf7 Hhigh]]].
    exists (runningStatus st), []. split; [ | constructor; constructor ].
    unfold parseEvent. rewrite Hpos.
    rewrite <- app_assoc.
    rewrite (readVarLength_framed pre delta) by assumption.
    rewrite (app_assoc pre delta). cbn [app].
    rewrite (get_at (pre ++ delta) data1) by reflexivity.
    rewrite Hff, Hf0, Hf7, Hhigh. cbn [orb]. cbv iota.
    rewrite app_nil_r. do 2 f_equal.
    rewrite !length_app. cbn [length]. lia.
  - (* a meta event *)
    destruct (length_of_spec len payload Hbody) as [Hlen [Hval Hplt]].
    exists (runningStatus st), []. split; [ | constructor ].
    rewrite <- !app_assoc. rewrite app_nil_r.
    apply (parseEvent_framed pre delta [xff; type] len payload post type);
      auto.
  - (* a system-exclusive event *)
    apply andb_prop in Hbody as [Hhead Hbody].
    destruct (length_of_spec len payload Hbody) as [Hlen [Hval Hplt]].
    exists (runningStatus st), []. split; [ | constructor ].
    rewrite <- !app_assoc. rewrite app_nil_r.
    apply (parseEvent_framed pre delta [head] len payload post x00); auto.
    destruct head; try discriminate Hhead; auto.
Qed.

Lemma event_bytes_length (e : track_event) :
  event_ok e = true -> (1 <= length (event_bytes e))%nat.
Proof.
  intros Hok. destruct (event_ok_spec e Hok) as [Hdelta _].
  apply valid_varlen_length in Hdelta.
  unfold event_bytes. rewrite length_app. lia.
Qed.

(** The loop of [parseTrack] goes through a run of well-framed events that
    ends at or before the end of the chunk, one pass per event. *)
Lemma parseTrack_loop_through (evs : list track_event) :
  forall (pre post : bytes) (st : state) (fuel : nat) (trackEnd : Z),
    forallb event_ok evs = true ->
    pos st = Z.of_nat (length pre) ->
    Z.of_nat (length (pre ++ track_bytes evs)) <= trackEnd ->
    exists st1 l,
      pos st1 = Z.of_nat (length (pre ++ track_bytes evs))
      /\ events st1 = events st ++ l
      /\ track_pushed (currentTime st) evs l
      /\ parseTrack_loop (length evs + fuel) (pre ++ track_bytes evs ++ post)
           trackEnd st
         = parseTrack_loop fuel (pre ++ track_bytes evs ++ post) trackEnd st1.
Proof.
  induction evs as [ | e rest IH]; intros pre post st fuel trackEnd Hok Hpos Hend.
  - exists st, []. cbn [track_bytes flat_map length Nat.add].
    rewrite !app_nil_r.
    split; [ exact Hpos | ]. split; [ reflexivity | ].
    split; [ constructor | reflexivity ].
  - cbn [forallb] in Hok. apply andb_prop in Hok as [Hok Hrest].
    pose proof (event_bytes_length e Hok) as Hlen.
    cbn [track_bytes flat_map] in *. fold (track_bytes rest) in *.
    assert (Edata : pre ++ (event_bytes e ++ track_bytes rest) ++ post
                    = (pre ++ event_bytes e) ++ track_bytes rest ++ post)
      by (rewrite <- !app_assoc; reflexivity).
    assert (Elen : pre ++ event_bytes e ++ track_bytes rest
                   = (pre ++ event_bytes e) ++ track_bytes rest)
      by (rewrite app_assoc; reflexivity).
    rewrite Edata, Elen in *.
    destruct (parseEvent_track_event pre (track_bytes rest ++ post) e st Hok Hpos)
      as [rs [l [Hevent Hpushed]]].
    rewrite (app_assoc pre (event_bytes e)) in Hevent.
    destruct (IH (pre ++ event_bytes e) post
                (mkState (Z.of_nat (length (pre ++ event_bytes e)))
                   (currentTime st + varlen_value (te_delta e)) rs
                   (events st ++ l)) fuel trackEnd Hrest eq_refl Hend)
      as [st1 [ls [Hpos1 [Hevents [Htrack Hloop]]]]].
    cbn [currentTime events] in *.
    exists st1, (l ++ ls).
    split; [ exact Hpos1 | ].
    split; [ rewrite Hevents, app_assoc; reflexivity | ].
    split; [ constructor; assumption | ].
    cbn [length Nat.add parseTrack_loop]. rewrite Hpos.
    destruct (Z.ltb_spec (Z.of_nat (length pre)) trackEnd);
      [ | rewrite !length_app in *; lia ].
    rewrite Hevent. exact Hloop.
Qed.

(** When the run ends where the chunk ends, the loop leaves there. *)
Lemma parseTrack_loop_track_events (evs : list track_event) :
  forall (pre post : bytes) (st : state) (fuel : nat),
    forallb event_ok evs = true ->
    pos st = Z.of_nat (length pre) ->
    (length evs <= fuel)%nat ->
    exists st' l,
      parseTrack_loop fuel (pre ++ track_bytes evs ++ post)
        (Z.of_nat (length (pre ++ track_bytes evs))) st = Some st'
      /\ pos st' = Z.of_nat (length (pre ++ track_bytes evs))
      /\ events st' = events st ++ l
      /\ track_pushed (currentTime st) evs l.
Proof.
  intros pre post st fuel Hok Hpos Hfuel.
  destruct (parseTrack_loop_through evs pre post st (fuel - length evs)
              (Z.of_nat (length (pre ++ track_bytes evs))) Hok Hpos ltac:(lia))
    as [st1 [l [Hpos1 [Hevents [Htrack Hloop]]]]].
  replace (length evs + (fuel - length evs))%nat with fuel in Hloop by lia.
  exists st1, l. rewrite Hloop.
  split; [ apply parseTrack_loop_exit; lia | auto ].
Qed.

Lemma pushed_times (t : Z) (b : event_body) (l : list event) :
  pushed t b l -> Forall (fun e => time e = t) l.
Proof.
  intros H. destruct H as [status data1 data2 | data1 data2 l Hl | | ];
    try constructor; try assumption.
  unfold voice_events.
  destruct (_ && _); [ repeat constructor | ].
  destruct (_ || _); repeat constructor.
Qed.

(** What a track of events pushes is in time order: no delta time is
    negative. *)
Lemma track_pushed_sorted (t : Z) (evs : list track_event) (l : list event) :
  track_pushed t evs l ->
  Forall (fun x => t <= x) (map time l) /\ StronglySorted Z.le (map time l).
Proof.
  induction 1 as [ t | t e rest l ls Hpushed Htrack [IHall IHsorted] ].
  - split; constructor.
  - pose proof (varlen_value_nonneg (te_delta e)) as Hdelta.
    apply pushed_times in Hpushed.
    rewrite map_app. split.
    + apply Forall_app. split.
      * apply Forall_map. eapply Forall_impl; [ | exact Hpushed ].
        cbn beta. intros x ->. lia.
      * eapply Forall_impl; [ | exact IHall ]. cbn beta. intros x Hx. lia.
    + clear Htrack. induction l as [ | x l IHl]; cbn [map app].
      * exact IHsorted.
      * inversion Hpushed as [ | ? ? Hx Hl]; subst.
        constructor; [ apply IHl; assumption | ].
        apply Forall_app. split.
        -- apply Forall_map. eapply Forall_impl; [ | exact Hl ].
           cbn beta. intros y ->. lia.
        -- rewrite Hx. exact IHall.
Qed.

Lemma byte_or_zero_at (pre : bytes) (b : byte) (tl : bytes) (i : Z) :
  i = Z.of_nat (length pre) -> byte_or_zero (pre ++ b :: tl) i = byteZ b.
Proof. intros ->. unfold byte_or_zero. rewrite get_middle. reflexivity. Qed.

(** The four bytes of a chunk length below 2^31 are read as that length. *)
Lemma readInt32_chunk_length (pre : bytes) (b0 b1 b2 b3 : byte) (rest : bytes)
    (n : Z) :
  byteZ b0 * 2 ^ 24 + byteZ b1 * 2 ^ 16 + byteZ b2 * 2 ^ 8 + byteZ b3 = n ->
  n < 2 ^ 31 ->
  readInt32 (pre ++ [b0; b1; b2; b3] ++ rest) (Z.of_nat (length pre))
  = (n, Z.of_nat (length pre) + 4).
Proof.
  intros Hn Hlt.
  pose proof (byteZ_range b0). pose proof (byteZ_range b1).
  pose proof (byteZ_range b2). pose proof (byteZ_range b3).
  rewrite (surjective_pairing (readInt32 _ _)). f_equal; try reflexivity.
  rewrite readInt32_value. cbv zeta. cbn [app].
  rewrite (byte_or_zero_at pre b0) by reflexivity.
  replace (pre ++ b0 :: b1 :: b2 :: b3 :: rest)
    with ((pre ++ [b0]) ++ b1 :: b2 :: b3 :: rest)
    by (rewrite <- app_assoc; reflexivity).
  rewrite (byte_or_zero_at (pre ++ [b0]) b1)
    by (rewrite length_app; cbn [length]; lia).
  replace ((pre ++ [b0]) ++ b1 :: b2 :: b3 :: rest)
    with ((pre ++ [b0; b1]) ++ b2 :: b3 :: rest)
    by (rewrite <- !app_assoc; reflexivity).
  rewrite (byte_or_zero_at (pre ++ [b0; b1]) b2)
    by (rewrite length_app; cbn [length]; lia).
  replace ((pre ++ [b0; b1]) ++ b2 :: b3 :: rest)
    with ((pre ++ [b0; b1; b2]) ++ b3 :: rest)
    by (rewrite <- !app_assoc; reflexivity).
  rewrite (byte_or_zero_at (pre ++ [b0; b1; b2]) b3)
    by (rewrite length_app; cbn [length]; lia).
  destruct (Z.ltb_spec (byteZ b0) 128); lia.
Qed.

(** [parseTrack] on a chunk that holds a track of well-framed events and
    declares their length. *)
Lemma parseTrack_track_events
    (fuel : nat) (division : Z) (pre tag : bytes) (b0 b1 b2 b3 : byte)
    (evs : list track_event) (post : bytes) :
  length tag = 4%nat ->
  byteZ b0 * 2 ^ 24 + byteZ b1 * 2 ^ 16 + byteZ b2 * 2 ^ 8 + byteZ b3
  = Z.of_nat (length (track_bytes evs)) ->
  Z.of_nat (length (track_bytes evs)) < 2 ^ 31 ->
  forallb event_ok evs = true ->
  (length evs <= fuel)%nat ->
  exists l,
    parseTrack fuel (pre ++ tag ++ [b0; b1; b2; b3] ++ track_bytes evs ++ post)
      division (Z.of_nat (length pre))
    = Some (mkTrack l,
            Z.of_nat (length (pre ++ tag ++ [b0; b1; b2; b3] ++ track_bytes evs)))
    /\ track_pushed 0 evs l.
Proof.
  intros Htag Hlength Hlt Hok Hfuel.
  unfold parseTrack, readBytes.
  replace (pre ++ tag ++ [b0; b1; b2; b3] ++ track_bytes evs ++ post)
    with ((pre ++ tag) ++ [b0; b1; b2; b3] ++ track_bytes evs ++ post)
    by (rewrite <- app_assoc; reflexivity).
  replace (Z.of_nat (length pre) + 4) with (Z.of_nat (length (pre ++ tag)))
    by (rewrite length_app; lia).
  rewrite (readInt32_chunk_length (pre ++ tag) b0 b1 b2 b3 _ _ Hlength Hlt).
  replace ((pre ++ tag) ++ [b0; b1; b2; b3] ++ track_bytes evs ++ post)
    with (((pre ++ tag) ++ [b0; b1; b2; b3]) ++ track_bytes evs ++ post)
    by (rewrite <- !app_assoc; reflexivity).
  replace (pre ++ tag ++ [b0; b1; b2; b3] ++ track_bytes evs)
    with (((pre ++ tag) ++ [b0; b1; b2; b3]) ++ track_bytes evs)
    by (rewrite <- !app_assoc; reflexivity).
  set (pre' := (pre ++ tag) ++ [b0; b1; b2; b3]).
  assert (Hpre' : Z.of_nat (length (pre ++ tag)) + 4 = Z.of_nat (length pre'))
    by (subst pre'; rewrite !length_app; cbn [length]; lia).
  rewrite Hpre'.
  replace (Z.of_nat (length pre') + Z.of_nat (length (track_bytes evs)))
    with (Z.of_nat (length (pre' ++ track_bytes evs)))
    by (rewrite length_app; lia).
  destruct (parseTrack_loop_track_events evs pre' post
              (mkState (Z.of_nat (length pre')) 0 (Some 0) []) fuel Hok eq_refl Hfuel)
    as [st' [l [Hloop [Hpos [Hevents Htrack]]]]].
  rewrite Hloop. cbn [events currentTime app] in *.
  exists l. rewrite Hevents, Hpos. split; [ reflexivity | exact Htrack ].
Qed.

Lemma varlen_fold_lt (enc : bytes) :
  forall r, 0 <= r ->
    fold_left varlen_digit enc r < (r + 1) * 128 ^ Z.of_nat (length enc).
Proof.
  induction enc as [ | b rest IH]; intros r Hr.
  - cbn [fold_left length]. change (128 ^ Z.of_nat 0) with 1. lia.
  - cbn [fold_left length].
    pose proof (Z.mod_pos_bound (byteZ b) 128 ltac:(lia)) as Hb.
    assert (Hd : 0 <= varlen_digit r b < (r + 1) * 128)
      by (unfold varlen_digit; lia).
    specialize (IH (varlen_digit r b) ltac:(lia)).
    rewrite Nat2Z.inj_succ, Z.pow_succ_r by lia.
    assert (0 < 128 ^ Z.of_nat (length rest)) by (apply Z.pow_pos_nonneg; lia).
    nia.
Qed.

(** A delta time of at most four bytes, as the format allows, stands for a
    number below 2^28. *)
Lemma varlen_four_bytes (enc : bytes) :
  (length enc <= 4)%nat -> 0 <= varlen_value enc < 2 ^ 28.
Proof.
  intros Hlen. split; [ apply varlen_value_nonneg | ].
  pose proof (varlen_fold_lt enc 0 ltac:(lia)) as H. fold (varlen_value enc) in H.
  assert (128 ^ Z.of_nat (length enc) <= 128 ^ 4)
    by (apply Z.pow_le_mono_r; lia).
  change (128 ^ 4) with (2 ^ 28) in *. lia.
Qed.

(** ** C8: timestamps in emission order *)

(** C8, counterexample.  In [program_change_file] every delta time is the
    single byte 00, so that the format has all four events at time 0.  The
    decoder takes two data bytes for the program change, which has one: it
    reads the delta time of the meta event as data, the head [ff 7f] of the
    meta event as a delta time of 16383, and then, inside the payload, the
    bytes 88 80 80 80 00 as a delta time, which wraps to -2^31, and
    80 3c 00 as a note off.  The track that [parse] returns has a note on
    at 0 and then a note off at 16383 - 2^31: the times decrease. *)
Lemma program_change_breaks_order :
  program_change_file
  = header_one_track ++ track_header x18 ++
    ([x00] ++ [x90; x3c; x40]) ++
    ([x00] ++ [xc0; x05]) ++
    ([x00] ++ [xff; x7f] ++ [x09] ++
       [x00; x88; x80; x80; x80; x00; x80; x3c; x00]) ++
    ([x00] ++ [xff; x2f] ++ [x00] ++ []) /\
  parse 5 program_change_file
  = Some (mkSequence 0 1 96
            [mkTrack [noteOn 0 (Some 60) (Some 64);
                      noteOff (-2147467265) (Some 60)]]
            (Num 0)) /\
  ~ track_sorted (mkTrack [noteOn 0 (Some 60) (Some 64);
                           noteOff (-2147467265) (Some 60)]).
Proof.
  split; [ reflexivity | ]. split; [ reflexivity | ].
  unfold track_sorted. cbn [track_events map time]. intros H.
  inversion H as [ | ? ? _ Hhd]; subst.
  inversion Hhd as [ | ? ? Hle]; subst. lia.
Qed.

(** C8, as amended.  Take a track chunk whose event data is a sequence of
    events that the decoder frames as the format does: channel messages of
    the kinds that have two data bytes (with their status byte or in running
    status), meta events and system-exclusive events whose length is that
    of their payload; each with a delta time that is a valid encoding of a
    number below 2^31, as every delta time of at most four bytes is.  When
    the chunk declares the length of that event data, [parseTrack] returns a
    track and leaves the cursor at the end of the chunk; each event is read
    at the time of the event before it plus its own delta time (the first
    from 0), the note event of a channel message with a status byte is
    pushed with that time, in the order of the buffer, and the times of the
    events of the track do not decrease. *)
Theorem well_framed_track_times
    (fuel : nat) (division : Z) (pre tag : bytes) (b0 b1 b2 b3 : byte)
    (evs : list track_event) (post : bytes) :
  length tag = 4%nat ->
  byteZ b0 * 2 ^ 24 + byteZ b1 * 2 ^ 16 + byteZ b2 * 2 ^ 8 + byteZ b3
  = Z.of_nat (length (track_bytes evs)) ->
  Z.of_nat (length (track_bytes evs)) < 2 ^ 31 ->
  forallb event_ok evs = true ->
  (length evs <= fuel)%nat ->
  exists t,
    parseTrack fuel (pre ++ tag ++ [b0; b1; b2; b3] ++ track_bytes evs ++ post)
      division (Z.of_nat (length pre))
    = Some (t, Z.of_nat (length (pre ++ tag ++ [b0; b1; b2; b3] ++ track_bytes evs)))
    /\ track_pushed 0 evs (track_events t)
    /\ track_sorted t.
Proof.
  intros Htag Hlength Hlt Hok Hfuel.
  destruct (parseTrack_track_events fuel division pre tag b0 b1 b2 b3 evs post
              Htag Hlength Hlt Hok Hfuel) as [l [Hparse Htrack]].
  exists (mkTrack l). split; [ exact Hparse | ]. split; [ exact Htrack | ].
  unfold track_sorted. cbn [track_events].
  apply StronglySorted_Sorted. apply (track_pushed_sorted 0 evs l Htrack).
Qed.

Lemma well_framed_track_times_witness :
  exists t,
    parseTrack 3
      (header_one_track ++ [x4d; x54; x72; x6b] ++ [x00; x00; x00; x0c] ++
       track_bytes [mkTrackEvent [x00] (Voice x90 x3c x40);
                    mkTrackEvent [x60] (Voice x80 x3c x00);
                    mkTrackEvent [x00] (Meta x2f [x00] [])] ++ [])
      96 (Z.of_nat (length header_one_track))
    = Some (t, Z.of_nat (length
                 (header_one_track ++ [x4d; x54; x72; x6b] ++
                  [x00; x00; x00; x0c] ++
                  track_bytes [mkTrackEvent [x00] (Voice x90 x3c x40);
                               mkTrackEvent [x60] (Voice x80 x3c x00);
                               mkTrackEvent [x00] (Meta x2f [x00] [])])))
    /\ track_pushed 0 [mkTrackEvent [x00] (Voice x90 x3c x40);
                       mkTrackEvent [x60] (Voice x80 x3c x00);
                       mkTrackEvent [x00] (Meta x2f [x00] [])]
         (track_events t)
    /\ track_sorted t.
Proof.
  apply (well_framed_track_times 3 96 header_one_track [x4d; x54; x72; x6b]
           x00 x00 x00 x0c
           [mkTrackEvent [x00] (Voice x90 x3c x40);
            mkTrackEvent [x60] (Voice x80 x3c x00);
            mkTrackEvent [x00] (Meta x2f [x00] [])] []);
    [ reflexivity | reflexivity | reflexivity | reflexivity | cbn; lia ].
Defined.

(** * Buffers that end inside an event *)

(** [readVarLength] looks at the bytes through [num] only. *)
Lemma readVarLength_loop_num (d d' : bytes) :
  (forall i, num (get d i) = num (get d' i)) ->
  forall fuel r p,
    readVarLength_loop fuel d r p = readVarLength_loop fuel d' r p.
Proof.
  intros Hnum. induction fuel as [ | fuel IH]; intros r p; [ reflexivity | ].
  cbn [readVarLength_loop]. unfold varlen_step. rewrite (Hnum p).
  destruct (truthy _); [ apply IH | reflexivity ].
Qed.

Lemma readVarLength_loop_mono (data : bytes) (fuel : nat) :
  forall fuel' r p x,
    readVarLength_loop fuel data r p = Some x ->
    (fuel <= fuel')%nat ->
    readVarLength_loop fuel' data r p = Some x.
Proof.
  induction fuel as [ | fuel IH]; intros fuel' r p x H Hle; [ discriminate | ].
  destruct fuel' as [ | fuel']; [ lia | ].
  cbn [readVarLength_loop] in *.
  destruct (truthy _); [ apply IH; [ exact H | lia ] | exact H ].
Qed.

(** Past the end of the buffer [readVarLength] reads what it would read of a
    byte 00. *)
Lemma readVarLength_pad (data : bytes) (p : Z) :
  readVarLength data p = readVarLength (data ++ [x00]) p.
Proof.
  unfold readVarLength.
  destruct (readVarLength_total data p) as [x Hx]. unfold readVarLength in Hx.
  rewrite Hx. symmetry.
  rewrite <- (readVarLength_loop_num data (data ++ [x00])).
  - apply (readVarLength_loop_mono data (S (length data))); [ exact Hx | ].
    rewrite length_app. cbn [length]. lia.
  - intros i.
    destruct (Z.ltb_spec i (Z.of_nat (length data))) as [Hlt | Hge].
    + rewrite get_app_l by lia. reflexivity.
    + rewrite (get_outside data i) by lia.
      destruct (Z.eq_dec i (Z.of_nat (length data))) as [-> | Hne].
      * rewrite get_middle. reflexivity.
      * rewrite (get_outside (data ++ [x00]) i); [ reflexivity | ].
        rewrite length_app. cbn [length]. lia.
Qed.

(** The bytes of a valid encoding that come before its last byte, followed
    by 00, are a valid encoding, of a number that is not larger. *)
Lemma cut_varlen (enc : bytes) :
  forall part suffix,
    valid_varlen enc = true ->
    enc = part ++ suffix -> suffix <> [] ->
    valid_varlen (part ++ [x00]) = true /\
    varlen_value (part ++ [x00]) <= varlen_value enc.
Proof.
  intros part suffix Hvalid -> Hsuffix. split.
  - revert Hvalid. induction part as [ | b part IH]; intros Hvalid;
      [ reflexivity | ].
    cbn [app valid_varlen] in *.
    destruct (part ++ suffix) as [ | c tl] eqn:E.
    { apply app_eq_nil in E as [_ ->]. contradiction. }
    apply andb_prop in Hvalid as [Hb Hrest].
    destruct (part ++ [x00]) as [ | c' tl'] eqn:E'.
    { apply app_eq_nil in E' as [_ E']. discriminate. }
    rewrite Hb. cbn [andb]. apply IH. exact Hrest.
  - unfold varlen_value. rewrite !fold_left_app.
    pose proof (varlen_fold_ge part 0 ltac:(lia)) as Hpart.
    set (v := fold_left varlen_digit part 0) in *.
    destruct suffix as [ | c tl]; [ contradiction | ].
    cbn [fold_left].
    pose proof (Z.mod_pos_bound (byteZ c) 128 ltac:(lia)) as Hc.
    etransitivity; [ | apply varlen_fold_ge; unfold varlen_digit; lia ].
    unfold varlen_digit. change (byteZ x00 mod 128) with 0. lia.
Qed.

(** On a buffer that ends before the last byte of an encoding,
    [readVarLength] stops one byte past the end, on a number that is not
    negative. *)
Lemma readVarLength_cut (pre enc part suffix : bytes) :
  valid_varlen enc = true ->
  varlen_value enc < 2 ^ 31 ->
  enc = part ++ suffix -> suffix <> [] ->
  exists v,
    0 <= v /\
    readVarLength (pre ++ part) (Z.of_nat (length pre))
    = Some (v, Z.of_nat (length (pre ++ part)) + 1).
Proof.
  intros Hvalid Hlt Henc Hsuffix.
  destruct (cut_varlen enc part suffix Hvalid Henc Hsuffix) as [Hvalid' Hle].
  exists (varlen_value (part ++ [x00])).
  split; [ apply varlen_value_nonneg | ].
  rewrite readVarLength_pad.
  replace ((pre ++ part) ++ [x00]) with (pre ++ (part ++ [x00]) ++ [])
    by (rewrite app_nil_r, app_assoc; reflexivity).
  rewrite readVarLength_framed by (try assumption; lia).
  do 2 f_equal. rewrite !length_app. cbn [length]. lia.
Qed.

Lemma classify_length (rs : jsval) (t : Z) (data1 data2 : jsval) :
  (length (classify rs t data1 data2) <= 1)%nat.
Proof.
  unfold classify. destruct (_ && _); [ cbn; lia | ].
  destruct (_ || _); cbn; lia.
Qed.

Lemma get_end (data : bytes) (i : Z) :
  Z.of_nat (length data) <= i -> get data i = None.
Proof. intros H. apply get_outside. lia. Qed.

(** The buffer ends inside the delta time of an event, or right after it:
    the pass reads [undefined] for the event and takes the branch of the
    running status. *)
Lemma parseEvent_cut_delta (pre delta part suffix : bytes) (st : state) :
  valid_varlen delta = true -> varlen_value delta < 2 ^ 31 ->
  delta = part ++ suffix ->
  pos st = Z.of_nat (length pre) ->
  exists st1,
    parseEvent (pre ++ part) st = Some st1
    /\ Z.of_nat (length (pre ++ part)) <= pos st1
    /\ events st1 = events st.
Proof.
  intros Hvalid Hlt Hdelta Hpos.
  assert (Hread : exists v p,
             readVarLength (pre ++ part) (Z.of_nat (length pre)) = Some (v, p)
             /\ Z.of_nat (length (pre ++ part)) <= p).
  { destruct suffix as [ | c tl].
    - rewrite app_nil_r in Hdelta. subst part.
      exists (varlen_value delta), (Z.of_nat (length (pre ++ delta))).
      split; [ | lia ].
      rewrite <- (app_nil_r delta) at 1.
      apply readVarLength_framed; assumption.
    - destruct (readVarLength_cut pre delta part (c :: tl) Hvalid Hlt Hdelta
                  ltac:(discriminate)) as [v [_ Hv]].
      eexists _, _. split; [ exact Hv | lia ]. }
  destruct Hread as [v [p [Hread Hp]]].
  unfold parseEvent. rewrite Hpos, Hread.
  rewrite (get_end (pre ++ part) p) by exact Hp.
  cbn [strict_eq orb]. change (truthy (js_and (num None) 128)) with false.
  cbv iota. eexists. split; [ reflexivity | ]. cbn [pos events]. split; [ lia | reflexivity ].
Qed.

(** The buffer ends inside the length or the payload of a meta or
    system-exclusive event: the length read is not negative, and the pass
    ends at the end of the buffer or past it. *)
Lemma parseEvent_cut_framed
    (pre delta head len payload part suffix : bytes) (type : byte) (st : state) :
  head = [xff; type] \/ head = [xf0] \/ head = [xf7] ->
  valid_varlen delta = true -> varlen_value delta < 2 ^ 31 ->
  valid_varlen len = true ->
  varlen_value len = Z.of_nat (length payload) ->
  Z.of_nat (length payload) < 2 ^ 31 ->
  len ++ payload = part ++ suffix ->
  pos st = Z.of_nat (length pre) ->
  exists st1,
    parseEvent (pre ++ delta ++ head ++ part) st = Some st1
    /\ Z.of_nat (length (pre ++ delta ++ head ++ part)) <= pos st1
    /\ events st1 = events st.
Proof.
  intros Hhead Hdelta Hdlt Hlen Hval Hplt Hcut Hpos.
  set (data := pre ++ delta ++ head ++ part).
  assert (Hread : exists v p,
             readVarLength data (Z.of_nat (length (pre ++ delta ++ head)))
             = Some (v, p)
             /\ Z.of_nat (length data) <= p + v).
  { subst data.
    replace (pre ++ delta ++ head ++ part) with ((pre ++ delta ++ head) ++ part)
      by (rewrite <- !app_assoc; reflexivity).
    apply app_eq_app in Hcut as [m [[Hl Hs] | [Hl Hs]]].
    - destruct m as [ | c tl].
      + rewrite app_nil_r in Hl. subst part.
        exists (varlen_value len), (Z.of_nat (length ((pre ++ delta ++ head) ++ len))).
        split; [ | lia ].
        rewrite <- (app_nil_r len) at 1.
        apply readVarLength_framed; [ assumption | lia ].
      + destruct (readVarLength_cut (pre ++ delta ++ head) len part (c :: tl)
                    Hlen ltac:(lia) Hl ltac:(discriminate)) as [v [Hv Hr]].
        eexists _, _. split; [ exact Hr | lia ].
    - subst part.
      exists (varlen_value len), (Z.of_nat (length ((pre ++ delta ++ head) ++ len))).
      split; [ apply readVarLength_framed; [ assumption | lia ] | ].
      rewrite Hval, Hs. rewrite !length_app. lia. }
  destruct Hread as [v [p [Hread Hp]]].
  assert (Hget0 : forall b tl, head = b :: tl ->
            get data (Z.of_nat (length (pre ++ delta))) = Some (byteZ b)).
  { intros b tl ->. subst data.
    replace (pre ++ delta ++ (b :: tl) ++ part)
      with ((pre ++ delta) ++ b :: tl ++ part)
      by (rewrite <- !app_assoc; reflexivity).
    apply get_middle. }
  unfold parseEvent. rewrite Hpos.
  unfold data at 1.
  rewrite (readVarLength_framed pre delta (head ++ part)) by assumption.
  destruct Hhead as [-> | [-> | ->]];
    rewrite (Hget0 _ _ eq_refl); cbn [strict_eq byteZ];
    change (Z.of_N (Byte.to_N xff) =? 255) with true;
    try change (Z.of_N (Byte.to_N xf0) =? 255) with false;
    try change (Z.of_N (Byte.to_N xf7) =? 255) with false;
    try change (Z.of_N (Byte.to_N xf0) =? 240) with true;
    try change (Z.of_N (Byte.to_N xf7) =? 240) with false;
    try change (Z.of_N (Byte.to_N xf7) =? 247) with true;
    cbn [orb]; cbv iota.
  - replace (Z.of_nat (length (pre ++ delta)) + 1 + 1)
      with (Z.of_nat (length (pre ++ delta ++ [xff; type])))
      by (rewrite !length_app; cbn [length]; lia).
    rewrite Hread. unfold readBytes.
    eexists. split; [ reflexivity | ]. cbn [pos events].
    split; [ exact Hp | reflexivity ].
  - replace (Z.of_nat (length (pre ++ delta)) + 1)
      with (Z.of_nat (length (pre ++ delta ++ [xf0])))
      by (rewrite !length_app; cbn [length]; lia).
    rewrite Hread. unfold readBytes.
    eexists. split; [ reflexivity | ]. cbn [pos events].
    split; [ exact Hp | reflexivity ].
  - replace (Z.of_nat (length (pre ++ delta)) + 1)
      with (Z.of_nat (length (pre ++ delta ++ [xf7])))
      by (rewrite !length_app; cbn [length]; lia).
    rewrite Hread. unfold readBytes.
    eexists. split; [ reflexivity | ]. cbn [pos events].
    split; [ exact Hp | reflexivity ].
Qed.

(** A channel message with its status byte, whatever follows the status
    byte in the buffer. *)
Lemma parseEvent_status (pre delta : bytes) (status : byte) (tl : bytes)
    (st : state) :
  valid_varlen delta = true -> varlen_value delta < 2 ^ 31 ->
  two_data_status status = true ->
  pos st = Z.of_nat (length pre) ->
  exists extra,
    parseEvent (pre ++ delta ++ status :: tl) st
    = Some (mkState (Z.of_nat (length (pre ++ delta)) + 3)
              (currentTime st + varlen_value delta) (Some (byteZ status))
              (events st ++ extra))
    /\ (length extra <= 1)%nat.
Proof.
  intros Hdelta Hdlt Hstatus Hpos.
  destruct (two_data_status_head status Hstatus) as [Hff [Hf0 [Hf7 Hhigh]]].
  eexists. split; [ | apply classify_length ].
  unfold parseEvent. rewrite Hpos.
  rewrite (readVarLength_framed pre delta) by assumption.
  rewrite (app_assoc pre delta).
  rewrite (get_at (pre ++ delta) status) by reflexivity.
  rewrite Hff, Hf0, Hf7, Hhigh. cbn [orb]. cbv iota.
  do 2 f_equal. lia.
Qed.

(** A byte with the high bit clear where a status byte can be, whatever
    follows it. *)
Lemma parseEvent_data_byte (pre delta : bytes) (data1 : byte) (tl : bytes)
    (st : state) :
  valid_varlen delta = true -> varlen_value delta < 2 ^ 31 ->
  (byteZ data1 <? 128) = true ->
  pos st = Z.of_nat (length pre) ->
  parseEvent (pre ++ delta ++ data1 :: tl) st
  = Some (mkState (Z.of_nat (length (pre ++ delta)) + 2)
            (currentTime st + varlen_value delta) (runningStatus st)
            (events st)).
Proof.
  intros Hdelta Hdlt Hdata Hpos.
  destruct (data_byte_head data1 Hdata) as [Hff [Hf0 [Hf7 Hhigh]]].
  unfold parseEvent. rewrite Hpos.
  rewrite (readVarLength_framed pre delta) by assumption.
  rewrite (app_assoc pre delta).
  rewrite (get_at (pre ++ delta) data1) by reflexivity.
  rewrite Hff, Hf0, Hf7, Hhigh. cbn [orb]. cbv iota.
  do 2 f_equal. lia.
Qed.

(** The buffer ends on the byte [ff] of a meta event. *)
Lemma parseEvent_cut_meta_head (pre delta : bytes) (st : state) :
  valid_varlen delta = true -> varlen_value delta < 2 ^ 31 ->
  pos st = Z.of_nat (length pre) ->
  parseEvent (pre ++ delta ++ [xff]) st
  = Some (mkState (Z.of_nat (length (pre ++ delta)) + 3)
            (currentTime st + varlen_value delta) (runningStatus st)
            (events st)).
Proof.
  intros Hdelta Hdlt Hpos.
  unfold parseEvent. rewrite Hpos.
  rewrite (readVarLength_framed pre delta) by assumption.
  rewrite (app_assoc pre delta).
  rewrite (get_at (pre ++ delta) xff) by reflexivity.
  change (strict_eq (Some (byteZ xff)) 255) with true. cbv iota.
  rewrite readVarLength_outside
    by (right; rewrite !length_app; cbn [length]; lia).
  unfold readBytes. do 2 f_equal. lia.
Qed.

(** The pass on an event of which the buffer holds only a part: it ends at
    the end of the buffer or past it, and pushes one event at most. *)
Lemma parseEvent_cut_event (pre part suffix : bytes) (e : track_event)
    (st : state) :
  event_ok e = true ->
  event_bytes e = part ++ suffix -> suffix <> [] ->
  pos st = Z.of_nat (length pre) ->
  exists st1 extra,
    parseEvent (pre ++ part) st = Some st1
    /\ Z.of_nat (length (pre ++ part)) <= pos st1
    /\ events st1 = events st ++ extra
    /\ (length extra <= 1)%nat.
Proof.
  intros Hok Hcut Hsuffix Hpos.
  destruct (event_ok_spec e Hok) as [Hdelta [Hdlt Hbody]].
  destruct e as [delta body]. unfold event_bytes in Hcut.
  cbn [te_delta te_body] in *.
  assert (Hnone : forall st1,
             events st1 = events st ->
             events st1 = events st ++ [] /\ (length (@nil event) <= 1)%nat)
    by (intros st1 ->; rewrite app_nil_r; cbn [length]; split; [ reflexivity | lia ]).
  apply app_eq_app in Hcut as [l [[Hd Hs] | [Hp Hb]]].
  { destruct (parseEvent_cut_delta pre delta part l st Hdelta Hdlt Hd Hpos)
      as [st1 [Hevent [Hend Hevents]]].
    exists st1, []. split; [ exact Hevent | ]. split; [ exact Hend | auto ]. }
  subst part. destruct l as [ | x l].
  { destruct (parseEvent_cut_delta pre delta (delta ++ []) [] st Hdelta Hdlt
                ltac:(rewrite !app_nil_r; reflexivity) Hpos)
      as [st1 [Hevent [Hend Hevents]]].
    exists st1, []. split; [ exact Hevent | ]. split; [ exact Hend | auto ]. }
  destruct body as [status data1 data2 | data1 data2 | type len payload
                   | head len payload]; cbn [body_ok body_bytes app] in *.
  - (* a channel message with its status byte *)
    injection Hb as <- Hb.
    destruct (parseEvent_status pre delta status l st Hdelta Hdlt Hbody Hpos)
      as [extra [Hevent Hextra]].
    eexists _, extra. split; [ exact Hevent | ]. cbn [pos events].
    split; [ | auto ].
    destruct l as [ | y [ | z l]]; cbn [app] in Hb.
    + rewrite !length_app. cbn [length]. lia.
    + rewrite !length_app. cbn [length]. lia.
    + injection Hb as _ _ Hb. symmetry in Hb.
      apply app_eq_nil in Hb as [_ Hb]. contradiction.
  - (* a channel message in running status *)
    injection Hb as <- Hb.
    rewrite (parseEvent_data_byte pre delta data1 l st Hdelta Hdlt Hbody Hpos).
    eexists _, []. split; [ reflexivity | ]. cbn [pos events].
    split; [ | apply (Hnone (mkState 0 0 None (events st))); reflexivity ].
    destruct l as [ | y l]; cbn [app] in Hb.
    + rewrite !length_app. cbn [length]. lia.
    + injection Hb as _ Hb. symmetry in Hb.
      apply app_eq_nil in Hb as [_ Hb]. contradiction.
  - (* a meta event *)
    destruct (length_of_spec len payload Hbody) as [Hlen [Hval Hplt]].
    injection Hb as <- Hb.
    destruct l as [ | y l]; cbn [app] in Hb.
    + rewrite (parseEvent_cut_meta_head pre delta st Hdelta Hdlt Hpos).
      eexists _, []. split; [ reflexivity | ]. cbn [pos events].
      split; [ | apply (Hnone (mkState 0 0 None (events st))); reflexivity ].
      rewrite !length_app. cbn [length]. lia.
    + injection Hb as <- Hb.
      destruct (parseEvent_cut_framed pre delta [xff; type] len payload l suffix
                  type st) as [st1 [Hevent [Hend Hevents]]]; auto.
      exists st1, []. split; [ exact Hevent | ]. split; [ exact Hend | auto ].
  - (* a system-exclusive event *)
    apply andb_prop in Hbody as [Hhead Hbody].
    destruct (length_of_spec len payload Hbody) as [Hlen [Hval Hplt]].
    injection Hb as <- Hb.
    destruct (parseEvent_cut_framed pre delta [head] len payload l suffix
                x00 st) as [st1 [Hevent [Hend Hevents]]]; auto.
    { destruct head; try discriminate Hhead; auto. }
    exists st1, []. split; [ exact Hevent | ]. split; [ exact Hend | auto ].
Qed.

(** [parseTrack] on a chunk whose event data the buffer holds only in part:
    some events, and a part of the next. *)
Lemma parseTrack_cut_event
    (fuel : nat) (division : Z) (pre tag : bytes) (b0 b1 b2 b3 : byte)
    (evs : list track_event) (e : track_event) (part suffix : bytes) (n : Z) :
  length tag = 4%nat ->
  byteZ b0 * 2 ^ 24 + byteZ b1 * 2 ^ 16 + byteZ b2 * 2 ^ 8 + byteZ b3 = n ->
  n < 2 ^ 31 ->
  Z.of_nat (length (track_bytes evs ++ part)) < n ->
  forallb event_ok evs = true ->
  event_ok e = true ->
  event_bytes e = part ++ suffix -> suffix <> [] ->
  Z.of_nat (length evs) + 1 + n <= Z.of_nat fuel ->
  exists l extra p',
    parseTrack fuel (pre ++ tag ++ [b0; b1; b2; b3] ++ track_bytes evs ++ part)
      division (Z.of_nat (length pre))
    = Some (mkTrack (l ++ extra), p')
    /\ track_pushed 0 evs l
    /\ (length extra <= 1)%nat
    /\ Z.of_nat (length (pre ++ tag ++ [b0; b1; b2; b3] ++ track_bytes evs
                         ++ part)) <= p'.
Proof.
  intros Htag Hn Hlt Hmore Hok Hoke Hcut Hsuffix Hfuel.
  unfold parseTrack, readBytes.
  replace (pre ++ tag ++ [b0; b1; b2; b3] ++ track_bytes evs ++ part)
    with ((pre ++ tag) ++ [b0; b1; b2; b3] ++ track_bytes evs ++ part)
    by (rewrite <- app_assoc; reflexivity).
  replace (Z.of_nat (length pre) + 4) with (Z.of_nat (length (pre ++ tag)))
    by (rewrite length_app; lia).
  rewrite (readInt32_chunk_length (pre ++ tag) b0 b1 b2 b3 _ _ Hn Hlt).
  replace ((pre ++ tag) ++ [b0; b1; b2; b3] ++ track_bytes evs ++ part)
    with (((pre ++ tag) ++ [b0; b1; b2; b3]) ++ track_bytes evs ++ part)
    by (rewrite <- !app_assoc; reflexivity).
  set (pre' := (pre ++ tag) ++ [b0; b1; b2; b3]).
  assert (Hpre' : Z.of_nat (length (pre ++ tag)) + 4 = Z.of_nat (length pre'))
    by (subst pre'; rewrite !length_app; cbn [length]; lia).
  rewrite Hpre'.
  set (trackEnd := Z.of_nat (length pre') + n).
  set (data := pre' ++ track_bytes evs ++ part).
  set (st0 := mkState (Z.of_nat (length pre')) 0 (Some 0) []).
  rewrite length_app in Hmore.
  destruct (parseTrack_loop_through evs pre' part st0 (S (Z.to_nat n)) trackEnd
              Hok eq_refl)
    as [st1 [l [Hpos1 [Hevents1 [Htrack Hthrough]]]]].
  { subst trackEnd. rewrite length_app. lia. }
  fold data in Hthrough.
  destruct (parseEvent_cut_event (pre' ++ track_bytes evs) part suffix e st1
              Hoke Hcut Hsuffix Hpos1)
    as [st2 [extra [Hevent [Hend [Hevents2 Hextra]]]]].
  rewrite <- app_assoc in Hevent, Hend. fold data in Hevent, Hend.
  destruct (parseTrack_loop_outside data trackEnd (Z.to_nat n) st2 (Z.to_nat n))
    as [st' [Hloop [Hevents' Hpos']]]; [ exact Hend | | lia | ].
  { subst trackEnd data. rewrite !length_app in Hend. lia. }
  assert (Hrun : parseTrack_loop (length evs + S (Z.to_nat n)) data trackEnd st0
                 = Some st').
  { rewrite Hthrough. cbn [parseTrack_loop]. rewrite Hpos1.
    destruct (Z.ltb_spec (Z.of_nat (length (pre' ++ track_bytes evs))) trackEnd);
      [ | subst trackEnd; rewrite length_app in *; lia ].
    rewrite Hevent. exact Hloop. }
  rewrite (parseTrack_loop_mono data trackEnd _ fuel st0 st' Hrun) by lia.
  exists l, extra, (pos st').
  split; [ rewrite Hevents', Hevents2, Hevents1; reflexivity | ].
  split; [ exact Htrack | ]. split; [ exact Hextra | ].
  replace (pre ++ tag ++ [b0; b1; b2; b3] ++ track_bytes evs ++ part) with data
    by (subst data pre'; rewrite <- !app_assoc; reflexivity).
  lia.
Qed.

(** [parse] on a header that declares one track or more, followed by a chunk
    whose event data the buffer holds only in part: the tracks after the
    first are read past the end of the buffer. *)
Lemma parse_cut_event
    (fuel : nat) (pre tag : bytes) (b0 b1 b2 b3 : byte)
    (evs : list track_event) (e : track_event) (part suffix : bytes) (n : Z) :
  length pre = 14%nat -> length tag = 4%nat ->
  1 <= 256 * byte_or_zero pre 10 + byte_or_zero pre 11 ->
  byteZ b0 * 2 ^ 24 + byteZ b1 * 2 ^ 16 + byteZ b2 * 2 ^ 8 + byteZ b3 = n ->
  n < 2 ^ 31 ->
  Z.of_nat (length (track_bytes evs ++ part)) < n ->
  forallb event_ok evs = true ->
  event_ok e = true ->
  event_bytes e = part ++ suffix -> suffix <> [] ->
  Z.of_nat (length evs) + 1 + n <= Z.of_nat fuel ->
  exists s l extra,
    parse fuel (pre ++ tag ++ [b0; b1; b2; b3] ++ track_bytes evs ++ part)
    = Some s
    /\ trackCount s = 256 * byte_or_zero pre 10 + byte_or_zero pre 11
    /\ tracks s = mkTrack (l ++ extra)
                  :: repeat (mkTrack []) (Z.to_nat (trackCount s) - 1)%nat
    /\ track_pushed 0 evs l
    /\ (length extra <= 1)%nat.
Proof.
  intros Hpre Htag Hcount Hn Hlt Hmore Hok Hoke Hcut Hsuffix Hfuel.
  set (data := pre ++ tag ++ [b0; b1; b2; b3] ++ track_bytes evs ++ part).
  assert (E10 : fst (readInt16 data 10)
                = 256 * byte_or_zero pre 10 + byte_or_zero pre 11).
  { destruct (readInt16_range data 10) as [-> _]. cbn [fst]. subst data.
    unfold byte_or_zero. rewrite !get_app_l by lia. reflexivity. }
  rewrite parse_unfold. rewrite E10.
  destruct (Z.to_nat (256 * byte_or_zero pre 10 + byte_or_zero pre 11))
    as [ | k] eqn:Ek; [ lia | ].
  cbn [parseTracks].
  destruct (parseTrack_cut_event fuel (fst (readInt16 data 12))
              pre tag b0 b1 b2 b3 evs e part suffix n
              Htag Hn Hlt Hmore Hok Hoke Hcut Hsuffix Hfuel)
    as [l [extra [p' [Hparse [Htrack [Hextra Hend]]]]]].
  replace (Z.of_nat (length pre)) with 14 in Hparse by lia.
  fold data in Hparse, Hend.
  rewrite Hparse.
  destruct (parseTracks_outside data fuel (fst (readInt16 data 12)) k
              ([] ++ [mkTrack (l ++ extra)]) p')
    as [p'' ->]; [ lia | ].
  eexists. exists l, extra. split; [ reflexivity | ].
  cbn [trackCount tracks app]. rewrite Ek.
  replace (S k - 1)%nat with k by lia. auto.
Qed.

Lemma maxTime_fits_empty_tracks (max_arguments : Z) (n : nat) :
  1 <= max_arguments -> Z.of_nat n <= max_arguments ->
  maxTime_fits max_arguments (repeat (mkTrack []) n) = true.
Proof.
  intros Hone Hn. unfold maxTime_fits, spread_fits.
  rewrite repeat_length. apply andb_true_intro.
  split; [ | apply Z.leb_le; exact Hn ].
  apply forallb_forall. intros t Ht. apply repeat_spec in Ht. subst t.
  cbn [track_events length]. apply Z.leb_le. exact Hone.
Qed.

(** ** C4: truncated input *)

(** C4, counterexample.  The scenario cut off inside the header (12 bytes,
    before the division), inside the length of the track chunk (20 bytes),
    inside the first event (24 bytes, just after the status byte 0x90) and
    inside the second (28 bytes, just after the status byte 0x80): each
    time [parse] returns a Sequence, with fewer events or with a note off
    whose note is [undefined], and no failure. *)
Lemma truncated_input_returns_sequence :
  parse 0 (firstn 12 scenario_file)
  = Some (mkSequence 0 1 0 [mkTrack []] (Num 0)) /\
  parse 0 (firstn 20 scenario_file)
  = Some (mkSequence 0 1 96 [mkTrack []] (Num 0)) /\
  parse 4 (firstn 24 scenario_file)
  = Some (mkSequence 0 1 96 [mkTrack []] (Num 0)) /\
  parse 4 (firstn 28 scenario_file)
  = Some (mkSequence 0 1 96
            [mkTrack [noteOn 0 (Some 60) (Some 64); noteOff 96 None]]
            (Num 96)).
Proof. repeat split; reflexivity. Qed.

(** C4, as amended.  [parse] has no failure for truncated input: a read past
    the end of the buffer yields [undefined], which the arithmetic takes as
    0, and moves the cursor all the same.
    - A buffer of at most 22 bytes is cut off in the header chunk or in the
      tag or length of the first track chunk.  [parse] returns a Sequence
      (on an engine whose calls accept 65535 arguments): its fields are the
      header fields read with each missing byte as 0, and its tracks, as
      many as [trackCount] says, have no event; with one track or more,
      [maxTime] is 0.
    - A track chunk whose tag or length the end of the buffer cuts off, or
      that ends with them, is returned as a track without events.
    - A track chunk that declares more event data than the buffer holds,
      the buffer ending inside an event (or between two) after events that
      are well framed: [parseTrack] returns a track with what those events
      push, and one more event at most, made of the part of the event that
      the buffer holds.  When that chunk is the first, after a header that
      declares one track or more, [parse] terminates: it builds a Sequence
      with that track and, for the tracks that the buffer does not hold,
      tracks without events, and returns it, unless a spread of line 41
      passes more arguments than the engine accepts.
    In the last two cases the fuel need only cover the length that the
    chunk declares. *)
Theorem truncated_input_parses
    (data : bytes) (fuel : nat) (max_arguments dv : Z)
    (pre tag : bytes) (b0 b1 b2 b3 : byte)
    (evs : list track_event) (e : track_event) (part suffix : bytes) :
  ((length data <= 22)%nat ->
   fst (readInt32 data 18) <= Z.of_nat fuel ->
   65535 <= max_arguments ->
   exists s,
     parse_outcome max_arguments fuel data = Some (Returned s)
     /\ format s = 256 * byte_or_zero data 8 + byte_or_zero data 9
     /\ trackCount s = 256 * byte_or_zero data 10 + byte_or_zero data 11
     /\ division s = 256 * byte_or_zero data 12 + byte_or_zero data 13
     /\ tracks s = repeat (mkTrack []) (Z.to_nat (trackCount s))
     /\ (0 < trackCount s -> maxTime s = Num 0))
  /\
  (forall p,
      Z.of_nat (length data) <= p + 8 ->
      fst (readInt32 data (p + 4)) <= Z.of_nat fuel ->
      exists p', parseTrack fuel data dv p = Some (mkTrack [], p'))
  /\
  (length tag = 4%nat ->
   Z.of_nat (length (track_bytes evs ++ part))
   < byteZ b0 * 2 ^ 24 + byteZ b1 * 2 ^ 16 + byteZ b2 * 2 ^ 8 + byteZ b3
   < 2 ^ 31 ->
   forallb event_ok evs = true ->
   event_ok e = true ->
   event_bytes e = part ++ suffix -> suffix <> [] ->
   Z.of_nat (length evs) + 1
   + (byteZ b0 * 2 ^ 24 + byteZ b1 * 2 ^ 16 + byteZ b2 * 2 ^ 8 + byteZ b3)
   <= Z.of_nat fuel ->
   (exists l extra p',
       parseTrack fuel
         (pre ++ tag ++ [b0; b1; b2; b3] ++ track_bytes evs ++ part)
         dv (Z.of_nat (length pre))
       = Some (mkTrack (l ++ extra), p')
       /\ track_pushed 0 evs l
       /\ (length extra <= 1)%nat)
   /\
   (length pre = 14%nat ->
    1 <= 256 * byte_or_zero pre 10 + byte_or_zero pre 11 ->
    exists s l extra,
      parse_outcome max_arguments fuel
        (pre ++ tag ++ [b0; b1; b2; b3] ++ track_bytes evs ++ part)
      = Some (if maxTime_fits max_arguments (tracks s)
              then Returned s else RangeError)
      /\ trackCount s = 256 * byte_or_zero pre 10 + byte_or_zero pre 11
      /\ tracks s = mkTrack (l ++ extra)
                    :: repeat (mkTrack []) (Z.to_nat (trackCount s) - 1)%nat
      /\ track_pushed 0 evs l
      /\ (length extra <= 1)%nat)).
Proof.
  split; [ | split ].
  - intros Hlen Hfuel Hmax.
    destruct (readInt16_range data 8) as [E8 _].
    destruct (readInt16_range data 10) as [E10 Hcount].
    destruct (readInt16_range data 12) as [E12 _].
    unfold parse_outcome. rewrite parse_unfold.
    rewrite E8, E10, E12 in *. cbn [fst] in *.
    change (8 + 1) with 9 in *. change (10 + 1) with 11 in *.
    change (12 + 1) with 13 in *.
    set (count := 256 * byte_or_zero data 10 + byte_or_zero data 11) in *.
    assert (Htracks : exists p',
               parseTracks fuel data
                 (256 * byte_or_zero data 12 + byte_or_zero data 13)
                 (Z.to_nat count) [] 14
               = Some (repeat (mkTrack []) (Z.to_nat count), p')).
    { destruct (Z.to_nat count) as [ | n]; [ cbn; eauto | ].
      cbn [parseTracks].
      destruct (parseTrack_outside data fuel
                  (256 * byte_or_zero data 12 + byte_or_zero data 13) 14)
        as [p' [-> Hle]]; [ lia | exact Hfuel | ].
      destruct (parseTracks_outside data fuel
                  (256 * byte_or_zero data 12 + byte_or_zero data 13) n
                  ([] ++ [mkTrack []]) p')
        as [p'' ->]; [ lia | ]. eauto. }
    destruct Htracks as [p' ->]. cbn [tracks].
    rewrite maxTime_fits_empty_tracks by lia.
    eexists. split; [ reflexivity | ].
    cbn [format trackCount division tracks maxTime].
    repeat split; try reflexivity.
    intros Hpos. destruct (Z.to_nat count) as [ | n] eqn:E; [ lia | ].
    apply compute_maxTime_empty_tracks.
  - intros p Hlen Hfuel.
    destruct (parseTrack_outside data fuel dv p Hlen Hfuel) as [p' [H _]].
    eauto.
  - intros Htag [Hmore Hlt] Hok Hoke Hcut Hsuffix Hfuel. split.
    + destruct (parseTrack_cut_event fuel dv pre tag b0 b1 b2 b3 evs e part
                  suffix _ Htag eq_refl Hlt Hmore Hok Hoke Hcut Hsuffix Hfuel)
        as [l [extra [p' [Hparse [Htrack [Hextra _]]]]]].
      exists l, extra, p'. auto.
    + intros Hpre Hcount.
      destruct (parse_cut_event fuel pre tag b0 b1 b2 b3 evs e part suffix _
                  Hpre Htag Hcount eq_refl Hlt Hmore Hok Hoke Hcut Hsuffix Hfuel)
        as [s [l [extra [Hparse [Hc [Htracks [Htrack Hextra]]]]]]].
      exists s, l, extra. unfold parse_outcome. rewrite Hparse.
      split; [ destruct (maxTime_fits max_arguments (tracks s)); reflexivity | ].
      auto.
Qed.

Lemma truncated_input_parses_witness :
  (exists s,
      parse_outcome 65535 14 (firstn 21 scenario_file) = Some (Returned s)
      /\ format s = 256 * byte_or_zero (firstn 21 scenario_file) 8
                    + byte_or_zero (firstn 21 scenario_file) 9
      /\ trackCount s = 256 * byte_or_zero (firstn 21 scenario_file) 10
                        + byte_or_zero (firstn 21 scenario_file) 11
      /\ division s = 256 * byte_or_zero (firstn 21 scenario_file) 12
                      + byte_or_zero (firstn 21 scenario_file) 13
      /\ tracks s = repeat (mkTrack []) (Z.to_nat (trackCount s))
      /\ (0 < trackCount s -> maxTime s = Num 0))
  /\
  (exists p',
      parseTrack 14 (firstn 21 scenario_file) 96 14 = Some (mkTrack [], p'))
  /\
  (exists l extra p',
      parseTrack 14
        (header_one_track ++ [x4d; x54; x72; x6b] ++ [x00; x00; x00; x0c] ++
         track_bytes [mkTrackEvent [x00] (Voice x90 x3c x40)] ++ [x60; x80])
        96 (Z.of_nat (length header_one_track))
      = Some (mkTrack (l ++ extra), p')
      /\ track_pushed 0 [mkTrackEvent [x00] (Voice x90 x3c x40)] l
      /\ (length extra <= 1)%nat)
  /\
  (exists s l extra,
      parse_outcome 65535 14
        (header_one_track ++ [x4d; x54; x72; x6b] ++ [x00; x00; x00; x0c] ++
         track_bytes [mkTrackEvent [x00] (Voice x90 x3c x40)] ++ [x60; x80])
      = Some (if maxTime_fits 65535 (tracks s) then Returned s else RangeError)
      /\ trackCount s = 256 * byte_or_zero header_one_track 10
                        + byte_or_zero header_one_track 11
      /\ tracks s = mkTrack (l ++ extra)
                    :: repeat (mkTrack []) (Z.to_nat (trackCount s) - 1)%nat
      /\ track_pushed 0 [mkTrackEvent [x00] (Voice x90 x3c x40)] l
      /\ (length extra <= 1)%nat).
Proof.
  destruct (truncated_input_parses (firstn 21 scenario_file) 14 65535 96
              header_one_track [x4d; x54; x72; x6b] x00 x00 x00 x0c
              [mkTrackEvent [x00] (Voice x90 x3c x40)]
              (mkTrackEvent [x60] (Voice x80 x3c x00)) [x60; x80] [x3c; x00])
    as [Hheader [Hchunk Hevent]].
  destruct Hevent as [Htrack Hparse];
    [ reflexivity | split; reflexivity | reflexivity | reflexivity
    | reflexivity | discriminate | vm_compute; discriminate | ].
  split; [ | split; [ | split ] ].
  - apply Hheader; [ vm_compute; lia | vm_compute; discriminate | lia ].
  - apply (Hchunk 14); [ vm_compute; discriminate | vm_compute; discriminate ].
  - exact Htrack.
  - apply Hparse; [ reflexivity | vm_compute; discriminate ].
Defined.

(** * From the buffer to the notes *)

(** [parse] on a header that declares one track, followed by a chunk that
    holds a track of well-framed events and declares their length. *)
Lemma parse_single_track
    (fuel : nat) (h dv tag : bytes) (b0 b1 b2 b3 : byte)
    (evs : list track_event) (post : bytes) :
  length h = 10%nat -> length dv = 2%nat -> length tag = 4%nat ->
  byteZ b0 * 2 ^ 24 + byteZ b1 * 2 ^ 16 + byteZ b2 * 2 ^ 8 + byteZ b3
  = Z.of_nat (length (track_bytes evs)) ->
  Z.of_nat (length (track_bytes evs)) < 2 ^ 31 ->
  forallb event_ok evs = true ->
  (length evs <= fuel)%nat ->
  exists s l,
    parse fuel (h ++ [x00; x01] ++ dv ++ tag ++ [b0; b1; b2; b3]
                ++ track_bytes evs ++ post) = Some s
    /\ trackCount s = 1
    /\ tracks s = [mkTrack l]
    /\ track_pushed 0 evs l.
Proof.
  intros Hh Hdv Htag Hlength Hlt Hok Hfuel.
  set (data := h ++ [x00; x01] ++ dv ++ tag ++ [b0; b1; b2; b3]
               ++ track_bytes evs ++ post).
  assert (Hcount : fst (readInt16 data 10) = 1).
  { destruct (readInt16_range data 10) as [-> _]. cbn [fst]. subst data.
    cbn [app].
    rewrite (byte_or_zero_at h x00) by lia.
    replace (h ++ x00 :: x01 :: dv ++ tag ++ b0 :: b1 :: b2 :: b3 :: track_bytes evs ++ post)
      with ((h ++ [x00]) ++ x01 :: dv ++ tag ++ b0 :: b1 :: b2 :: b3 :: track_bytes evs ++ post)
      by (rewrite <- app_assoc; reflexivity).
    rewrite (byte_or_zero_at (h ++ [x00]) x01)
      by (rewrite length_app; cbn [length]; lia).
    reflexivity. }
  rewrite parse_unfold. rewrite Hcount.
  change (Z.to_nat 1) with 1%nat. cbn [parseTracks].
  destruct (parseTrack_track_events fuel (fst (readInt16 data 12))
              (h ++ [x00; x01] ++ dv) tag b0 b1 b2 b3 evs post
              Htag Hlength Hlt Hok Hfuel) as [l [Hparse Htrack]].
  replace (Z.of_nat (length (h ++ [x00; x01] ++ dv))) with 14 in Hparse
    by (rewrite !length_app; cbn [length]; lia).
  rewrite <- !app_assoc in Hparse. fold data in Hparse.
  rewrite Hparse. cbn [app].
  eexists. exists l. split; [ reflexivity | ].
  cbn [trackCount tracks]. auto.
Qed.

(** X22.  End to end.  Take a buffer that holds a header declaring one
    track and a track chunk that declares the length of its event data,
    the event data being a sequence of events that the decoder frames as
    the format does (channel messages of the kinds that have two data
    bytes, meta events and system-exclusive events), each with a delta time
    that is a valid encoding of a number below 2^31.  The notes that
    [extractNotes] makes of the Sequence that [parse] returns all have a
    duration that is not negative, provided the scaling maps durations that
    are not negative to such durations. *)
Theorem single_track_durations_not_negative
    (fuel : nat) (h dv tag : bytes) (b0 b1 b2 b3 : byte)
    (evs : list track_event) (post : bytes) (s : Sequence)
    (octaveOffset : jsnumber) (scale : Z -> Z) (r : note_entry) :
  length h = 10%nat -> length dv = 2%nat -> length tag = 4%nat ->
  byteZ b0 * 2 ^ 24 + byteZ b1 * 2 ^ 16 + byteZ b2 * 2 ^ 8 + byteZ b3
  = Z.of_nat (length (track_bytes evs)) ->
  Z.of_nat (length (track_bytes evs)) < 2 ^ 31 ->
  forallb event_ok evs = true ->
  parse fuel (h ++ [x00; x01] ++ dv ++ tag ++ [b0; b1; b2; b3]
              ++ track_bytes evs ++ post) = Some s ->
  (forall d, 0 <= d -> 0 <= scale d) ->
  In r (extractNotes s octaveOffset scale) ->
  0 <= n_duration r.
Proof.
  intros Hh Hdv Htag Hlength Hlt Hok Hparse Hscale Hin.
  destruct (parse_single_track (Nat.max fuel (length evs)) h dv tag b0 b1 b2 b3
              evs post Hh Hdv Htag Hlength Hlt Hok ltac:(lia))
    as [s' [l [Hparse' [_ [Htracks Htrack]]]]].
  rewrite (parse_mono _ fuel (Nat.max fuel (length evs)) s Hparse ltac:(lia))
    in Hparse'.
  injection Hparse' as <-.
  apply (durations_not_negative s octaveOffset scale r); try assumption.
  rewrite Htracks. cbn [all_events flat_map track_events]. rewrite app_nil_r.
  apply StronglySorted_Sorted. apply (track_pushed_sorted 0 evs l Htrack).
Qed.

Lemma single_track_durations_not_negative_witness :
  0 <= n_duration (mkNote "1"%string 0 96 (Name "C4"%string) (Some 60)).
Proof.
  apply (single_track_durations_not_negative 3 (firstn 10 scenario_file)
           [x00; x60] [x4d; x54; x72; x6b] x00 x00 x00 x0c
           [mkTrackEvent [x00] (Voice x90 x3c x40);
            mkTrackEvent [x60] (Voice x80 x3c x00);
            mkTrackEvent [x00] (Meta x2f [x00] [])] []
           (mkSequence 0 1 96
              [mkTrack [noteOn 0 (Some 60) (Some 64); noteOff 96 (Some 60)]]
              (Num 96)) (Some 0) (fun t => t));
    [ reflexivity | reflexivity | reflexivity | reflexivity | reflexivity
    | reflexivity | reflexivity | intros d Hd; exact Hd | cbn; auto ].
Defined.
